(** * Verification of the ALOHA mouse tele-operation controller

    Shallow embedding of [control/prevs/manual_minkaloha.py]: the class
    [AlohaMocapControl] (mouse callbacks, gripper adapter, control loop).

    Numbers.  Python floats and NumPy [float64] scalars are IEEE-754
    binary64 values; they are embedded as Rocq's primitive [float], whose
    operations are the same binary64 operations (round to nearest, ties to
    even).  [dx], [dy] and the pointer coordinates delivered by pynput are
    Python integers and are embedded as [Z].

    Effects.  The callbacks assign attributes of the controller object and
    are functions on the record of those attributes.  [run] also calls
    into MuJoCo, the viewer, mink, the rate limiter and the listener; it is
    embedded in a state-and-exception monad whose state carries the objects
    the loop mutates and the list of the calls made so far.  The solver
    [mink.solve_ik] and the answers of [viewer.is_running()] are inputs of
    the embedding. *)

From Stdlib Require Import ZArith List Bool Lia.
From Stdlib Require Import Floats.
From stdpp Require Import base option list gmap strings.

#[local] Set Warnings "-inexact-float".
Local Open Scope float_scope.

(** ** Classes of binary64 values *)

Module F64.

(** [x] is neither a NaN nor an infinity. *)
Definition sf_finite (x : spec_float) : bool :=
  match x with
  | S754_zero _ | S754_finite _ _ _ => true
  | S754_infinity _ | S754_nan => false
  end.

Definition finite (x : float) : bool := sf_finite (Prim2SF x).

Definition sf_is_nan (x : spec_float) : bool :=
  match x with S754_nan => true | _ => false end.

End F64.

(** ** Scalars and small arrays *)

(** [np.pi], the binary64 value nearest to pi. *)
Definition np_pi : float := 0x1.921fb54442d18p+1.

(** A NumPy array of shape [(3,)].  The source only indexes such arrays
    with the literals [0], [1] and [2], and NumPy arrays never change
    shape, so the index type has exactly three values. *)
Inductive index3 := i0 | i1 | i2.

Record array3 := mk_array3 { a0 : float; a1 : float; a2 : float }.

Definition getitem (a : array3) (i : index3) : float :=
  match i with i0 => a0 a | i1 => a1 a | i2 => a2 a end.

Definition setitem (a : array3) (i : index3) (v : float) : array3 :=
  match i with
  | i0 => mk_array3 v (a1 a) (a2 a)
  | i1 => mk_array3 (a0 a) v (a2 a)
  | i2 => mk_array3 (a0 a) (a1 a) v
  end.

Definition tolist (a : array3) : list float := [a0 a; a1 a; a2 a].

(** [mink.SO3]: a rotation stored as the quaternion [wxyz]. *)
Record SO3 := mk_SO3 { wxyz : list float }.

Definition SO3_identity : SO3 := mk_SO3 [1; 0; 0; 0].

(** [mink.SE3]: a rigid transform stored as [wxyz_xyz]. *)
Record SE3 := mk_SE3 { wxyz_xyz : list float }.

(** [SE3.from_rotation_and_translation] concatenates the two arrays, so the
    result does not alias [translation]. *)
Definition from_rotation_and_translation (rotation : SO3) (translation : array3) : SE3 :=
  mk_SE3 (wxyz rotation ++ tolist translation).

(** ** NumPy primitives *)

(** [np.clip(x, lo, hi)] on float64 scalars.  NumPy's clip loop computes
    [MIN(MAX(x, lo), hi)] where, for floating types,
    [MAX(a, b) = isnan(a) ? a : (a > b ? a : b)] and
    [MIN(a, b) = isnan(a) ? a : (a < b ? a : b)]. *)
Definition npy_max (a b : float) : float :=
  if is_nan a then a else if b <? a then a else b.

Definition npy_min (a b : float) : float :=
  if is_nan a then a else if a <? b then a else b.

Definition np_clip (x lo hi : float) : float :=
  npy_min (npy_max x lo) hi.

(** [lo <= x <= hi] as decided by the binary64 comparison (false on NaN). *)
Definition within (lo hi x : float) : bool := (lo <=? x) && (x <=? hi).

(** ** The controller object *)

(** [pynput.mouse.Button] *)
Module mouse.
Inductive Button := unknown | left | middle | right.
End mouse.

(** The attributes of [AlohaMocapControl] that the callbacks and the loop
    read or write.  [target_site_id_l] and [target_site_id_r] do not exist
    until [add_target_sites] has run, hence the [option]. *)
Record AlohaMocapControl := mk_self {
  target_l : array3;
  target_r : array3;
  rot_l : SO3;
  rot_r : SO3;
  targets_updated : bool;
  x_min : float; x_max : float;
  y_min : float; y_max : float;
  z_min : float; z_max : float;
  delta : float;
  left_gripper_actuator_id : nat;
  right_gripper_actuator_id : nat;
  left_gripper_pos : float;
  right_gripper_pos : float;
  target_site_id_l : option nat;
  target_site_id_r : option nat
}.

Definition set_target_l (v : array3) (s : AlohaMocapControl) : AlohaMocapControl :=
  mk_self v (target_r s) (rot_l s) (rot_r s) (targets_updated s)
    (x_min s) (x_max s) (y_min s) (y_max s) (z_min s) (z_max s) (delta s)
    (left_gripper_actuator_id s) (right_gripper_actuator_id s)
    (left_gripper_pos s) (right_gripper_pos s)
    (target_site_id_l s) (target_site_id_r s).

Definition set_targets_updated (b : bool) (s : AlohaMocapControl) : AlohaMocapControl :=
  mk_self (target_l s) (target_r s) (rot_l s) (rot_r s) b
    (x_min s) (x_max s) (y_min s) (y_max s) (z_min s) (z_max s) (delta s)
    (left_gripper_actuator_id s) (right_gripper_actuator_id s)
    (left_gripper_pos s) (right_gripper_pos s)
    (target_site_id_l s) (target_site_id_r s).

Definition set_left_gripper_pos (v : float) (s : AlohaMocapControl) : AlohaMocapControl :=
  mk_self (target_l s) (target_r s) (rot_l s) (rot_r s) (targets_updated s)
    (x_min s) (x_max s) (y_min s) (y_max s) (z_min s) (z_max s) (delta s)
    (left_gripper_actuator_id s) (right_gripper_actuator_id s)
    v (right_gripper_pos s)
    (target_site_id_l s) (target_site_id_r s).

Definition set_right_gripper_pos (v : float) (s : AlohaMocapControl) : AlohaMocapControl :=
  mk_self (target_l s) (target_r s) (rot_l s) (rot_r s) (targets_updated s)
    (x_min s) (x_max s) (y_min s) (y_max s) (z_min s) (z_max s) (delta s)
    (left_gripper_actuator_id s) (right_gripper_actuator_id s)
    (left_gripper_pos s) v
    (target_site_id_l s) (target_site_id_r s).

Definition set_delta (v : float) (s : AlohaMocapControl) : AlohaMocapControl :=
  mk_self (target_l s) (target_r s) (rot_l s) (rot_r s) (targets_updated s)
    (x_min s) (x_max s) (y_min s) (y_max s) (z_min s) (z_max s) v
    (left_gripper_actuator_id s) (right_gripper_actuator_id s)
    (left_gripper_pos s) (right_gripper_pos s)
    (target_site_id_l s) (target_site_id_r s).

Definition set_target_site_id_l (l : nat) (s : AlohaMocapControl) : AlohaMocapControl :=
  mk_self (target_l s) (target_r s) (rot_l s) (rot_r s) (targets_updated s)
    (x_min s) (x_max s) (y_min s) (y_max s) (z_min s) (z_max s) (delta s)
    (left_gripper_actuator_id s) (right_gripper_actuator_id s)
    (left_gripper_pos s) (right_gripper_pos s)
    (Some l) (target_site_id_r s).

Definition set_target_site_id_r (r : nat) (s : AlohaMocapControl) : AlohaMocapControl :=
  mk_self (target_l s) (target_r s) (rot_l s) (rot_r s) (targets_updated s)
    (x_min s) (x_max s) (y_min s) (y_max s) (z_min s) (z_max s) (delta s)
    (left_gripper_actuator_id s) (right_gripper_actuator_id s)
    (left_gripper_pos s) (right_gripper_pos s)
    (target_site_id_l s) (Some r).

Definition set_target_site_ids (l r : nat) (s : AlohaMocapControl) : AlohaMocapControl :=
  mk_self (target_l s) (target_r s) (rot_l s) (rot_r s) (targets_updated s)
    (x_min s) (x_max s) (y_min s) (y_max s) (z_min s) (z_max s) (delta s)
    (left_gripper_actuator_id s) (right_gripper_actuator_id s)
    (left_gripper_pos s) (right_gripper_pos s)
    (Some l) (Some r).

(** The attribute values assigned by [__init__] (lines 45-63), given the
    two actuator ids the MuJoCo model resolved. *)
Definition init_attributes (left_id right_id : nat) : AlohaMocapControl :=
  {| target_l := mk_array3 (-0.25) 0.0 1.1;
     target_r := mk_array3 0.25 0.0 1.1;
     rot_l := SO3_identity;
     rot_r := SO3_identity;
     targets_updated := false;
     x_min := -0.4; x_max := 0.4;
     y_min := -0.4; y_max := 0.4;
     z_min := 0.8; z_max := 1.4;
     delta := 0.01;
     left_gripper_actuator_id := left_id;
     right_gripper_actuator_id := right_id;
     left_gripper_pos := 0.02;
     right_gripper_pos := 0.02;
     target_site_id_l := None;
     target_site_id_r := None |}.

(** *** Mouse callbacks

    A callback body is a sequence of assignments to attributes of [self];
    it is embedded as the list of those assignments, in source order, so
    that the same statements serve the sequential reading ([exec]) and the
    interleaved one used for the two-thread model below.  The [print]
    calls write to standard output only and are left out. *)
Definition stmt := AlohaMocapControl -> AlohaMocapControl.

Definition exec (body : list stmt) (self : AlohaMocapControl) : AlohaMocapControl :=
  fold_left (fun s (c : stmt) => c s) body self.

(** [self.target_l[i] += self.delta] and [-=] *)
Definition target_l_iadd (i : index3) : stmt := fun self =>
  set_target_l (setitem (target_l self) i (getitem (target_l self) i + delta self)) self.
Definition target_l_isub (i : index3) : stmt := fun self =>
  set_target_l (setitem (target_l self) i (getitem (target_l self) i - delta self)) self.

Definition left_gripper_iadd : stmt := fun self =>
  set_left_gripper_pos (left_gripper_pos self + delta self) self.
Definition left_gripper_isub : stmt := fun self =>
  set_left_gripper_pos (left_gripper_pos self - delta self) self.
Definition right_gripper_iadd : stmt := fun self =>
  set_right_gripper_pos (right_gripper_pos self + delta self) self.
Definition right_gripper_isub : stmt := fun self =>
  set_right_gripper_pos (right_gripper_pos self - delta self) self.

(** [self.target_l[i] = np.clip(self.target_l[i], lo, hi)] *)
Definition target_l_clip (i : index3) (lo hi : AlohaMocapControl -> float) : stmt := fun self =>
  set_target_l (setitem (target_l self) i (np_clip (getitem (target_l self) i) (lo self) (hi self))) self.

Definition left_gripper_clip : stmt := fun self =>
  set_left_gripper_pos (np_clip (left_gripper_pos self) 0.002 0.037) self.
Definition right_gripper_clip : stmt := fun self =>
  set_right_gripper_pos (np_clip (right_gripper_pos self) 0.002 0.037) self.

Definition mark_updated : stmt := set_targets_updated true.

(** Lines 73-80: the horizontal branch. *)
Definition on_scroll_horizontal (dx : Z) : list stmt :=
  if (dx >? 0)%Z then [target_l_iadd i0; left_gripper_iadd; right_gripper_iadd]
  else if (dx <? 0)%Z then [target_l_isub i0; left_gripper_isub; right_gripper_isub]
  else [].

(** Lines 82-85: the vertical branch. *)
Definition on_scroll_vertical (dy : Z) : list stmt :=
  if (dy <? 0)%Z then [target_l_iadd i1]
  else if (dy >? 0)%Z then [target_l_isub i1]
  else [].

(** Lines 87-92: clamping and the dirty flag. *)
Definition on_scroll_clamp : list stmt :=
  [target_l_clip i0 x_min x_max; target_l_clip i1 y_min y_max;
   left_gripper_clip; right_gripper_clip; mark_updated].

Definition on_scroll_body (x y dx dy : Z) : list stmt :=
  on_scroll_horizontal dx ++ on_scroll_vertical dy ++ on_scroll_clamp.

Definition on_scroll (self : AlohaMocapControl) (x y dx dy : Z) : AlohaMocapControl :=
  exec (on_scroll_body x y dx dy) self.

(** Lines 96-104. *)
Definition on_click_body (x y : Z) (button : mouse.Button) (pressed : bool) : list stmt :=
  if pressed then
    match button with
    | mouse.left => [target_l_iadd i2]
    | mouse.right => [target_l_isub i2]
    | _ => []
    end ++ [target_l_clip i2 z_min z_max; mark_updated]
  else [].

Definition on_click (self : AlohaMocapControl) (x y : Z) (button : mouse.Button)
    (pressed : bool) : AlohaMocapControl :=
  exec (on_click_body x y button pressed) self.

(** An operator-input event, as the listener delivers it. *)
Inductive input_event :=
| Scroll (x y dx dy : Z)
| Click (x y : Z) (button : mouse.Button) (pressed : bool).

Definition callback_body (ev : input_event) : list stmt :=
  match ev with
  | Scroll x y dx dy => on_scroll_body x y dx dy
  | Click x y button pressed => on_click_body x y button pressed
  end.

Definition dispatch (self : AlohaMocapControl) (ev : input_event) : AlohaMocapControl :=
  match ev with
  | Scroll x y dx dy => on_scroll self x y dx dy
  | Click x y button pressed => on_click self x y button pressed
  end.

(** The callbacks of a whole sequence of events, run one after the other. *)
Definition dispatch_all (self : AlohaMocapControl) (evs : list input_event) : AlohaMocapControl :=
  fold_left dispatch evs self.

(** ** Collaborators of the control loop *)

(** What the loop uses of [mujoco.MjModel]: name resolution (a missing name
    raises [KeyError]) and the address tables, which MuJoCo defines for
    every id it hands out. *)
Record MjModel := mk_MjModel {
  joint : gmap string nat;
  actuator : gmap string nat;
  site : gmap string nat;
  jnt_qposadr : nat -> nat;
  jnt_dofadr : nat -> nat
}.

(** The contents of [data.qpos] and [data.qvel] when the reduced
    configurations are built. *)
Record MjData := mk_MjData { qpos : nat -> float; qvel : nat -> float }.

Inductive exn :=
| KeyError (name : string)
| AttributeError (name : string)
| ValueError
| NoSolutionFound
| SolverError (msg : string).

(** [mink.FrameTask], with the target last given to [set_target]. *)
Record FrameTask := mk_FrameTask {
  frame_name : string;
  frame_type : string;
  position_cost : float;
  orientation_cost : float;
  lm_damping : float;
  transform_target : option SE3
}.

Definition set_target (t : FrameTask) (pose : SE3) : FrameTask :=
  mk_FrameTask (frame_name t) (frame_type t) (position_cost t) (orientation_cost t)
    (lm_damping t) (Some pose).

(** The limits handed to [mink.solve_ik]. *)
Inductive Limit :=
| VelocityLimit (velocities : gmap string float)
| CollisionAvoidanceLimit (geom_pairs : list (list nat * list nat))
    (minimum_distance_from_collisions collision_detection_distance : float).

(** Modelled from the spec: [ReducedConfiguration] is imported from the
    repository's [reduced_configuration] module, whose source is not at
    hand.  The spec (sections 3 and 4.1) gives it two fixed index lists and
    the vectors [q] and [dq]; [integrate] advances [q] by [velocity * dt]
    (revolute joints integrate linearly), sets [dq] to the supplied
    velocity, and treats a velocity of the wrong length as a fatal contract
    violation. *)
Record ReducedConfiguration := mk_ReducedConfiguration {
  relevant_qpos_indices : list nat;
  relevant_qvel_indices : list nat;
  q : list float;
  dq : list float
}.

Definition new_ReducedConfiguration (model : MjModel) (data : MjData)
    (qpos_indices qvel_indices : list nat) : ReducedConfiguration :=
  mk_ReducedConfiguration qpos_indices qvel_indices
    (map (qpos data) qpos_indices) (map (qvel data) qvel_indices).

Definition integrate_inplace (c : ReducedConfiguration) (velocity : list float) (dt : float)
    : exn + ReducedConfiguration :=
  if (length velocity =? length (q c))%nat then
    inr (mk_ReducedConfiguration (relevant_qpos_indices c) (relevant_qvel_indices c)
           (zip_with (fun qi vi => qi + vi * dt) (q c) velocity) velocity)
  else inl ValueError.

(** [np.zeros_like] *)
Definition zeros_like (a : list float) : list float := map (fun _ => 0) a.

(** Calls into the collaborators (MuJoCo, the viewer, mink, the rate
    limiter, the pynput listener), in the order they are made. *)
Inductive event :=
| ListenerStart
| ListenerStop
| ViewerLaunch
| ViewerClose
| DefaultFreeCamera
| MjForward
| MjStep
| ViewerSync
| RateSleep
| CallSolveIK
| CallSetTarget (frame : string) (pose : SE3)
| SetCtrl (ids : list nat) (vals : list float)
| SetQpos (indices : list nat) (vals : list float)
| SetQvel (indices : list nat) (vals : list float)
| SetSiteXpos (id : nat) (pos : array3)
| SetSitePos (id : nat) (pos : array3)
| SetSiteXmat (id : nat) (rot : SO3).

(** The kind of a call, without its arguments. *)
Inductive kind :=
| KListener | KViewer | KCamera | KForward | KStep | KSync | KSleep
| KSolve | KSetTarget | KCtrl | KQpos | KQvel | KSite.

Definition kind_of (e : event) : kind :=
  match e with
  | ListenerStart | ListenerStop => KListener
  | ViewerLaunch | ViewerClose => KViewer
  | DefaultFreeCamera => KCamera
  | MjForward => KForward
  | MjStep => KStep
  | ViewerSync => KSync
  | RateSleep => KSleep
  | CallSolveIK => KSolve
  | CallSetTarget _ _ => KSetTarget
  | SetCtrl _ _ => KCtrl
  | SetQpos _ _ => KQpos
  | SetQvel _ _ => KQvel
  | SetSiteXpos _ _ | SetSitePos _ _ | SetSiteXmat _ _ => KSite
  end.

(** [mink.solve_ik(configuration, tasks, dt, solver, limits=, damping=)].
    The solver is a collaborator: it either returns a velocity vector or
    raises.  Its first argument here is the history of calls made so far,
    which stands for the MuJoCo state the configuration refers to. *)
Definition ik_solver : Type :=
  list event -> ReducedConfiguration -> list FrameTask -> float -> string ->
  list Limit -> float -> exn + list float.

(** ** The body of [run] *)

Definition _JOINT_NAMES : list string :=
  ["waist"; "shoulder"; "elbow"; "forearm_roll"; "wrist_angle"; "wrist_rotate"].

Definition _VELOCITY_LIMITS : gmap string float :=
  list_to_map (map (fun k => (k, np_pi)) _JOINT_NAMES).

(** Literals of [run]. *)
Definition solver : string := "osqp".
Definition pos_threshold : float := 0.1.
Definition max_iters : nat := 20.
Definition damping : float := 1e-3.

(** [RateLimiter(frequency=200.0).dt] *)
Definition rate_dt : float := 1 / 200.0.

(** The local variables of [run] that are bound once, before the loop. *)
Record locals := mk_locals {
  left_joint_names : list string;
  right_joint_names : list string;
  velocity_limits : gmap string float;
  left_dof_ids : list nat;
  left_actuator_ids : list nat;
  left_relevant_qpos_indices : list nat;
  left_relevant_qvel_indices : list nat;
  right_dof_ids : list nat;
  right_actuator_ids : list nat;
  right_relevant_qpos_indices : list nat;
  right_relevant_qvel_indices : list nat;
  limits : list Limit
}.

(** The objects the loop mutates, and the history of calls. *)
Record state := mk_state {
  self : AlohaMocapControl;
  left_configuration : ReducedConfiguration;
  right_configuration : ReducedConfiguration;
  l_ee_task : FrameTask;
  r_ee_task : FrameTask;
  trace : list event
}.

Definition with_self (s : AlohaMocapControl) (st : state) : state :=
  mk_state s (left_configuration st) (right_configuration st) (l_ee_task st) (r_ee_task st)
    (trace st).
Definition with_left_configuration (c : ReducedConfiguration) (st : state) : state :=
  mk_state (self st) c (right_configuration st) (l_ee_task st) (r_ee_task st)
    (trace st).
Definition with_right_configuration (c : ReducedConfiguration) (st : state) : state :=
  mk_state (self st) (left_configuration st) c (l_ee_task st) (r_ee_task st)
    (trace st).
Definition with_l_ee_task (t : FrameTask) (st : state) : state :=
  mk_state (self st) (left_configuration st) (right_configuration st) t (r_ee_task st)
    (trace st).
Definition with_r_ee_task (t : FrameTask) (st : state) : state :=
  mk_state (self st) (left_configuration st) (right_configuration st) (l_ee_task st) t
    (trace st).
Definition with_trace (tr : list event) (st : state) : state :=
  mk_state (self st) (left_configuration st) (right_configuration st) (l_ee_task st)
    (r_ee_task st) tr.

(** *** Statements with effects and exceptions

    A statement either completes with a value and a new state, or raises.
    An exception that leaves [run] takes the frame with it: what remains is
    the controller object and the calls already made. *)
Inductive outcome (A : Type) :=
| Normal (a : A) (st : state)
| Raised (e : exn) (s : AlohaMocapControl) (tr : list event).
Arguments Normal {A} a st.
Arguments Raised {A} e s tr.

Definition M (A : Type) : Type := state -> outcome A.

Definition ret {A} (a : A) : M A := fun st => Normal a st.

Definition bind {A B} (c : M A) (k : A -> M B) : M B := fun st =>
  match c st with
  | Normal a st' => k a st'
  | Raised e s tr => Raised e s tr
  end.

Definition raise {A} (e : exn) : M A := fun st => Raised e (self st) (trace st).

Notation "x <- c ;; k" := (bind c (fun x => k))
  (at level 100, c at next level, right associativity).
Notation "c ;; k" := (bind c (fun _ => k)) (at level 100, right associativity).

Definition get : M state := fun st => Normal st st.
Definition modify (f : state -> state) : M unit := fun st => Normal tt (f st).
Definition call (e : event) : M unit := modify (fun st => with_trace (trace st ++ [e]) st).
Definition lift {A} (r : exn + A) : M A :=
  match r with inl e => raise e | inr a => ret a end.

(** The calls made by an execution, whether it completed or raised. *)
Definition trace_of {A} (o : outcome A) : list event :=
  match o with Normal _ st => trace st | Raised _ _ tr => tr end.

(** [for _ in range(n): body] *)
Fixpoint for_range (n : nat) (body : M unit) : M unit :=
  match n with
  | O => ret tt
  | S n' => body ;; for_range n' body
  end.

(** [model.joint(name).id] and the like *)
Definition resolve (table : gmap string nat) (name : string) : exn + nat :=
  match table !! name with Some id => inr id | None => inl (KeyError name) end.

(** A list comprehension whose element expression may raise. *)
Fixpoint comprehension {A B} (f : A -> exn + B) (l : list A) : exn + list B :=
  match l with
  | [] => inr []
  | a :: l' =>
      match f a with
      | inl e => inl e
      | inr b => match comprehension f l' with inl e => inl e | inr bs => inr (b :: bs) end
      end
  end.

(** Lines 111-121: the joint names of both arms and their velocity limits. *)
Definition name_loop_step (acc : exn + (list string * list string * gmap string float))
    (n : string) : exn + (list string * list string * gmap string float) :=
  match acc with
  | inl e => inl e
  | inr (left_names, right_names, vl) =>
      let name_left := "aloha_scene/left_" +:+ n in
      let name_right := "aloha_scene/right_" +:+ n in
      match _VELOCITY_LIMITS !! n with
      | None => inl (KeyError n)
      | Some v =>
          inr (left_names ++ [name_left], right_names ++ [name_right],
               <[name_right := v]> (<[name_left := v]> vl))
      end
  end.

Definition name_loop : exn + (list string * list string * gmap string float) :=
  fold_left name_loop_step _JOINT_NAMES (inr ([], [], ∅)).

(** Lines 108-165: everything [run] binds before it opens the viewer. *)
Definition setup (model : MjModel) (data : MjData)
    : exn + (locals * ReducedConfiguration * ReducedConfiguration * FrameTask * FrameTask) :=
  match name_loop with
  | inl e => inl e
  | inr (left_names, right_names, vl) =>
    match comprehension (resolve (joint model)) left_names with inl e => inl e | inr l_dof =>
    match comprehension (resolve (actuator model)) left_names with inl e => inl e | inr l_act =>
    match comprehension (resolve (joint model)) right_names with inl e => inl e | inr r_dof =>
    match comprehension (resolve (actuator model)) right_names with inl e => inl e | inr r_act =>
      let l_qpos := map (jnt_qposadr model) l_dof in
      let l_qvel := map (jnt_dofadr model) l_dof in
      let r_qpos := map (jnt_qposadr model) r_dof in
      let r_qvel := map (jnt_dofadr model) r_dof in
      let collision_avoidance_limit := CollisionAvoidanceLimit [] 0.1 0.1 in
      inr (mk_locals left_names right_names vl
             l_dof l_act l_qpos l_qvel r_dof r_act r_qpos r_qvel
             [VelocityLimit vl; collision_avoidance_limit],
           new_ReducedConfiguration model data l_qpos l_qvel,
           new_ReducedConfiguration model data r_qpos r_qvel,
           mk_FrameTask "aloha_scene/left_gripper" "site" 1.0 1.0 1.0 None,
           mk_FrameTask "aloha_scene/right_gripper" "site" 1.0 1.0 1.0 None)
    end end end end
  end.

(** Lines 65-70.  The arguments are evaluated by the caller. *)
Definition control_gripper (left_gripper_position right_gripper_position : float) : M unit :=
  let left_gripper_position := np_clip left_gripper_position 0.002 0.037 in
  let right_gripper_position := np_clip right_gripper_position 0.002 0.037 in
  st <- get ;;
  call (SetCtrl [left_gripper_actuator_id (self st)] [left_gripper_position]) ;;
  call (SetCtrl [right_gripper_actuator_id (self st)] [right_gripper_position]).

(** [self.control_gripper(self.left_gripper_pos, self.right_gripper_pos)] *)
Definition control_gripper_call : M unit :=
  st <- get ;;
  control_gripper (left_gripper_pos (self st)) (right_gripper_pos (self st)).

(** Reading an attribute that [add_target_sites] has not created yet. *)
Definition attribute (name : string) (v : option nat) : M nat :=
  match v with Some id => ret id | None => raise (AttributeError name) end.

(** Lines 231-241. *)
Definition update_target_sites (target_l target_r : array3) (rot_l rot_r : SO3) : M unit :=
  st <- get ;;
  id_l <- attribute "target_site_id_l" (target_site_id_l (self st)) ;;
  call (SetSiteXpos id_l target_l) ;;
  call (SetSitePos id_l target_l) ;;
  id_r <- attribute "target_site_id_r" (target_site_id_r (self st)) ;;
  call (SetSiteXpos id_r target_r) ;;
  call (SetSitePos id_r target_r) ;;
  call (SetSiteXmat id_l rot_l) ;;
  call (SetSiteXmat id_r rot_r).

Definition update_target_sites_call : M unit :=
  st <- get ;;
  update_target_sites (target_l (self st)) (target_r (self st))
    (rot_l (self st)) (rot_r (self st)).

(** Lines 226-229: each site id is assigned as soon as its name has
    resolved, so a missing second name leaves the first id assigned. *)
Definition add_target_sites (model : MjModel) : M unit :=
  id_l <- lift (resolve (site model) "aloha_scene/target") ;;
  modify (fun st => with_self (set_target_site_id_l id_l (self st)) st) ;;
  id_r <- lift (resolve (site model) "aloha_scene/target2") ;;
  modify (fun st => with_self (set_target_site_id_r id_r (self st)) st) ;;
  update_target_sites_call.

(** Lines 185-186 and 175-179: build the pose, hand it to the task. *)
Definition retarget_left : M unit :=
  st <- get ;;
  let l_target_pose := from_rotation_and_translation (rot_l (self st)) (target_l (self st)) in
  modify (with_l_ee_task (set_target (l_ee_task st) l_target_pose)) ;;
  call (CallSetTarget (frame_name (l_ee_task st)) l_target_pose).

Definition retarget_right : M unit :=
  st <- get ;;
  let r_target_pose := from_rotation_and_translation (rot_r (self st)) (target_r (self st)) in
  modify (with_r_ee_task (set_target (r_ee_task st) r_target_pose)) ;;
  call (CallSetTarget (frame_name (r_ee_task st)) r_target_pose).

(** [self.targets_updated = False] *)
Definition clear_updated : M unit :=
  modify (fun st => with_self (set_targets_updated false (self st)) st).

(** A straight-line piece of the control thread, statement by statement,
    with the one test it makes. *)
Inductive prog :=
| Halt
| Do (c : M unit) (k : prog)
| Test (b : state -> bool) (k_true k_false : prog).

Fixpoint run_prog (p : prog) : M unit :=
  match p with
  | Halt => ret tt
  | Do c k => c ;; run_prog k
  | Test b k_true k_false =>
      st <- get ;; if b st then run_prog k_true else run_prog k_false
  end.

(** Lines 183-190: the head of a tick. *)
Definition refresh_prog : prog :=
  Do control_gripper_call
    (Test (fun st => targets_updated (self st))
       (Do retarget_left (Do update_target_sites_call (Do clear_updated Halt)))
       Halt).

Definition refresh : M unit := run_prog refresh_prog.

Section ControlLoop.

Variable solve_ik : ik_solver.
Variable L : locals.

(** Lines 193-200: the call is made, then it returns or raises. *)
Definition solve_left : M (list float) := fun st =>
  let st' := with_trace (trace st ++ [CallSolveIK]) st in
  match solve_ik (trace st) (left_configuration st) [l_ee_task st] rate_dt solver
          (limits L) damping with
  | inl e => Raised e (self st') (trace st')
  | inr v => Normal v st'
  end.

(** Lines 193-222: one pass of the [for] loop. *)
Definition inner_iteration : M unit :=
  left_vel <- solve_left ;;
  st <- get ;;
  let right_vel := zeros_like (dq (right_configuration st)) in
  lc <- lift (integrate_inplace (left_configuration st) left_vel rate_dt) ;;
  modify (with_left_configuration lc) ;;
  rc <- lift (integrate_inplace (right_configuration st) right_vel rate_dt) ;;
  modify (with_right_configuration rc) ;;
  call (SetQpos (left_relevant_qpos_indices L) (q lc)) ;;
  call (SetQpos (right_relevant_qpos_indices L) (q rc)) ;;
  call (SetQvel (left_relevant_qvel_indices L) (dq lc)) ;;
  call (SetQvel (right_relevant_qvel_indices L) (dq rc)) ;;
  call (SetCtrl (left_actuator_ids L) (q lc)) ;;
  call (SetCtrl (right_actuator_ids L) (q rc)) ;;
  control_gripper_call ;;
  call MjStep ;;
  call ViewerSync ;;
  call RateSleep.

(** Lines 192-222. *)
Definition inner_loop : M unit := for_range max_iters inner_iteration.

(** Lines 183-222: the body of the [while] loop. *)
Definition tick : M unit := refresh ;; inner_loop.

(** Lines 182-222.  [viewer.is_running()] answers [True] once for each
    element of the schedule and [False] after the last; an element lists
    the callbacks the listener thread ran since the previous test.  These
    are the executions in which the listener runs between two ticks;
    [while_running_threads] further down interleaves the two threads
    statement by statement. *)
Fixpoint while_running (sched : list (list input_event)) : M unit :=
  match sched with
  | [] => ret tt
  | evs :: rest =>
      modify (fun st => with_self (dispatch_all (self st) evs) st) ;;
      tick ;;
      while_running rest
  end.

End ControlLoop.

(** [with mujoco.viewer.launch_passive(...) as viewer:] closes the viewer
    when the block is left, normally or by an exception. *)
Definition with_viewer (body : M unit) : M unit := fun st =>
  match (call ViewerLaunch ;; body) st with
  | Normal a st' => call ViewerClose st'
  | Raised e s tr => Raised e s (tr ++ [ViewerClose])
  end.

(** Lines 170-222: the viewer block up to the end of the [while] loop. *)
Definition viewer_block (solve_ik : ik_solver) (model : MjModel) (L : locals)
    (sched : list (list input_event)) : M unit :=
  call DefaultFreeCamera ;;
  add_target_sites model ;;
  call MjForward ;;
  retarget_left ;;
  retarget_right ;;
  while_running solve_ik L sched.

(** Lines 167-224. *)
Definition run_loop (solve_ik : ik_solver) (model : MjModel) (L : locals)
    (sched : list (list input_event)) : M unit :=
  with_viewer (viewer_block solve_ik model L sched ;; call ListenerStop).

(** [AlohaMocapControl.run], entered with the controller object [s] and the
    calls [tr] made so far. *)
Definition run (solve_ik : ik_solver) (model : MjModel) (data : MjData)
    (sched : list (list input_event)) (s : AlohaMocapControl) (tr : list event)
    : outcome unit :=
  match setup model data with
  | inl e => Raised e s tr
  | inr (L, lc, rc, lt, rt) => run_loop solve_ik model L sched (mk_state s lc rc lt rt tr)
  end.

(** [AlohaMocapControl.__init__], lines 42-63: the attributes, the listener
    (started on line 58), then the two gripper actuators. *)
Definition __init__ (model : MjModel) : exn + AlohaMocapControl :=
  match resolve (actuator model) "aloha_scene/aloha_gripper_left/gripper_actuator" with
  | inl e => inl e
  | inr left_id =>
      match resolve (actuator model) "aloha_scene/aloha_gripper_right/gripper_actuator" with
      | inl e => inl e
      | inr right_id => inr (init_attributes left_id right_id)
      end
  end.

(** ** Two threads

    The listener thread runs the callbacks while the control thread runs
    the loop.  Python switches threads between statements (and within
    them); the interleavings in which a switch falls between two statements
    are modelled here.  A schedule names the thread that makes the next
    step; when it is used up the callback finishes, then the control
    thread. *)
Inductive thread := ListenerThread | ControlThread.

Fixpoint interleave (sched : list thread) (callback : list stmt) (control : prog) : M unit :=
  match sched with
  | [] =>
      modify (fun st => with_self (exec callback (self st)) st) ;; run_prog control
  | ListenerThread :: sched' =>
      match callback with
      | [] => interleave sched' [] control
      | c :: callback' =>
          modify (fun st => with_self (c (self st)) st) ;;
          interleave sched' callback' control
      end
  | ControlThread :: sched' =>
      match control with
      | Halt => interleave sched' callback Halt
      | Do c k => c ;; interleave sched' callback k
      | Test b k_true k_false =>
          st <- get ;; interleave sched' callback (if b st then k_true else k_false)
      end
  end.

(** The poses handed to a task by [set_target], oldest first. *)
Definition poses_set (tr : list event) : list SE3 :=
  omap (fun e => match e with CallSetTarget _ pose => Some pose | _ => None end) tr.

(** The target pose of a controller object that no callback is halfway
    through changing. *)
Definition pose_of (s : AlohaMocapControl) : SE3 :=
  from_rotation_and_translation (rot_l s) (target_l s).

(** ** Predicates of the claims *)

(** The configured box and gripper range, as [__init__] sets them. *)
Definition in_box (s : AlohaMocapControl) : bool :=
  within (-0.4) 0.4 (getitem (target_l s) i0)
  && within (-0.4) 0.4 (getitem (target_l s) i1)
  && within 0.8 1.4 (getitem (target_l s) i2)
  && within 0.002 0.037 (left_gripper_pos s)
  && within 0.002 0.037 (right_gripper_pos s).

(** The bounds and the step are the ones [__init__] assigned. *)
Definition configured (s : AlohaMocapControl) : Prop :=
  x_min s = -0.4 /\ x_max s = 0.4 /\
  y_min s = -0.4 /\ y_max s = 0.4 /\
  z_min s = 0.8 /\ z_max s = 1.4 /\
  delta s = 0.01.

Arguments np_clip : simpl never.
Arguments within : simpl never.

(** The five scalars a callback can move, with the bounds the callbacks
    clamp them to and the event that moves each one up or down. *)
Inductive coordinate := TargetX | TargetY | TargetZ | LeftGripper | RightGripper.

Definition value (c : coordinate) (s : AlohaMocapControl) : float :=
  match c with
  | TargetX => getitem (target_l s) i0
  | TargetY => getitem (target_l s) i1
  | TargetZ => getitem (target_l s) i2
  | LeftGripper => left_gripper_pos s
  | RightGripper => right_gripper_pos s
  end.

Definition lower (c : coordinate) (s : AlohaMocapControl) : float :=
  match c with
  | TargetX => x_min s
  | TargetY => y_min s
  | TargetZ => z_min s
  | LeftGripper | RightGripper => 0.002
  end.

Definition upper (c : coordinate) (s : AlohaMocapControl) : float :=
  match c with
  | TargetX => x_max s
  | TargetY => y_max s
  | TargetZ => z_max s
  | LeftGripper | RightGripper => 0.037
  end.

Inductive direction := Up | Down.

(** The event that moves a coordinate in a direction. *)
Definition event_for (c : coordinate) (dir : direction) : input_event :=
  match c, dir with
  | (TargetX | LeftGripper | RightGripper), Up => Scroll 0 0 1 0
  | (TargetX | LeftGripper | RightGripper), Down => Scroll 0 0 (-1) 0
  | TargetY, Up => Scroll 0 0 0 (-1)
  | TargetY, Down => Scroll 0 0 0 1
  | TargetZ, Up => Click 0 0 mouse.left true
  | TargetZ, Down => Click 0 0 mouse.right true
  end.

(** The update of coordinate [c] by a step of size [d]: the callback run on
    the controller whose [delta] is [d]. *)
Definition update (c : coordinate) (dir : direction) (d : float) (s : AlohaMocapControl)
    : AlohaMocapControl :=
  dispatch (set_delta d s) (event_for c dir).

(** The bound a direction leads to, and whether a step of size [d] from the
    current value goes past it. *)
Definition bound (c : coordinate) (dir : direction) (s : AlohaMocapControl) : float :=
  match dir with Up => upper c s | Down => lower c s end.

Definition overshoots (c : coordinate) (dir : direction) (d : float) (s : AlohaMocapControl)
    : bool :=
  match dir with
  | Up => upper c s <? value c s + d
  | Down => value c s - d <? lower c s
  end.

(** ** Shapes of executions *)

(** The configuration after [integrate_inplace] succeeded. *)
Definition integrated (c : ReducedConfiguration) (velocity : list float) (dt : float)
    : ReducedConfiguration :=
  mk_ReducedConfiguration (relevant_qpos_indices c) (relevant_qvel_indices c)
    (zip_with (fun qi vi => qi + vi * dt) (q c) velocity) velocity.

(** The calls of one pass of the [for] loop in which the solver returned
    [left_vel], in order. *)
Definition iteration_calls (L : locals) (st : state) (left_vel : list float) : list event :=
  let lc := integrated (left_configuration st) left_vel rate_dt in
  let rc := integrated (right_configuration st)
              (zeros_like (dq (right_configuration st))) rate_dt in
  [CallSolveIK;
   SetQpos (left_relevant_qpos_indices L) (q lc);
   SetQpos (right_relevant_qpos_indices L) (q rc);
   SetQvel (left_relevant_qvel_indices L) (dq lc);
   SetQvel (right_relevant_qvel_indices L) (dq rc);
   SetCtrl (left_actuator_ids L) (q lc);
   SetCtrl (right_actuator_ids L) (q rc);
   SetCtrl [left_gripper_actuator_id (self st)]
     [np_clip (left_gripper_pos (self st)) 0.002 0.037];
   SetCtrl [right_gripper_actuator_id (self st)]
     [np_clip (right_gripper_pos (self st)) 0.002 0.037];
   MjStep; ViewerSync; RateSleep].

(** The state after such a pass. *)
Definition iteration_result (L : locals) (st : state) (left_vel : list float) : state :=
  mk_state (self st)
    (integrated (left_configuration st) left_vel rate_dt)
    (integrated (right_configuration st) (zeros_like (dq (right_configuration st))) rate_dt)
    (l_ee_task st) (r_ee_task st)
    (trace st ++ iteration_calls L st left_vel).

(** The kinds of the calls of one pass, in order. *)
Definition iteration_kinds : list kind :=
  [KSolve; KQpos; KQpos; KQvel; KQvel; KCtrl; KCtrl; KCtrl; KCtrl; KStep; KSync; KSleep].

(** [q] and [dq] have the length of the index lists (spec, section 3). *)
Definition consistent (c : ReducedConfiguration) : Prop :=
  length (q c) = length (relevant_qvel_indices c) /\
  length (dq c) = length (q c).

(** On the calls the loop makes, the solver returns a velocity for each
    degree of freedom of the configuration. *)
Definition succeeds (solve_ik : ik_solver) (L : locals) : Prop :=
  forall h c tasks, exists v,
    solve_ik h c tasks rate_dt solver (limits L) damping = inr v /\
    length v = length (q c).

(** A concrete scene: twelve arm joints and actuators, two gripper
    actuators, the two target sites. *)
Definition demo_names : list string :=
  map (fun n => "aloha_scene/left_" +:+ n) _JOINT_NAMES
  ++ map (fun n => "aloha_scene/right_" +:+ n) _JOINT_NAMES.

Definition demo_model : MjModel :=
  {| joint := list_to_map (imap (fun i n => (n, i)) demo_names);
     actuator :=
       list_to_map
         (imap (fun i n => (n, i)) demo_names
          ++ [("aloha_scene/aloha_gripper_left/gripper_actuator", 12%nat);
              ("aloha_scene/aloha_gripper_right/gripper_actuator", 13%nat)]);
     site := list_to_map [("aloha_scene/target", 0%nat); ("aloha_scene/target2", 1%nat)];
     jnt_qposadr := fun id => id;
     jnt_dofadr := fun id => id |}.

Definition demo_data : MjData := {| qpos := fun _ => 0; qvel := fun _ => 0 |}.

(** A solver that reports no solution on every call. *)
Definition failing_solver : ik_solver := fun _ _ _ _ _ _ _ => inl NoSolutionFound.

(** A solver that keeps the arm at rest; it refuses a negative limit. *)
Definition limit_nonneg (l : Limit) : bool :=
  match l with
  | VelocityLimit vl => forallb (fun kv => 0 <=? kv.2) (map_to_list vl)
  | CollisionAvoidanceLimit _ _ _ => true
  end.

Definition resting_solver : ik_solver := fun _ c _ _ _ lims _ =>
  if forallb limit_nonneg lims then inr (zeros_like (q c)) else inl NoSolutionFound.

(** The state [run] enters the viewer block with, in the concrete scene. *)
Definition demo_self : AlohaMocapControl := init_attributes 12 13.

Definition demo_locals : locals :=
  match setup demo_model demo_data with
  | inr (L, _, _, _, _) => L
  | inl _ => mk_locals [] [] ∅ [] [] [] [] [] [] [] [] []
  end.

Definition demo_state : state :=
  match setup demo_model demo_data with
  | inr (_, lc, rc, lt, rt) =>
      mk_state (set_target_site_ids 0 1 demo_self) lc rc lt rt [ListenerStart]
  | inl _ => mk_state demo_self (mk_ReducedConfiguration [] [] [] [])
               (mk_ReducedConfiguration [] [] [] [])
               (mk_FrameTask "" "" 0 0 0 None) (mk_FrameTask "" "" 0 0 0 None) []
  end.

(** The calls of the head of a tick (lines 183-190), and the state after
    it, when the two site ids exist. *)
Definition gripper_calls (s : AlohaMocapControl) : list event :=
  [SetCtrl [left_gripper_actuator_id s] [np_clip (left_gripper_pos s) 0.002 0.037];
   SetCtrl [right_gripper_actuator_id s] [np_clip (right_gripper_pos s) 0.002 0.037]].

Definition site_calls (id_l id_r : nat) (s : AlohaMocapControl) : list event :=
  [SetSiteXpos id_l (target_l s); SetSitePos id_l (target_l s);
   SetSiteXpos id_r (target_r s); SetSitePos id_r (target_r s);
   SetSiteXmat id_l (rot_l s); SetSiteXmat id_r (rot_r s)].

Definition refresh_calls (id_l id_r : nat) (st : state) : list event :=
  gripper_calls (self st)
  ++ (if targets_updated (self st)
      then CallSetTarget (frame_name (l_ee_task st)) (pose_of (self st))
           :: site_calls id_l id_r (self st)
      else []).

Definition refresh_result (id_l id_r : nat) (st : state) : state :=
  mk_state
    (if targets_updated (self st) then set_targets_updated false (self st) else self st)
    (left_configuration st) (right_configuration st)
    (if targets_updated (self st) then set_target (l_ee_task st) (pose_of (self st))
     else l_ee_task st)
    (r_ee_task st)
    (trace st ++ refresh_calls id_l id_r st).

(** How often a kind of call occurs. *)
Definition kind_eqb (a b : kind) : bool :=
  match a, b with
  | KListener, KListener | KViewer, KViewer | KCamera, KCamera | KForward, KForward
  | KStep, KStep | KSync, KSync | KSleep, KSleep | KSolve, KSolve
  | KSetTarget, KSetTarget | KCtrl, KCtrl | KQpos, KQpos | KQvel, KQvel
  | KSite, KSite => true
  | _, _ => false
  end.

Definition occurrences (k : kind) (tr : list event) : nat :=
  length (List.filter (fun e => kind_eqb k (kind_of e)) tr).

(** A computation keeps an invariant of the state and only makes calls
    that satisfy [P], whether it completes or raises. *)
Definition preserves {A} (I : state -> Prop) (P : event -> Prop) (c : M A) : Prop :=
  forall st, I st ->
    (exists new, trace_of (c st) = trace st ++ new /\ Forall P new) /\
    (forall a st', c st = Normal a st' -> I st').

(** An invariant that does not read the history of calls. *)
Definition ignores_trace (I : state -> Prop) : Prop :=
  forall st tr, I st -> I (with_trace tr st).

(** [mink.VelocityLimit]: the degree of freedom at address [dof] is given
    the limit [m] by a limit of the list. *)
Definition dof_velocity_limit (model : MjModel) (lims : list Limit) (dof : nat) (m : float)
    : Prop :=
  exists vl name id,
    In (VelocityLimit vl) lims /\ vl !! name = Some m /\
    joint model !! name = Some id /\ jnt_dofadr model id = dof.

(** The contract of the solver (spec, section 4.4): a velocity it returns
    violates no velocity limit it was given. *)
Definition honours_velocity_limits (model : MjModel) (solve_ik : ik_solver) : Prop :=
  forall h c tasks dt name lims d v,
    solve_ik h c tasks dt name lims d = inr v ->
    forall k dof vk m,
      relevant_qvel_indices c !! k = Some dof -> v !! k = Some vk ->
      dof_velocity_limit model lims dof m ->
      (abs vk <=? m) = true.


(** Every statement of a program satisfies [ok]. *)
Fixpoint prog_all (ok : M unit -> Prop) (p : prog) : Prop :=
  match p with
  | Halt => True
  | Do c k => ok c /\ prog_all ok k
  | Test _ k_true k_false => prog_all ok k_true /\ prog_all ok k_false
  end.

(** An invariant that reads the two configurations only. *)
Definition on_configurations (J : ReducedConfiguration -> ReducedConfiguration -> Prop)
    (st : state) : Prop :=
  J (left_configuration st) (right_configuration st).

(** A property of calls that can only fail on a velocity write or on a
    call to the listener. *)
Definition lenient (P : event -> Prop) : Prop :=
  forall e, kind_of e <> KQvel -> kind_of e <> KListener -> P e.

(** The invariant of the configurations that the velocity bound rests on:
    the left configuration still has the index list [run] gave it, and
    [q] has one entry per index. *)
Definition left_indexed (L : locals) (lc rc : ReducedConfiguration) : Prop :=
  relevant_qvel_indices lc = left_relevant_qvel_indices L /\
  length (q lc) = length (relevant_qvel_indices lc).

(** Every degree of freedom of the left arm has the limit [np.pi]. *)
Definition left_arm_limited (model : MjModel) (L : locals) : Prop :=
  Forall (fun dof => dof_velocity_limit model (limits L) dof np_pi)
    (left_relevant_qvel_indices L).

(** ** The claims that the code does not meet, as stated *)

(** The calls an execution added to those made before it. *)
Definition new_calls {A} (st : state) (o : outcome A) : list event :=
  drop (length (trace st)) (trace_of o).

(** Zero-velocity fallback: a pass in which the solver raises still runs to
    its end, with the zero vector as the left arm's velocity. *)
Definition zero_velocity_fallback (solve_ik : ik_solver) (L : locals) (st : state) : Prop :=
  forall e,
    solve_ik (trace st) (left_configuration st) [l_ee_task st] rate_dt solver
      (limits L) damping = inl e ->
    exists st',
      inner_iteration solve_ik L st = Normal tt st' /\
      dq (left_configuration st') = zeros_like (dq (left_configuration st)).

(** Listener stopped on every exit path. *)
Definition listener_stopped_on_exit (solve_ik : ik_solver) (model : MjModel) (data : MjData)
    (sched : list (list input_event)) (s : AlohaMocapControl) (tr : list event) : Prop :=
  In ListenerStop (trace_of (run solve_ik model data sched s tr)).

(** Consistent snapshot: whatever the interleaving of a callback with the
    head of a tick, a pose the tick hands to the task is the target pose
    either before the callback or after it. *)
Definition consistent_snapshot (sched : list thread) (ev : input_event) (st : state) : Prop :=
  forall pose,
    In pose (poses_set (new_calls st (interleave sched (callback_body ev) refresh_prog st))) ->
    pose = pose_of (self st) \/ pose = pose_of (dispatch (self st) ev).

(** The controller after enough scrolls to the right to reach [x_max], and
    the state of a tick that starts there. *)
Definition demo_self_at_x_max : AlohaMocapControl :=
  dispatch_all (set_target_site_ids 0 1 demo_self) (repeat (Scroll 0 0 1 0) 70).

Definition demo_state_at_x_max : state := with_self demo_self_at_x_max demo_state.

(** The listener makes the first assignment of a callback, the control
    thread then runs the head of its tick, the callback finishes last. *)
Definition torn_schedule : list thread :=
  ListenerThread :: repeat ControlThread 5.

(** The pose with the target X one step beyond [x_max]. *)
Definition pose_beyond_x_max : SE3 :=
  from_rotation_and_translation SO3_identity (mk_array3 (0.4 + 0.01) 0.0 1.1).

(** The X component of a pose. *)
Definition pose_x (p : SE3) : float := nth 4 (wxyz_xyz p) nan.

(** The state after as many passes as [velocities] has entries, the solver
    having returned these velocities in turn. *)
Fixpoint passes (L : locals) (st : state) (velocities : list (list float)) : state :=
  match velocities with
  | [] => st
  | v :: rest => passes L (iteration_result L st v) rest
  end.

(** A solver that drives every joint at the largest speed [np.pi] when all
    the limits it is given allow that, and reports no solution otherwise. *)
Definition limit_allows_pi (l : Limit) : bool :=
  match l with
  | VelocityLimit vl => forallb (fun kv => np_pi <=? kv.2) (map_to_list vl)
  | CollisionAvoidanceLimit _ _ _ => true
  end.

Definition saturating_solver : ik_solver := fun _ c _ _ _ lims _ =>
  if forallb limit_allows_pi lims then inr (map (fun _ => np_pi) (q c))
  else inl NoSolutionFound.

(** What a tick needs in order to run to its end: configurations whose
    vectors have the right lengths, and the two site ids. *)
Definition ready (id_l id_r : nat) (st : state) : Prop :=
  consistent (left_configuration st) /\ consistent (right_configuration st) /\
  target_site_id_l (self st) = Some id_l /\ target_site_id_r (self st) = Some id_r.

(** A solver that keeps the arm at rest on its first [n] calls and reports
    no solution from then on. *)
Definition fails_after (n : nat) : ik_solver := fun h c _ _ _ _ _ =>
  if (occurrences KSolve h <? n)%nat then inr (zeros_like (q c)) else inl NoSolutionFound.

(** The state of a tick that starts at [demo_state], after two passes of
    the [for] loop with the arm at rest. *)
Definition demo_state_after_two : state :=
  passes demo_locals demo_state
    (repeat (zeros_like (q (left_configuration demo_state))) 2).




(** ** Further predicates, for the properties beyond the claims *)

(** What a callback reads of an event: the signs of the scroll deltas,
    the button of a press.  A release is read by no callback; a button
    other than left and right acts like the middle one. *)
Definition essential (ev : input_event) : option input_event :=
  match ev with
  | Scroll _ _ dx dy => Some (Scroll 0 0 (Z.sgn dx) (Z.sgn dy))
  | Click _ _ button true =>
      Some (Click 0 0 (match button with
                       | mouse.left => mouse.left
                       | mouse.right => mouse.right
                       | _ => mouse.middle
                       end) true)
  | Click _ _ _ false => None
  end.

(** Whether an event steps a coordinate. *)
Definition steps (ev : input_event) (c : coordinate) : bool :=
  match ev, c with
  | Scroll _ _ dx _, (TargetX | LeftGripper | RightGripper) => negb (dx =? 0)%Z
  | Scroll _ _ _ dy, TargetY => negb (dy =? 0)%Z
  | Scroll _ _ _ _, TargetZ => false
  | Click _ _ (mouse.left | mouse.right) true, TargetZ => true
  | Click _ _ _ _, _ => false
  end.

(** A binary64 value that is finite and not a zero. *)
Definition nonzero_finite (x : float) : bool :=
  match Prim2SF x with S754_finite _ _ _ => true | _ => false end.

(** The joint names [run] resolves, in the joint table and in the actuator
    table: those of the left arm, then those of the right arm. *)
Definition arm_joint_names : list string :=
  map (fun n => "aloha_scene/left_" +:+ n) _JOINT_NAMES
  ++ map (fun n => "aloha_scene/right_" +:+ n) _JOINT_NAMES.

(** A model in which no name resolves. *)
Definition empty_model : MjModel := mk_MjModel ∅ ∅ ∅ (fun id => id) (fun id => id).

(** A call that is neither to the viewer's launch or close nor to the
    listener. *)
Definition inside_block (e : event) : Prop :=
  kind_of e <> KViewer /\ kind_of e <> KListener.

(** The solver raises [e] on some call. *)
Definition solver_raises (solve_ik : ik_solver) (e : exn) : Prop :=
  exists h c tasks dt s lims d, solve_ik h c tasks dt s lims d = inl e.

(** An exception that leaves a pass of the [for] loop: what the solver
    raised, or the [ValueError] of [integrate_inplace]. *)
Definition in_pass (solve_ik : ik_solver) (e : exn) : Prop :=
  e = ValueError \/ solver_raises solve_ik e.

(** [add_target_sites] has created the two site attributes. *)
Definition sites_added (st : state) : Prop :=
  is_Some (target_site_id_l (self st)) /\ is_Some (target_site_id_r (self st)).

(** Calls that hold [k] solves, physics steps, viewer syncs and sleeps. *)
Definition counts (k : nat) (new : list event) : Prop :=
  occurrences KSolve new = k /\ occurrences KStep new = k /\
  occurrences KSync new = k /\ occurrences KSleep new = k.

(** The names [run] resolves: the arm joints, then the two target sites. *)
Definition run_names : list string :=
  arm_joint_names ++ ["aloha_scene/target"; "aloha_scene/target2"].

(** The exception of an execution that raised. *)
Definition raised {A} (o : outcome A) : option exn :=
  match o with Normal _ _ => None | Raised e _ _ => Some e end.

(** The calls made up to an exception [e] that left a pass of the [for]
    loop: as many syncs and sleeps as physics steps, and one more solve. *)
Definition aborted (solve_ik : ik_solver) (e : exn) (new : list event) : Prop :=
  in_pass solve_ik e /\
  occurrences KSync new = occurrences KStep new /\
  occurrences KSleep new = occurrences KStep new /\
  occurrences KSolve new = S (occurrences KStep new).

(** The calls made up to the [KeyError] of a name that did not resolve:
    no solve, step, sync or sleep. *)
Definition unresolved (e : exn) (new : list event) : Prop :=
  (exists name, In name run_names /\ e = KeyError name) /\ counts 0 new.

(** A computation that, once the site attributes exist, either completes
    with [k] more solves, steps, syncs and sleeps, or raises as [aborted]
    describes. *)
Definition exits {A} (solve_ik : ik_solver) (k : nat) (c : M A) : Prop :=
  forall st, sites_added st ->
    match c st with
    | Normal _ st' => sites_added st' /\ exists new, trace st' = trace st ++ new /\ counts k new
    | Raised e _ tr => exists new, tr = trace st ++ new /\ aborted solve_ik e new
    end.

(** What the loop relies on: the site attributes exist, and each
    configuration has vectors of the length of its index list. *)
Definition loop_ready (st : state) : Prop :=
  sites_added st /\
  consistent (left_configuration st) /\ consistent (right_configuration st).

(** The exception [e] arose at the last call of [tr], a call to the
    solver: the solver raised it there, or it returned a velocity of the
    wrong length, which [integrate_inplace] refused with [ValueError]. *)
Definition at_solver (solve_ik : ik_solver) (e : exn) (tr : list event) : Prop :=
  exists h c tasks lims,
    tr = h ++ [CallSolveIK] /\
    (solve_ik h c tasks rate_dt solver lims damping = inl e \/
     (e = ValueError /\
      exists v, solve_ik h c tasks rate_dt solver lims damping = inr v /\
                length v <> length (q c))).

(** The exception [e] is the [KeyError] of a name that [run] looks up and
    the model lacks: an arm joint in the joint or actuator table, a target
    site in the site table. *)
Definition at_lookup (model : MjModel) (e : exn) : Prop :=
  exists name,
    e = KeyError name /\
    ((In name arm_joint_names /\
      (joint model !! name = None \/ actuator model !! name = None)) \/
     (In name ["aloha_scene/target"; "aloha_scene/target2"] /\
      site model !! name = None)).

(** A computation that, from a state the loop can rely on, completes in
    such a state or raises at a call to the solver. *)
Definition fails_at_solver {A} (solve_ik : ik_solver) (c : M A) : Prop :=
  forall st, loop_ready st ->
    match c st with
    | Normal _ st' => loop_ready st'
    | Raised e _ tr => at_solver solve_ik e tr
    end.

(** * [mink_default.py]

    The script drives both arms with one [mink.Configuration] and the two
    tasks, towards the poses of two mocap bodies that the operator drags in
    the viewer.  Embedded here is its [while] loop, lines 100-134, over the
    names the script binds before it. *)
Module mink_default.

(** Literals of the script, lines 86-89 and 111. *)
Definition solver : string := "quadprog".
Definition pos_threshold : float := 1e-4.
Definition ori_threshold : float := 1e-4.
Definition max_iters : nat := 20.

(** What the loop uses of mink and NumPy.  [mink.Configuration] is kept
    abstract: [q] reads its position vector, [integrate_inplace] is
    MuJoCo's integration of a velocity.  [solve_ik] is, as above, given
    the history of calls in place of the MuJoCo state.  [compute_error] is
    [FrameTask.compute_error], a function of the task and the
    configuration; [norm] is [np.linalg.norm]. *)
Record collaborators (Configuration Limits : Type) := mk_collaborators {
  q : Configuration -> nat -> float;
  solve_ik : list event -> Configuration -> list FrameTask -> float -> string -> Limits ->
             float -> exn + list float;
  integrate_inplace : Configuration -> list float -> float -> exn + Configuration;
  compute_error : FrameTask -> Configuration -> exn + list float;
  norm : list float -> float
}.
Arguments q {Configuration Limits}.
Arguments solve_ik {Configuration Limits}.
Arguments integrate_inplace {Configuration Limits}.
Arguments compute_error {Configuration Limits}.
Arguments norm {Configuration Limits}.

(** The same collaborators with another error function. *)
Definition with_compute_error {Configuration Limits}
    (f : FrameTask -> Configuration -> exn + list float)
    (lib : collaborators Configuration Limits) : collaborators Configuration Limits :=
  mk_collaborators Configuration Limits (q lib) (solve_ik lib) (integrate_inplace lib) f
    (norm lib).

(** The objects the loop mutates, and the history of calls.  The list
    [tasks] of the script holds the two task objects themselves. *)
Record state (Configuration : Type) := mk_state {
  configuration : Configuration;
  l_ee_task : FrameTask;
  r_ee_task : FrameTask;
  trace : list event
}.
Arguments mk_state {Configuration}.
Arguments configuration {Configuration}.
Arguments l_ee_task {Configuration}.
Arguments r_ee_task {Configuration}.
Arguments trace {Configuration}.

(** A statement completes with a value and a new state, or raises; the
    exception leaves the script with the calls already made. *)
Inductive result (Configuration A : Type) :=
| Done (a : A) (st : state Configuration)
| Failed (e : exn) (tr : list event).
Arguments Done {Configuration A}.
Arguments Failed {Configuration A}.

Definition calls {Configuration A} (r : result Configuration A) : list event :=
  match r with Done _ st => trace st | Failed _ tr => tr end.

Section Script.

Context {Configuration Limits : Type}.
Variable lib : collaborators Configuration Limits.

(** Bound before the loop, lines 38-39 and 78-82. *)
Variable dof_ids actuator_ids : list nat.
Variable limits : Limits.

(** Lines 116-117: an error within both thresholds. *)
Definition achieved (err : list float) : bool :=
  (norm lib (take 3 err) <=? pos_threshold) && (norm lib (drop 3 err) <=? ori_threshold).

(** Lines 105-128: one pass of the [for] loop; the value tells whether the
    pass ended in [break].  On line 118 [r_err] is the error of
    [l_ee_task], as on line 115. *)
Definition pass (st : state Configuration) : result Configuration bool :=
  let tr := trace st ++ [CallSolveIK] in
  match solve_ik lib (trace st) (configuration st) [l_ee_task st; r_ee_task st] rate_dt solver
          limits 1e-3 with
  | inl e => Failed e tr
  | inr vel =>
  match integrate_inplace lib (configuration st) vel rate_dt with
  | inl e => Failed e tr
  | inr c =>
  match compute_error lib (l_ee_task st) c with
  | inl e => Failed e tr
  | inr l_err =>
      let l_pos_achieved := norm lib (take 3 l_err) <=? pos_threshold in
      let l_ori_achieved := norm lib (drop 3 l_err) <=? ori_threshold in
      match compute_error lib (l_ee_task st) c with
      | inl e => Failed e tr
      | inr r_err =>
          let r_pos_achieved := norm lib (take 3 r_err) <=? pos_threshold in
          let r_ori_achieved := norm lib (drop 3 r_err) <=? ori_threshold in
          Done (l_pos_achieved && l_ori_achieved && r_pos_achieved && r_ori_achieved)
            (mk_state c (l_ee_task st) (r_ee_task st) tr)
      end
  end end end.

(** Lines 104-128: [for i in range(n)] with its [break]. *)
Fixpoint for_range (n : nat) (st : state Configuration) : result Configuration unit :=
  match n with
  | O => Done tt st
  | S n' =>
      match pass st with
      | Failed e tr => Failed e tr
      | Done true st' => Done tt st'
      | Done false st' => for_range n' st'
      end
  end.

(** Lines 101-134: the body of the [while] loop.  [l_pose] and [r_pose]
    are what [mink.SE3.from_mocap_name] answers for the two mocap bodies
    on this tick. *)
Definition tick (l_pose r_pose : exn + SE3) (st : state Configuration)
    : result Configuration unit :=
  match l_pose with
  | inl e => Failed e (trace st)
  | inr l_pose =>
  let l_task := set_target (l_ee_task st) l_pose in
  let tr1 := trace st ++ [CallSetTarget (frame_name (l_ee_task st)) l_pose] in
  match r_pose with
  | inl e => Failed e tr1
  | inr r_pose =>
  let r_task := set_target (r_ee_task st) r_pose in
  let tr2 := tr1 ++ [CallSetTarget (frame_name (r_ee_task st)) r_pose] in
  match for_range max_iters (mk_state (configuration st) l_task r_task tr2) with
  | Failed e tr => Failed e tr
  | Done _ st' =>
      Done tt
        (mk_state (configuration st') (l_ee_task st') (r_ee_task st')
           (trace st' ++ [SetCtrl actuator_ids (map (q lib (configuration st')) dof_ids);
                          MjStep; ViewerSync; RateSleep]))
  end end end.

(** Lines 100-134.  [viewer.is_running()] answers [True] once for each
    element of the schedule and [False] after the last; an element holds
    the poses of the two mocap bodies on that tick. *)
Fixpoint while_running (sched : list ((exn + SE3) * (exn + SE3))) (st : state Configuration)
    : result Configuration unit :=
  match sched with
  | [] => Done tt st
  | (l_pose, r_pose) :: rest =>
      match tick l_pose r_pose st with
      | Failed e tr => Failed e tr
      | Done _ st' => while_running rest st'
      end
  end.

(** The left task is within both thresholds at a configuration. *)
Definition left_achieved (st : state Configuration) : bool :=
  match compute_error lib (l_ee_task st) (configuration st) with
  | inl _ => false
  | inr err => achieved err
  end.

End Script.

(** A scene for the examples: the configuration is the number of passes
    integrated so far, and the left error falls within the thresholds at
    the third. *)
Definition demo_lib : collaborators nat unit :=
  {| q := fun c _ => 0;
     solve_ik := fun _ _ _ _ _ _ _ => inr [];
     integrate_inplace := fun c _ _ => inr (S c);
     compute_error := fun t c =>
       if String.eqb (frame_name t) "left_gripper"
       then inr (if (3 <=? c)%nat then [0; 0; 0; 0; 0; 0] else [1; 0; 0; 0; 0; 0])
       else inl NoSolutionFound;
     norm := fun v => match v with x :: _ => x | [] => 0 end |}.

Definition demo_state : state nat :=
  mk_state 0%nat
    (mk_FrameTask "left_gripper" "site" 1.0 1.0 1.0 None)
    (mk_FrameTask "right_gripper" "site" 1.0 1.0 1.0 None) [].

Definition demo_pose : SE3 := mk_SE3 [1; 0; 0; 0; 0; 0; 1].

(** The state after one tick from [demo_state]. *)
Definition demo_after : state nat :=
  match tick demo_lib [0%nat] [7%nat] tt (inr demo_pose) (inr demo_pose) demo_state with
  | Done _ st => st
  | Failed _ _ => demo_state
  end.

(** An error function that differs from the one of [demo_lib] on the
    right task only. *)
Definition demo_other_error (t : FrameTask) (c : nat) : exn + list float :=
  if String.eqb (frame_name t) "left_gripper" then compute_error demo_lib t c
  else inr [0; 0; 0; 0; 0; 0].

End mink_default.

(** ** The loop with the listener running beside it

    [while_running] above runs the callbacks between two ticks.  Here the
    listener thread and the control thread are interleaved by a schedule,
    as in [interleave]: a switch can fall between any two statements of a
    callback and any two statements of the loop. *)

(** One straight-line piece after another. *)
Fixpoint prog_app (p q : prog) : prog :=
  match p with
  | Halt => q
  | Do c k => Do c (prog_app k q)
  | Test b k_true k_false => Test b (prog_app k_true q) (prog_app k_false q)
  end.

(** Lines 192-222: [n] passes of the [for] loop. *)
Fixpoint passes_prog (solve_ik : ik_solver) (L : locals) (n : nat) : prog :=
  match n with
  | O => Halt
  | S n' => Do (inner_iteration solve_ik L) (passes_prog solve_ik L n')
  end.

(** Lines 183-222: the body of the [while] loop. *)
Definition tick_prog (solve_ik : ik_solver) (L : locals) : prog :=
  prog_app refresh_prog (passes_prog solve_ik L max_iters).

(** Lines 182-222, when [viewer.is_running()] answers [True] [n] times. *)
Fixpoint loop_prog (solve_ik : ik_solver) (L : locals) (n : nat) : prog :=
  match n with
  | O => Halt
  | S n' => prog_app (tick_prog solve_ik L) (loop_prog solve_ik L n')
  end.

(** The listener runs the callbacks of [evs], one after the other, while
    the control thread runs [n] ticks. *)
Definition while_running_threads (solve_ik : ik_solver) (L : locals) (sched : list thread)
    (evs : list input_event) (n : nat) : M unit :=
  interleave sched (concat (map callback_body evs)) (loop_prog solve_ik L n).

(** A statement of a callback. *)
Definition callback_stmt (c : stmt) : Prop := exists ev, In c (callback_body ev).

(** The step is finite and neither gripper position is a NaN, as after
    [__init__]. *)
Definition gripper_sane (s : AlohaMocapControl) : Prop :=
  F64.finite (delta s) = true /\
  is_nan (left_gripper_pos s) = false /\ is_nan (right_gripper_pos s) = false.

(** A command written to a single actuator (the gripper commands; the arm
    commands go to six actuators at once) lies in the gripper range. *)
Definition gripper_in_range (e : event) : Prop :=
  match e with
  | SetCtrl [_] vals => Forall (fun v => within 0.002 0.037 v = true) vals
  | _ => True
  end.

(** The arm commands go to one actuator for each joint name. *)
Definition six_actuators (L : locals) : Prop :=
  length (left_actuator_ids L) = length _JOINT_NAMES /\
  length (right_actuator_ids L) = length _JOINT_NAMES.

(** * Facts about binary64 *)

Lemma SFcompare_refl s : F64.sf_is_nan s = false -> SFcompare s s = Some Eq.
Proof.
  destruct s as [[]|[]| |[] m e]; simpl; try discriminate; intros _; try reflexivity.
  all: rewrite Z.compare_refl, Pos.compare_cont_refl; reflexivity.
Qed.

Lemma is_nan_spec x : is_nan x = F64.sf_is_nan (Prim2SF x).
Proof.
  unfold is_nan. rewrite FloatAxioms.eqb_spec. unfold SFeqb.
  destruct (F64.sf_is_nan (Prim2SF x)) eqn:E.
  - destruct (Prim2SF x); try discriminate. reflexivity.
  - rewrite SFcompare_refl by exact E. reflexivity.
Qed.

Lemma ltb_leb a b : (a <? b) = true -> (a <=? b) = true.
Proof.
  rewrite FloatAxioms.ltb_spec, FloatAxioms.leb_spec. unfold SFltb, SFleb.
  destruct (SFcompare _ _) as [[]|]; congruence.
Qed.

Lemma leb_not_nan_l a b : (a <=? b) = true -> is_nan a = false.
Proof.
  rewrite FloatAxioms.leb_spec, is_nan_spec. unfold SFleb.
  destruct (Prim2SF a); simpl; congruence.
Qed.

Lemma leb_not_nan_r a b : (a <=? b) = true -> is_nan b = false.
Proof.
  rewrite FloatAxioms.leb_spec, is_nan_spec. unfold SFleb.
  destruct (Prim2SF a), (Prim2SF b); simpl; congruence.
Qed.

Lemma ltb_not_nan_l a b : (a <? b) = true -> is_nan a = false.
Proof. intros H. eapply leb_not_nan_l, ltb_leb, H. Qed.

Lemma ltb_not_nan_r a b : (a <? b) = true -> is_nan b = false.
Proof. intros H. eapply leb_not_nan_r, ltb_leb, H. Qed.

Lemma leb_refl a : is_nan a = false -> (a <=? a) = true.
Proof.
  rewrite FloatAxioms.leb_spec, is_nan_spec. unfold SFleb. intros H.
  rewrite SFcompare_refl by exact H. reflexivity.
Qed.

(** The rounding of the spec never produces a NaN. *)
Lemma shr_1_nonneg mrs : (0 <= shr_m mrs)%Z -> (0 <= shr_m (shr_1 mrs))%Z.
Proof.
  destruct mrs as [m r s]. simpl. destruct m as [|[p|p|]|p]; simpl; lia.
Qed.

Lemma iter_shr_1_nonneg p :
  forall mrs, (0 <= shr_m mrs)%Z -> (0 <= shr_m (SpecFloat.iter_pos shr_1 p mrs))%Z.
Proof.
  induction p; simpl; intros mrs H; auto using shr_1_nonneg.
Qed.

Lemma shr_nonneg mrs e n : (0 <= shr_m mrs)%Z -> (0 <= shr_m (fst (shr mrs e n)))%Z.
Proof.
  intros H. unfold shr. destruct n; simpl; auto using iter_shr_1_nonneg.
Qed.

Lemma shr_fexp_nonneg p em m e l :
  (0 <= m)%Z -> (0 <= shr_m (fst (shr_fexp p em m e l)))%Z.
Proof.
  intros H. unfold shr_fexp. apply shr_nonneg.
  destruct l as [|[]]; simpl; exact H.
Qed.

Lemma round_nearest_even_nonneg m l : (0 <= m)%Z -> (0 <= round_nearest_even m l)%Z.
Proof.
  intros H. unfold round_nearest_even. destruct l as [|[]]; try lia.
  destruct (Z.even m); lia.
Qed.

Lemma binary_round_aux_not_nan p em sx mx ex lx :
  (0 <= mx)%Z -> F64.sf_is_nan (binary_round_aux p em sx mx ex lx) = false.
Proof.
  intros H. unfold binary_round_aux.
  pose proof (shr_fexp_nonneg p em mx ex lx H) as H1.
  destruct (shr_fexp p em mx ex lx) as [mrs' e']. simpl in H1.
  pose proof (shr_fexp_nonneg p em _ e' loc_Exact
                (round_nearest_even_nonneg _ (loc_of_shr_record mrs') H1)) as H2.
  destruct (shr_fexp p em _ e' loc_Exact) as [mrs'' e'']. simpl in H2.
  destruct (shr_m mrs''); try lia; try reflexivity.
  destruct (Z.leb _ _); reflexivity.
Qed.

Lemma binary_normalize_not_nan p em m e sz :
  F64.sf_is_nan (binary_normalize p em m e sz) = false.
Proof.
  unfold binary_normalize, binary_round.
  destruct m; try reflexivity;
    destruct (shl_align _ _ _); apply binary_round_aux_not_nan; lia.
Qed.

Lemma SFadd_not_nan p em x y :
  F64.sf_finite x = true -> F64.sf_finite y = true ->
  F64.sf_is_nan (SFadd p em x y) = false.
Proof.
  destruct x as [[]|[]| |sx mx ex], y as [[]|[]| |sy my ey]; simpl; try discriminate;
    intros _ _; try reflexivity.
  apply binary_normalize_not_nan.
Qed.

Lemma SFsub_not_nan p em x y :
  F64.sf_finite x = true -> F64.sf_finite y = true ->
  F64.sf_is_nan (SFsub p em x y) = false.
Proof.
  destruct x as [[]|[]| |sx mx ex], y as [[]|[]| |sy my ey]; simpl; try discriminate;
    intros _ _; try reflexivity.
  apply binary_normalize_not_nan.
Qed.

Lemma add_not_nan x y : F64.finite x = true -> F64.finite y = true -> is_nan (x + y) = false.
Proof.
  intros Hx Hy. rewrite is_nan_spec, add_spec. now apply SFadd_not_nan.
Qed.

Lemma sub_not_nan x y : F64.finite x = true -> F64.finite y = true -> is_nan (x - y) = false.
Proof.
  intros Hx Hy. rewrite is_nan_spec, sub_spec. now apply SFsub_not_nan.
Qed.

(** A value between two finite bounds is finite. *)
Lemma within_finite lo hi x :
  F64.finite lo = true -> F64.finite hi = true ->
  within lo hi x = true -> F64.finite x = true.
Proof.
  unfold within, F64.finite. rewrite andb_true_iff, !FloatAxioms.leb_spec. unfold SFleb.
  intros Hlo Hhi [H1 H2]. revert Hlo Hhi H1 H2.
  destruct (Prim2SF x) as [s|[]| |s m e]; try reflexivity;
    destruct (Prim2SF lo) as [?|?| |? ? ?], (Prim2SF hi) as [?|?| |? ? ?];
    simpl; try discriminate; repeat match goal with b : bool |- _ => destruct b end;
    simpl; congruence.
Qed.

(** * Facts about [np.clip] *)

(** Clipping an ordered value between ordered bounds lands between them. *)
Lemma np_clip_within v lo hi :
  is_nan v = false -> (lo <=? hi) = true -> within lo hi (np_clip v lo hi) = true.
Proof.
  intros Hv Hb. unfold np_clip, npy_max, npy_min, within.
  pose proof (leb_not_nan_l _ _ Hb) as Hlo. pose proof (leb_not_nan_r _ _ Hb) as Hhi.
  rewrite Hv. destruct (lo <? v) eqn:E1.
  - rewrite Hv. destruct (v <? hi) eqn:E2.
    + now rewrite (ltb_leb _ _ E1), (ltb_leb _ _ E2).
    + now rewrite Hb, (leb_refl _ Hhi).
  - rewrite Hlo. destruct (lo <? hi) eqn:E2.
    + now rewrite (leb_refl _ Hlo), Hb.
    + now rewrite Hb, (leb_refl _ Hhi).
Qed.

Lemma within_not_nan lo hi x : within lo hi x = true -> is_nan x = false.
Proof.
  unfold within. rewrite andb_true_iff. intros [H _]. eapply leb_not_nan_r, H.
Qed.

(** One step of a coordinate, [x + d] or [x - d] or none, then the clip. *)
Lemma step_clip_within lo hi d x :
  F64.finite lo = true -> F64.finite hi = true -> F64.finite d = true ->
  (lo <=? hi) = true -> within lo hi x = true ->
  within lo hi (np_clip (x + d) lo hi) = true
  /\ within lo hi (np_clip (x - d) lo hi) = true
  /\ within lo hi (np_clip x lo hi) = true.
Proof.
  intros Hlo Hhi Hd Hb Hx.
  pose proof (within_finite _ _ _ Hlo Hhi Hx) as Hfx.
  repeat split; apply np_clip_within; auto using add_not_nan, sub_not_nan.
  eapply within_not_nan, Hx.
Qed.

(** * The mouse callbacks *)

Ltac callback_cases :=
  repeat match goal with
         | |- context [(?a >? ?b)%Z] => destruct (a >? b)%Z eqn:?
         | |- context [(?a <? ?b)%Z] => destruct (a <? b)%Z eqn:?
         | |- context [match ?b with mouse.unknown => _ | _ => _ end] => destruct b
         | |- context [if ?p then _ else _] =>
             match type of p with bool => is_var p; destruct p end
         end.

Lemma dispatch_configured s ev : configured s -> configured (dispatch s ev).
Proof.
  unfold configured. intros H. destruct s. simpl in H.
  destruct ev as [x y dx dy|x y button pressed];
    unfold dispatch, on_scroll, on_scroll_body, on_scroll_horizontal, on_scroll_vertical,
      on_click, on_click_body;
    callback_cases; exact H.
Qed.

Lemma dispatch_in_box s ev :
  configured s -> in_box s = true -> in_box (dispatch s ev) = true.
Proof.
  unfold configured, in_box. intros (Hx0 & Hx1 & Hy0 & Hy1 & Hz0 & Hz1 & Hd) Hbox.
  destruct s as [[x y z] tr rl rr u ? ? ? ? ? ? d lid rid gl gr sl sr].
  simpl in *. subst.
  rewrite !andb_true_iff in Hbox. destruct Hbox as ((((Bx & By) & Bz) & Bl) & Br).
  assert (Sx := step_clip_within (-0.4) 0.4 0.01 x eq_refl eq_refl eq_refl eq_refl Bx).
  assert (Sy := step_clip_within (-0.4) 0.4 0.01 y eq_refl eq_refl eq_refl eq_refl By).
  assert (Sz := step_clip_within 0.8 1.4 0.01 z eq_refl eq_refl eq_refl eq_refl Bz).
  assert (Sl := step_clip_within 0.002 0.037 0.01 gl eq_refl eq_refl eq_refl eq_refl Bl).
  assert (Sr := step_clip_within 0.002 0.037 0.01 gr eq_refl eq_refl eq_refl eq_refl Br).
  destruct Sx as (? & ? & ?), Sy as (? & ? & ?), Sz as (? & ? & ?),
    Sl as (? & ? & ?), Sr as (? & ? & ?).
  destruct ev as [ex ey dx dy|ex ey button pressed];
    unfold dispatch, on_scroll, on_scroll_body, on_scroll_horizontal, on_scroll_vertical,
      on_click, on_click_body;
    callback_cases; simpl;
    rewrite !andb_true_iff; repeat split; assumption.
Qed.

Lemma init_configured l r : configured (init_attributes l r).
Proof. repeat split. Qed.

Lemma init_in_box l r : in_box (init_attributes l r) = true.
Proof. reflexivity. Qed.

Lemma dispatch_all_invariant evs :
  forall s, configured s -> in_box s = true ->
            configured (dispatch_all s evs) /\ in_box (dispatch_all s evs) = true.
Proof.
  induction evs as [|ev evs IH]; intros s Hc Hb; simpl.
  - split; assumption.
  - apply IH; auto using dispatch_configured, dispatch_in_box.
Qed.

(** C4.  [__init__] puts the left target at (-0.25, 0.0, 1.1).  Whatever
    scroll and click events the listener delivers from there, after each
    of them the left target lies in the box x in [-0.4, 0.4],
    y in [-0.4, 0.4], z in [0.8, 1.4] and both gripper positions lie in
    [0.002, 0.037]. *)
Theorem target_stays_in_box (left_id right_id : nat) (evs : list input_event) :
  target_l (init_attributes left_id right_id) = mk_array3 (-0.25) 0.0 1.1 /\
  let s := dispatch_all (init_attributes left_id right_id) evs in
  within (-0.4) 0.4 (getitem (target_l s) i0) = true /\
  within (-0.4) 0.4 (getitem (target_l s) i1) = true /\
  within 0.8 1.4 (getitem (target_l s) i2) = true /\
  within 0.002 0.037 (left_gripper_pos s) = true /\
  within 0.002 0.037 (right_gripper_pos s) = true.
Proof.
  split; [reflexivity|]. intros s.
  destruct (dispatch_all_invariant evs _ (init_configured left_id right_id)
              (init_in_box left_id right_id)) as [_ H].
  fold s in H. unfold in_box in H. rewrite !andb_true_iff in H. tauto.
Qed.

(** * Order facts on binary64 *)

Ltac order_facts :=
  repeat match goal with
         | H : context [Pos.compare_cont Eq ?a ?b] |- _ =>
             change (Pos.compare_cont Eq a b) with (Pos.compare a b) in H
         | |- context [Pos.compare_cont Eq ?a ?b] =>
             change (Pos.compare_cont Eq a b) with (Pos.compare a b)
         end;
  repeat match goal with
         | |- context [(?a ?= ?b)%Z] =>
             let E := fresh "E" in destruct (Z.compare_spec a b) as [E|E|E]
         | H : context [(?a ?= ?b)%Z] |- _ =>
             let E := fresh "E" in destruct (Z.compare_spec a b) as [E|E|E]
         | |- context [(?a ?= ?b)%positive] =>
             let E := fresh "E" in destruct (Pos.compare_spec a b) as [E|E|E]
         | H : context [(?a ?= ?b)%positive] |- _ =>
             let E := fresh "E" in destruct (Pos.compare_spec a b) as [E|E|E]
         end.

Lemma SFltb_asym a b : SFltb a b = true -> SFltb b a = false.
Proof.
  unfold SFltb.
  destruct a as [[]|[]| |[] ma ea], b as [[]|[]| |[] mb eb]; simpl; try congruence;
    order_facts; simpl; try congruence; try lia.
Qed.

Lemma SFleb_ltb_trans a b c : SFleb a b = true -> SFltb b c = true -> SFltb a c = true.
Proof.
  unfold SFleb, SFltb.
  destruct a as [[]|[]| |[] ma ea], b as [[]|[]| |[] mb eb], c as [[]|[]| |[] mc ec];
    simpl; try congruence;
    order_facts; simpl; try congruence; try lia.
Qed.

Lemma ltb_asym a b : (a <? b) = true -> (b <? a) = false.
Proof. rewrite !FloatAxioms.ltb_spec. apply SFltb_asym. Qed.

Lemma leb_ltb_trans a b c : (a <=? b) = true -> (b <? c) = true -> (a <? c) = true.
Proof. rewrite !FloatAxioms.ltb_spec, FloatAxioms.leb_spec. apply SFleb_ltb_trans. Qed.

(** A value above the upper bound is clipped to the upper bound itself. *)
Lemma np_clip_above v lo hi :
  (lo <=? hi) = true -> (hi <? v) = true -> np_clip v lo hi = hi.
Proof.
  intros Hb Hv. unfold np_clip, npy_max, npy_min.
  rewrite (ltb_not_nan_r _ _ Hv), (leb_ltb_trans _ _ _ Hb Hv),
    (ltb_not_nan_r _ _ Hv), (ltb_asym _ _ Hv). reflexivity.
Qed.

(** A value below the lower bound is clipped to the lower bound itself. *)
Lemma np_clip_below v lo hi :
  (lo <? hi) = true -> (v <? lo) = true -> np_clip v lo hi = lo.
Proof.
  intros Hb Hv. unfold np_clip, npy_max, npy_min.
  rewrite (ltb_not_nan_l _ _ Hv), (ltb_asym _ _ Hv), (ltb_not_nan_l _ _ Hb), Hb.
  reflexivity.
Qed.

(** * Claims about the callbacks *)

Lemma dispatch_frame s ev :
  target_r (dispatch s ev) = target_r s /\
  rot_l (dispatch s ev) = rot_l s /\
  rot_r (dispatch s ev) = rot_r s.
Proof.
  destruct ev as [x y dx dy|x y button pressed];
    unfold dispatch, on_scroll, on_scroll_body, on_scroll_horizontal, on_scroll_vertical,
      on_click, on_click_body;
    callback_cases; repeat split.
Qed.

Lemma dispatch_all_frame evs :
  forall s,
    target_r (dispatch_all s evs) = target_r s /\
    rot_l (dispatch_all s evs) = rot_l s /\
    rot_r (dispatch_all s evs) = rot_r s.
Proof.
  induction evs as [|ev evs IH]; intros s; simpl.
  - repeat split.
  - destruct (IH (dispatch s ev)) as (-> & -> & ->). apply dispatch_frame.
Qed.

(** C10.  No sequence of scroll and click callbacks changes the right
    target position or either target orientation: [target_r] stays
    (0.25, 0.0, 1.1) and [rot_l], [rot_r] stay the identity rotation. *)
Theorem right_target_and_rotations_fixed (left_id right_id : nat) (evs : list input_event) :
  let s := dispatch_all (init_attributes left_id right_id) evs in
  target_r s = mk_array3 0.25 0.0 1.1 /\
  rot_l s = SO3_identity /\
  rot_r s = SO3_identity.
Proof.
  exact (dispatch_all_frame evs (init_attributes left_id right_id)).
Qed.

(** C5.  In any state the callbacks can reach, a scroll event with a
    nonzero horizontal delta moves the target X by +0.01 (dx > 0) or -0.01
    (dx < 0) and moves both gripper amounts by the same signed step; these
    are the values before the clamp, and what the callback stores is their
    clip to the configured range. *)
Theorem horizontal_scroll_moves_x_and_grippers
    (left_id right_id : nat) (evs : list input_event) (x y dx dy : Z) :
  dx <> 0%Z ->
  let s := dispatch_all (init_attributes left_id right_id) evs in
  let moved v := if (dx >? 0)%Z then v + 0.01 else v - 0.01 in
  let before_clamp := exec (on_scroll_horizontal dx) s in
  let s' := on_scroll s x y dx dy in
  (getitem (target_l before_clamp) i0 = moved (getitem (target_l s) i0) /\
   left_gripper_pos before_clamp = moved (left_gripper_pos s) /\
   right_gripper_pos before_clamp = moved (right_gripper_pos s)) /\
  s' = exec (on_scroll_vertical dy ++ on_scroll_clamp) before_clamp /\
  (getitem (target_l s') i0 = np_clip (moved (getitem (target_l s) i0)) (-0.4) 0.4 /\
   left_gripper_pos s' = np_clip (moved (left_gripper_pos s)) 0.002 0.037 /\
   right_gripper_pos s' = np_clip (moved (right_gripper_pos s)) 0.002 0.037).
Proof.
  intros Hdx s.
  destruct (dispatch_all_invariant evs _ (init_configured left_id right_id)
              (init_in_box left_id right_id)) as [Hc _].
  fold s in Hc. clearbody s. destruct Hc as (Hx0 & Hx1 & _ & _ & _ & _ & Hd).
  destruct s as [[tx ty tz] tr rl rr u ? ? ? ? ? ? d lid rid gl gr sl sr].
  simpl in Hx0, Hx1, Hd. subst.
  unfold on_scroll, on_scroll_body, on_scroll_horizontal, on_scroll_vertical.
  destruct (dx >? 0)%Z eqn:Epos; [|destruct (dx <? 0)%Z eqn:Eneg; [|lia]];
    (split; [repeat split|split; [unfold exec; rewrite fold_left_app; reflexivity|]]);
    callback_cases; repeat split.
Qed.

Lemma horizontal_scroll_moves_x_and_grippers_witness :
  (1 <> 0)%Z /\
  getitem (target_l (on_scroll (init_attributes 0 1) 0 0 1 0)) i0 = -0.24.
Proof.
  split; [lia|].
  destruct (horizontal_scroll_moves_x_and_grippers 0 1 [] 0 0 1 0 ltac:(lia))
    as (_ & _ & H & _).
  refine (eq_trans H _). vm_compute. reflexivity.
Defined.

(** C8.  Clamping saturates: an update whose step takes a coordinate past
    its bound leaves the coordinate at the bound itself, so two steps of
    different sizes that both go past the same bound from the same state
    give the same coordinate. *)
Theorem clamp_saturates (c : coordinate) (dir : direction) (s : AlohaMocapControl)
    (d1 d2 : float) :
  (lower c s <? upper c s) = true ->
  overshoots c dir d1 s = true ->
  overshoots c dir d2 s = true ->
  value c (update c dir d1 s) = bound c dir s /\
  value c (update c dir d2 s) = bound c dir s /\
  value c (update c dir d1 s) = value c (update c dir d2 s).
Proof.
  intros Hb H1 H2.
  assert (Hle := ltb_leb _ _ Hb).
  assert (forall d, overshoots c dir d s = true -> value c (update c dir d s) = bound c dir s)
    as Hsat.
  { clear H1 H2 d1 d2. intros d H.
    destruct s as [[tx ty tz] tr rl rr u ? ? ? ? ? ? d0 lid rid gl gr sl sr].
    destruct c, dir; simpl in *;
      first [ now apply np_clip_above | now apply np_clip_below ]. }
  rewrite (Hsat d1 H1), (Hsat d2 H2). repeat split.
Qed.

Lemma clamp_saturates_witness :
  value TargetX (update TargetX Up 1 (init_attributes 0 1)) = 0.4 /\
  value TargetX (update TargetX Up 100 (init_attributes 0 1)) = 0.4 /\
  value TargetX (update TargetX Up 1 (init_attributes 0 1))
  = value TargetX (update TargetX Up 100 (init_attributes 0 1)).
Proof.
  exact (clamp_saturates TargetX Up (init_attributes 0 1) 1 100 eq_refl eq_refl eq_refl).
Defined.

(** * The control loop *)

Lemma length_zeros_like a : length (zeros_like a) = length a.
Proof. unfold zeros_like. now rewrite length_map. Qed.

Lemma integrate_inplace_ok c v dt :
  length v = length (q c) -> integrate_inplace c v dt = inr (integrated c v dt).
Proof.
  intros H. unfold integrate_inplace. rewrite H, Nat.eqb_refl. reflexivity.
Qed.

Lemma integrate_inplace_cases c v dt :
  (length v = length (q c) /\ integrate_inplace c v dt = inr (integrated c v dt)) \/
  (length v <> length (q c) /\ integrate_inplace c v dt = inl ValueError).
Proof.
  unfold integrate_inplace. destruct (Nat.eqb_spec (length v) (length (q c))); auto.
Qed.

Lemma integrated_consistent c v dt :
  consistent c -> length v = length (q c) -> consistent (integrated c v dt).
Proof.
  intros [H1 H2] Hv. unfold consistent, integrated. simpl.
  rewrite length_zip_with. split; lia.
Qed.

Section LoopFacts.

Variable solve_ik : ik_solver.
Variable L : locals.

(** A pass in which the solver returns a velocity of the right length
    runs to its end. *)
Lemma inner_iteration_returns st v :
  solve_ik (trace st) (left_configuration st) [l_ee_task st] rate_dt solver
    (limits L) damping = inr v ->
  length v = length (q (left_configuration st)) ->
  length (dq (right_configuration st)) = length (q (right_configuration st)) ->
  inner_iteration solve_ik L st = Normal tt (iteration_result L st v).
Proof.
  intros Hs Hv Hr.
  unfold inner_iteration, solve_left, bind. rewrite Hs.
  unfold get, lift. simpl.
  rewrite (integrate_inplace_ok _ v rate_dt Hv).
  unfold ret, modify, call, control_gripper_call, control_gripper, bind, get, modify.
  simpl.
  rewrite integrate_inplace_ok by (rewrite length_zeros_like; exact Hr).
  simpl. unfold iteration_result, iteration_calls. simpl.
  rewrite <- !app_assoc. reflexivity.
Qed.

(** A pass in which the solver raises ends there, with the exception. *)
Lemma inner_iteration_raises st e :
  solve_ik (trace st) (left_configuration st) [l_ee_task st] rate_dt solver
    (limits L) damping = inl e ->
  inner_iteration solve_ik L st = Raised e (self st) (trace st ++ [CallSolveIK]).
Proof.
  intros Hs. unfold inner_iteration, solve_left, bind. rewrite Hs. reflexivity.
Qed.

End LoopFacts.

(** ** Rules for [preserves] *)

Section Preserves.

Variable I : state -> Prop.
Variable P : event -> Prop.

Lemma preserves_ret {A} (a : A) : preserves I P (ret a).
Proof.
  intros st Hi. split.
  - exists []. simpl. now rewrite app_nil_r.
  - intros a' st' E. injection E as _ <-. exact Hi.
Qed.

Lemma preserves_raise {A} e : preserves I P (@raise A e).
Proof.
  intros st Hi. split.
  - exists []. simpl. now rewrite app_nil_r.
  - discriminate.
Qed.

Lemma preserves_get : preserves I P get.
Proof.
  intros st Hi. split.
  - exists []. simpl. now rewrite app_nil_r.
  - intros a' st' E. injection E as _ <-. exact Hi.
Qed.

Lemma preserves_lift {A} (r : exn + A) : preserves I P (lift r).
Proof. destruct r; [apply preserves_raise|apply preserves_ret]. Qed.

Lemma preserves_bind {A B} (c : M A) (k : A -> M B) :
  preserves I P c -> (forall a, preserves I P (k a)) -> preserves I P (bind c k).
Proof.
  intros Hc Hk st Hi. destruct (Hc st Hi) as [(new & Et & Hp) Hn].
  unfold bind. destruct (c st) as [a st1|e s tr] eqn:E.
  - simpl in Et. destruct (Hk a st1 (Hn a st1 eq_refl)) as [(new' & Et' & Hp') Hn'].
    split.
    + exists (new ++ new'). rewrite Et', Et, app_assoc. split; [reflexivity|].
      apply Forall_app; auto.
    + exact Hn'.
  - split; [exists new; auto|discriminate].
Qed.

Lemma preserves_call e : ignores_trace I -> P e -> preserves I P (call e).
Proof.
  intros Ht Hp st Hi. split.
  - exists [e]. split; [reflexivity|]. now constructor.
  - intros a st' E. injection E as _ <-. apply Ht, Hi.
Qed.

Lemma preserves_modify f :
  (forall st, I st -> I (f st)) -> (forall st, trace (f st) = trace st) ->
  preserves I P (modify f).
Proof.
  intros Hf Ht st Hi. split.
  - exists []. simpl. now rewrite Ht, app_nil_r.
  - intros a st' E. injection E as _ <-. apply Hf, Hi.
Qed.

Lemma preserves_for_range n body :
  preserves I P body -> preserves I P (for_range n body).
Proof.
  intros Hb. induction n as [|n IH]; simpl.
  - apply preserves_ret.
  - apply preserves_bind; auto.
Qed.

Lemma preserves_run_prog p :
  prog_all (preserves I P) p -> preserves I P (run_prog p).
Proof.
  induction p as [|c k IH|b kt IHt kf IHf]; simpl.
  - intros _. apply preserves_ret.
  - intros [Hc Hk]. apply preserves_bind; auto.
  - intros [Ht Hf]. apply preserves_bind; [apply preserves_get|].
    intros st. destruct (b st); auto.
Qed.

End Preserves.

(** ** Statements of [run] that leave the configurations alone *)

Section Statements.

Variable J : ReducedConfiguration -> ReducedConfiguration -> Prop.
Variable P : event -> Prop.
Hypothesis P_lenient : lenient P.

Lemma on_configurations_ignores_trace : ignores_trace (on_configurations J).
Proof. intros st tr H. exact H. Qed.

Ltac step :=
  first
    [ apply preserves_bind; [|intros ?]
    | apply preserves_get
    | apply preserves_ret
    | apply preserves_lift
    | apply preserves_raise
    | apply preserves_call; [exact on_configurations_ignores_trace|apply P_lenient; discriminate]
    | apply preserves_modify; [intros ? H; exact H|reflexivity] ].

Lemma preserves_control_gripper_call : preserves (on_configurations J) P control_gripper_call.
Proof. unfold control_gripper_call, control_gripper. repeat step. Qed.

Lemma preserves_attribute name v : preserves (on_configurations J) P (attribute name v).
Proof. destruct v; simpl; step. Qed.

Lemma preserves_update_target_sites_call : preserves (on_configurations J) P update_target_sites_call.
Proof.
  unfold update_target_sites_call, update_target_sites.
  repeat first [apply preserves_attribute | step].
Qed.

Lemma preserves_add_target_sites model : preserves (on_configurations J) P (add_target_sites model).
Proof.
  unfold add_target_sites.
  repeat first [apply preserves_update_target_sites_call | step].
Qed.

Lemma preserves_retarget_left : preserves (on_configurations J) P retarget_left.
Proof. unfold retarget_left. repeat step. Qed.

Lemma preserves_retarget_right : preserves (on_configurations J) P retarget_right.
Proof. unfold retarget_right. repeat step. Qed.

Lemma preserves_clear_updated : preserves (on_configurations J) P clear_updated.
Proof. unfold clear_updated. step. Qed.

Lemma preserves_refresh : preserves (on_configurations J) P refresh.
Proof.
  apply preserves_run_prog. simpl.
  repeat match goal with |- _ /\ _ => split end;
    first [ apply preserves_control_gripper_call | apply preserves_retarget_left
          | apply preserves_update_target_sites_call | apply preserves_clear_updated
          | exact Logic.I ].
Qed.

Variable solve_ik : ik_solver.
Variable L : locals.
Hypothesis preserves_inner_iteration : preserves (on_configurations J) P (inner_iteration solve_ik L).

Lemma preserves_tick : preserves (on_configurations J) P (tick solve_ik L).
Proof.
  unfold tick, inner_loop. apply preserves_bind; [apply preserves_refresh|intros _].
  now apply preserves_for_range.
Qed.

Lemma preserves_while_running sched : preserves (on_configurations J) P (while_running solve_ik L sched).
Proof.
  induction sched as [|evs rest IH]; simpl.
  - step.
  - step; [step|]. step; [apply preserves_tick|exact IH].
Qed.

Lemma preserves_viewer_block model sched :
  preserves (on_configurations J) P (viewer_block solve_ik model L sched).
Proof.
  unfold viewer_block.
  repeat first
    [ apply preserves_add_target_sites | apply preserves_retarget_left
    | apply preserves_retarget_right | apply preserves_while_running | step ].
Qed.

End Statements.

(** ** One pass of the [for] loop, in full *)

Section Iteration.

Variable solve_ik : ik_solver.
Variable L : locals.

(** A pass either raises right after the call to the solver, or the
    solver returned a velocity of the right length and the pass ran to
    its end. *)
Lemma inner_iteration_cases st :
  (exists e, inner_iteration solve_ik L st
             = Raised e (self st) (trace st ++ [CallSolveIK])) \/
  (exists v,
      solve_ik (trace st) (left_configuration st) [l_ee_task st] rate_dt solver
        (limits L) damping = inr v /\
      length v = length (q (left_configuration st)) /\
      length (dq (right_configuration st)) = length (q (right_configuration st)) /\
      inner_iteration solve_ik L st = Normal tt (iteration_result L st v)).
Proof.
  destruct (solve_ik (trace st) (left_configuration st) [l_ee_task st] rate_dt solver
              (limits L) damping) as [e|v] eqn:Hs.
  - left. exists e. now apply inner_iteration_raises.
  - destruct (integrate_inplace_cases (left_configuration st) v rate_dt)
      as [[Hv Hl]|[Hv Hl]].
    + destruct (integrate_inplace_cases (right_configuration st)
                  (zeros_like (dq (right_configuration st))) rate_dt)
        as [[Hz Hr]|[Hz Hr]].
      * right. exists v. rewrite length_zeros_like in Hz.
        repeat split; auto using inner_iteration_returns.
      * left. exists ValueError.
        unfold inner_iteration, solve_left, bind. rewrite Hs.
        unfold get, lift. simpl. rewrite Hl. simpl. rewrite Hr. reflexivity.
    + left. exists ValueError.
      unfold inner_iteration, solve_left, bind. rewrite Hs.
      unfold get, lift. simpl. rewrite Hl. reflexivity.
Qed.

Lemma preserves_inner_iteration_of J P :
  lenient P ->
  (forall st v,
      on_configurations J st ->
      solve_ik (trace st) (left_configuration st) [l_ee_task st] rate_dt solver
        (limits L) damping = inr v ->
      length v = length (q (left_configuration st)) ->
      length (dq (right_configuration st)) = length (q (right_configuration st)) ->
      on_configurations J (iteration_result L st v) /\
      P (SetQvel (left_relevant_qvel_indices L) v) /\
      P (SetQvel (right_relevant_qvel_indices L)
           (zeros_like (dq (right_configuration st))))) ->
  preserves (on_configurations J) P (inner_iteration solve_ik L).
Proof.
  intros Hp Hstep st Hi.
  destruct (inner_iteration_cases st) as [[e E]|(v & Hs & Hv & Hr & E)]; rewrite E.
  - split; [|discriminate]. exists [CallSolveIK]. split; [reflexivity|].
    constructor; [apply Hp; discriminate|constructor].
  - destruct (Hstep st v Hi Hs Hv Hr) as (HJ & Pl & Pr). split.
    + exists (iteration_calls L st v). split; [reflexivity|].
      unfold iteration_calls.
      repeat (constructor; [first [exact Pl|exact Pr|apply Hp; discriminate]|]).
      constructor.
    + intros a st' E'. injection E' as _ <-. exact HJ.
Qed.

End Iteration.

(** ** What [run] binds before the loop *)

Lemma comprehension_inr {A B} (f : A -> exn + B) l bs :
  comprehension f l = inr bs -> Forall2 (fun a b => f a = inr b) l bs.
Proof.
  revert bs. induction l as [|a l IH]; simpl; intros bs H.
  - injection H as <-. constructor.
  - destruct (f a) as [e|b] eqn:Ea; [discriminate|].
    destruct (comprehension f l) as [e|bs'] eqn:El; [discriminate|].
    injection H as <-. constructor; auto.
Qed.

Lemma resolve_inr table name id : resolve table name = inr id -> table !! name = Some id.
Proof. unfold resolve. destruct (table !! name); congruence. Qed.

Lemma lookup_constant_map (names : list string) (v : float) (k : string) :
  In k names ->
  (list_to_map (map (fun k => (k, v)) names) : gmap string float) !! k = Some v.
Proof.
  induction names as [|a names IH]; simpl; [tauto|].
  intros H. destruct (decide (a = k)) as [->|Hne].
  - apply lookup_insert_eq.
  - rewrite lookup_insert_ne by exact Hne. apply IH. destruct H; [contradiction|assumption].
Qed.

Lemma name_loop_from (names : list string) :
  (forall n, In n names -> _VELOCITY_LIMITS !! n = Some np_pi) ->
  forall left_names right_names (vl : gmap string float),
    (forall name, In name (left_names ++ right_names) -> vl !! name = Some np_pi) ->
    exists vl',
      fold_left name_loop_step names (inr (left_names, right_names, vl))
      = inr (left_names ++ map (fun n => "aloha_scene/left_" +:+ n) names,
             right_names ++ map (fun n => "aloha_scene/right_" +:+ n) names, vl') /\
      (forall name,
          In name ((left_names ++ map (fun n => "aloha_scene/left_" +:+ n) names)
                   ++ right_names ++ map (fun n => "aloha_scene/right_" +:+ n) names) ->
          vl' !! name = Some np_pi).
Proof.
  induction names as [|n names IH]; intros Hlim left_names right_names vl Hvl.
  - exists vl. simpl. rewrite !app_nil_r. auto.
  - cbn [fold_left]. unfold name_loop_step at 2.
    rewrite (Hlim n (or_introl eq_refl)).
    edestruct (IH (fun m Hm => Hlim m (or_intror Hm))
                 (left_names ++ ["aloha_scene/left_" +:+ n])
                 (right_names ++ ["aloha_scene/right_" +:+ n])) as (vl' & E & Hvl').
    2:{ exists vl'. rewrite E. cbn [map]. rewrite <- !app_assoc. split; [reflexivity|].
        intros name Hin. apply Hvl'. rewrite <- !app_assoc. exact Hin. }
    intros name Hin.
    destruct (decide ("aloha_scene/right_" +:+ n = name)) as [<-|Hr];
      [apply lookup_insert_eq|rewrite lookup_insert_ne by exact Hr].
    destruct (decide ("aloha_scene/left_" +:+ n = name)) as [<-|Hl];
      [apply lookup_insert_eq|rewrite lookup_insert_ne by exact Hl].
    apply Hvl. rewrite !in_app_iff in *. simpl in Hin. intuition congruence.
Qed.

(** The loop over [_JOINT_NAMES] gives every joint of both arms the limit
    [np.pi]. *)
Lemma name_loop_value :
  exists vl,
    name_loop = inr (map (fun n => "aloha_scene/left_" +:+ n) _JOINT_NAMES,
                     map (fun n => "aloha_scene/right_" +:+ n) _JOINT_NAMES, vl) /\
    Forall (fun name => vl !! name = Some np_pi)
      (map (fun n => "aloha_scene/left_" +:+ n) _JOINT_NAMES
       ++ map (fun n => "aloha_scene/right_" +:+ n) _JOINT_NAMES).
Proof.
  destruct (name_loop_from _JOINT_NAMES
              (fun n Hn => lookup_constant_map _JOINT_NAMES np_pi n Hn) [] [] ∅)
    as (vl & E & Hvl).
  - intros name [].
  - exists vl. split; [exact E|]. apply Forall_forall. intros name Hin.
    apply Hvl. apply list_elem_of_In in Hin. exact Hin.
Qed.

Lemma setup_inr model data L lc rc lt rt :
  setup model data = inr (L, lc, rc, lt, rt) ->
  left_indexed L lc rc /\ left_arm_limited model L /\
  length (left_relevant_qvel_indices L) = length _JOINT_NAMES /\
  consistent lc /\ consistent rc.
Proof.
  unfold setup. destruct name_loop_value as (vl & -> & Hvl).
  destruct (comprehension (resolve (joint model)) _) as [?|l_dof] eqn:El; [discriminate|].
  destruct (comprehension (resolve (actuator model)) _) as [?|l_act]; [discriminate|].
  destruct (comprehension (resolve (joint model))
              (map (fun n => "aloha_scene/right_" +:+ n) _JOINT_NAMES))
    as [?|r_dof] eqn:Er; [discriminate|].
  destruct (comprehension (resolve (actuator model)) _) as [?|r_act]; [discriminate|].
  intros H. injection H as <- <- <- <- <-.
  apply comprehension_inr in El. apply comprehension_inr in Er.
  assert (length l_dof = length _JOINT_NAMES) as Hlen.
  { apply Forall2_length in El. now rewrite length_map in El. }
  unfold left_indexed, left_arm_limited, consistent, new_ReducedConfiguration. simpl.
  rewrite !length_map. repeat split; auto.
  apply Forall_app in Hvl. destruct Hvl as [Hvl _].
  clear Er Hlen. induction El as [|name id names ids Hn El IH]; simpl; constructor.
  - exists vl, name, id. apply Forall_cons in Hvl. destruct Hvl as [Hv _].
    repeat split; auto using resolve_inr. now left.
  - apply IH. apply Forall_cons in Hvl. tauto.
Qed.

(** ** The velocity limit *)


Section VelocityLimit.

Variable model : MjModel.
Variable solve_ik : ik_solver.
Variable L : locals.
Hypothesis honours : honours_velocity_limits model solve_ik.
Hypothesis limited : left_arm_limited model L.



End VelocityLimit.



(** [run_loop] in terms of its block: the viewer is launched, the block
    runs, and then either the listener is stopped and the viewer closed, or
    the exception leaves through the closing viewer. *)
Lemma run_loop_outcome solve_ik model L sched st :
  match viewer_block solve_ik model L sched (with_trace (trace st ++ [ViewerLaunch]) st) with
  | Normal _ st1 =>
      run_loop solve_ik model L sched st
      = Normal tt (with_trace (trace st1 ++ [ListenerStop; ViewerClose]) st1)
  | Raised e s tr =>
      run_loop solve_ik model L sched st = Raised e s (tr ++ [ViewerClose])
  end.
Proof.
  unfold run_loop, with_viewer, bind, call, modify.
  destruct (viewer_block solve_ik model L sched _) as [[] st1|e s tr]; [|reflexivity].
  simpl. rewrite <- app_assoc. reflexivity.
Qed.



(** The bound is reached.  A solver that saturates every joint at [np.pi]
    keeps to the limits it is given, and the loop then writes exactly
    [np.pi] for each joint of the left arm. *)
Lemma saturating_solver_honours model : honours_velocity_limits model saturating_solver.
Proof.
  intros h c tasks dt name lims d v Hs k dof vk m _ Hk (vl & jn & id & Hin & Hm & _ & _).
  unfold saturating_solver in Hs.
  destruct (forallb limit_allows_pi lims) eqn:Hall; [|discriminate].
  injection Hs as <-.
  rewrite list_lookup_fmap in Hk.
  destruct (q c !! k); [|discriminate]. injection Hk as <-.
  rewrite forallb_forall in Hall. specialize (Hall _ Hin). simpl in Hall.
  rewrite forallb_forall in Hall.
  apply elem_of_map_to_list in Hm. apply list_elem_of_In in Hm.
  exact (Hall _ Hm).
Qed.





(** With a solver that saturates every joint at [np.pi] the bound is
    reached: the loop writes exactly [np.pi] for each joint of the left
    arm. *)
Lemma saturating_solver_writes_pi :
  In (SetQvel [0; 1; 2; 3; 4; 5]%nat [np_pi; np_pi; np_pi; np_pi; np_pi; np_pi])
    (trace_of (run saturating_solver demo_model demo_data [[]] demo_self [ListenerStart])).
Proof. apply (nth_error_In _ 17). vm_compute. reflexivity. Qed.

(** ** The head of a tick *)

Lemma refresh_returns st id_l id_r :
  target_site_id_l (self st) = Some id_l ->
  target_site_id_r (self st) = Some id_r ->
  refresh st = Normal tt (refresh_result id_l id_r st).
Proof.
  intros Hl Hr. unfold refresh, refresh_result, refresh_calls.
  cbn [run_prog refresh_prog].
  unfold control_gripper_call, control_gripper, retarget_left, update_target_sites_call,
    update_target_sites, clear_updated, bind, get, call, modify, ret.
  simpl. destruct (targets_updated (self st)) eqn:Eu.
  - simpl. rewrite Hl, Hr. simpl. unfold gripper_calls, site_calls, pose_of.
    rewrite <- !app_assoc. reflexivity.
  - unfold gripper_calls. rewrite <- !app_assoc. reflexivity.
Qed.

Lemma occurrences_app k tr1 tr2 :
  occurrences k (tr1 ++ tr2) = (occurrences k tr1 + occurrences k tr2)%nat.
Proof. unfold occurrences. now rewrite List.filter_app, length_app. Qed.

Lemma occurrences_kinds k tr :
  occurrences k tr = length (List.filter (kind_eqb k) (map kind_of tr)).
Proof.
  unfold occurrences. induction tr as [|e tr IH]; simpl; [reflexivity|].
  destruct (kind_eqb k (kind_of e)); simpl; now rewrite IH.
Qed.

Lemma refresh_calls_occurrences id_l id_r st :
  occurrences KSolve (refresh_calls id_l id_r st) = 0%nat /\
  occurrences KStep (refresh_calls id_l id_r st) = 0%nat /\
  occurrences KSync (refresh_calls id_l id_r st) = 0%nat /\
  occurrences KSleep (refresh_calls id_l id_r st) = 0%nat /\
  occurrences KSetTarget (refresh_calls id_l id_r st)
  = (if targets_updated (self st) then 1 else 0)%nat.
Proof.
  unfold refresh_calls. destruct (targets_updated (self st)); repeat split.
Qed.

(** ** The [for] loop when nothing raises *)

Lemma passes_calls L vs :
  forall st, exists body,
    trace (passes L st vs) = trace st ++ body /\
    map kind_of body = concat (repeat iteration_kinds (length vs)).
Proof.
  induction vs as [|v vs IH]; intros st; simpl.
  - exists []. now rewrite app_nil_r.
  - destruct (IH (iteration_result L st v)) as (body & Et & Hk).
    exists (iteration_calls L st v ++ body). split.
    + rewrite Et. simpl. now rewrite <- app_assoc.
    + rewrite map_app, Hk. reflexivity.
Qed.

Section Returns.

Variable solve_ik : ik_solver.
Variable L : locals.
Hypothesis solver_succeeds : succeeds solve_ik L.

Lemma for_range_inner_iteration_returns n :
  forall st,
    consistent (left_configuration st) -> consistent (right_configuration st) ->
    exists vs,
      length vs = n /\
      for_range n (inner_iteration solve_ik L) st = Normal tt (passes L st vs) /\
      consistent (left_configuration (passes L st vs)) /\
      consistent (right_configuration (passes L st vs)).
Proof.
  induction n as [|n IH]; intros st Hl Hr.
  - exists []. simpl. tauto.
  - destruct (solver_succeeds (trace st) (left_configuration st) [l_ee_task st])
      as (v & Hs & Hv).
    pose proof (inner_iteration_returns solve_ik L st v Hs Hv (proj2 Hr)) as E.
    destruct (IH (iteration_result L st v)) as (vs & Hlen & E' & Hl' & Hr').
    { apply integrated_consistent; assumption. }
    { apply integrated_consistent; [assumption|].
      rewrite length_zeros_like. apply Hr. }
    exists (v :: vs). cbn [for_range passes length]. unfold bind at 1. rewrite E, E'.
    split; [now rewrite Hlen|]. tauto.
Qed.

End Returns.

(** C2.  When the solver returns on every call, each tick of the [while]
    loop runs the [for] loop to its end: after the head of the tick come
    exactly [max_iters] = 20 passes.  Each pass is a solve, the integration
    of both configurations, the writes of qpos, qvel and ctrl for both
    arms, the gripper command, one physics step, one viewer sync and one
    sleep of the rate limiter.  So a tick makes 20 physics steps and 20
    renders, and no pass ends the loop early. *)
Theorem tick_runs_max_iters_passes
    (solve_ik : ik_solver) (L : locals) (st : state) (id_l id_r : nat) :
  succeeds solve_ik L ->
  consistent (left_configuration st) ->
  consistent (right_configuration st) ->
  target_site_id_l (self st) = Some id_l ->
  target_site_id_r (self st) = Some id_r ->
  exists velocities body,
    max_iters = 20%nat /\
    length velocities = max_iters /\
    tick solve_ik L st
    = Normal tt (passes L (refresh_result id_l id_r st) velocities) /\
    trace (passes L (refresh_result id_l id_r st) velocities)
    = trace st ++ refresh_calls id_l id_r st ++ body /\
    map kind_of body = concat (repeat iteration_kinds max_iters) /\
    occurrences KSolve (refresh_calls id_l id_r st ++ body) = max_iters /\
    occurrences KStep (refresh_calls id_l id_r st ++ body) = max_iters /\
    occurrences KSync (refresh_calls id_l id_r st ++ body) = max_iters /\
    occurrences KSleep (refresh_calls id_l id_r st ++ body) = max_iters.
Proof.
  intros Hs Hl Hr Hidl Hidr.
  destruct (for_range_inner_iteration_returns solve_ik L Hs max_iters
              (refresh_result id_l id_r st) Hl Hr)
    as (vs & Hlen & E & _).
  destruct (passes_calls L vs (refresh_result id_l id_r st)) as (body & Et & Hk).
  rewrite Hlen in Hk.
  exists vs, body.
  destruct (refresh_calls_occurrences id_l id_r st) as (O1 & O2 & O3 & O4 & _).
  split; [reflexivity|]. split; [exact Hlen|]. split.
  { unfold tick, bind. rewrite (refresh_returns st id_l id_r Hidl Hidr). exact E. }
  split.
  { rewrite Et. simpl. now rewrite <- app_assoc. }
  split; [exact Hk|].
  rewrite !occurrences_app, O1, O2, O3, O4, !occurrences_kinds, Hk.
  repeat split.
Qed.

Lemma resting_solver_succeeds : succeeds resting_solver demo_locals.
Proof.
  intros h c tasks. exists (zeros_like (q c)). unfold resting_solver.
  assert (forallb limit_nonneg (limits demo_locals) = true) as -> by (vm_compute; reflexivity).
  split; [reflexivity|apply length_zeros_like].
Qed.

Lemma demo_state_consistent :
  consistent (left_configuration demo_state) /\ consistent (right_configuration demo_state).
Proof. unfold consistent. vm_compute. repeat split. Qed.

Lemma tick_runs_max_iters_passes_witness :
  exists velocities body,
    max_iters = 20%nat /\
    length velocities = max_iters /\
    tick resting_solver demo_locals demo_state
    = Normal tt (passes demo_locals (refresh_result 0 1 demo_state) velocities) /\
    trace (passes demo_locals (refresh_result 0 1 demo_state) velocities)
    = trace demo_state ++ refresh_calls 0 1 demo_state ++ body /\
    map kind_of body = concat (repeat iteration_kinds max_iters) /\
    occurrences KSolve (refresh_calls 0 1 demo_state ++ body) = max_iters /\
    occurrences KStep (refresh_calls 0 1 demo_state ++ body) = max_iters /\
    occurrences KSync (refresh_calls 0 1 demo_state ++ body) = max_iters /\
    occurrences KSleep (refresh_calls 0 1 demo_state ++ body) = max_iters.
Proof.
  apply (tick_runs_max_iters_passes resting_solver demo_locals demo_state 0 1).
  - exact resting_solver_succeeds.
  - exact (proj1 demo_state_consistent).
  - exact (proj2 demo_state_consistent).
  - vm_compute. reflexivity.
  - vm_compute. reflexivity.
Defined.

(** ** Claims about the tick *)

Lemma anything_lenient : lenient (fun _ => True).
Proof. intros e _ _. exact Logic.I. Qed.

Lemma preserves_inner_iteration_any solve_ik L :
  preserves (on_configurations (fun _ _ => True)) (fun _ => True)
    (inner_iteration solve_ik L).
Proof.
  apply preserves_inner_iteration_of; [exact anything_lenient|].
  intros. repeat split.
Qed.

(** The [for] loop starts with a call to the solver, whatever follows. *)
Lemma inner_loop_calls_solver solve_ik L st :
  exists rest, trace_of (inner_loop solve_ik L st) = trace st ++ CallSolveIK :: rest.
Proof.
  unfold inner_loop.
  change (for_range max_iters (inner_iteration solve_ik L))
    with (inner_iteration solve_ik L ;; for_range 19 (inner_iteration solve_ik L)).
  unfold bind at 1.
  destruct (inner_iteration_cases solve_ik L st) as [[e E]|(v & _ & _ & _ & E)]; rewrite E.
  - exists []. reflexivity.
  - destruct (preserves_for_range _ _ 19 _ (preserves_inner_iteration_any solve_ik L)
                (iteration_result L st v) Logic.I) as [(new & Et & _) _].
    cbv beta iota. rewrite Et. unfold iteration_result, iteration_calls.
    cbn [trace]. rewrite <- app_assoc. cbn [app]. eauto.
Qed.

(** No pass of the [for] loop hands a pose to a task. *)
Lemma inner_iteration_sets_no_target solve_ik L :
  preserves (fun _ => True) (fun e => kind_of e <> KSetTarget) (inner_iteration solve_ik L).
Proof.
  intros st _. split; [|auto].
  destruct (inner_iteration_cases solve_ik L st) as [[e E]|(v & _ & _ & _ & E)]; rewrite E.
  - exists [CallSolveIK]. split; [reflexivity|]. repeat constructor; discriminate.
  - exists (iteration_calls L st v). split; [reflexivity|].
    unfold iteration_calls. repeat constructor; discriminate.
Qed.

Lemma occurrences_none k tr :
  Forall (fun e => kind_of e <> k) tr -> occurrences k tr = 0%nat.
Proof.
  unfold occurrences. induction 1 as [|e tr He _ IH]; simpl; [reflexivity|].
  destruct k, (kind_of e); simpl; try exact IH; now contradiction He.
Qed.

Lemma for_range_solves solve_ik L n :
  forall st st',
    for_range n (inner_iteration solve_ik L) st = Normal tt st' ->
    exists new, trace st' = trace st ++ new /\ occurrences KSolve new = n.
Proof.
  induction n as [|n IH]; intros st st'; simpl.
  - intros H. injection H as <-. exists []. now rewrite app_nil_r.
  - unfold bind.
    destruct (inner_iteration_cases solve_ik L st) as [[e E]|(v & _ & _ & _ & E)];
      rewrite E; [discriminate|].
    intros H. destruct (IH _ _ H) as (new & Et & Hc).
    exists (iteration_calls L st v ++ new). split.
    + rewrite Et. simpl. now rewrite <- app_assoc.
    + rewrite occurrences_app, Hc. reflexivity.
Qed.

(** The [for] loop: a first call to the solver, then calls none of which
    is a [set_target]; twenty calls to the solver when it returns. *)
Lemma inner_loop_calls solve_ik L st :
  exists rest,
    trace_of (inner_loop solve_ik L st) = trace st ++ CallSolveIK :: rest /\
    Forall (fun e => kind_of e <> KSetTarget) rest /\
    (raised (inner_loop solve_ik L st) = None ->
     occurrences KSolve (CallSolveIK :: rest) = max_iters).
Proof.
  destruct (inner_loop_calls_solver solve_ik L st) as (rest & Et).
  exists rest. split; [exact Et|].
  destruct (preserves_for_range _ _ max_iters _ (inner_iteration_sets_no_target solve_ik L)
              st Logic.I) as [(new & En & Hn) _].
  fold (inner_loop solve_ik L) in En. rewrite Et in En. apply app_inv_head in En.
  subst new. split; [now inversion Hn|].
  pose proof (for_range_solves solve_ik L max_iters st) as Hc.
  fold (inner_loop solve_ik L) in Hc.
  destruct (inner_loop solve_ik L st) as [[] st'|e s tr]; [|discriminate].
  intros _. simpl in Et. destruct (Hc st' eq_refl) as (new & En & Hs). rewrite Et in En.
  apply app_inv_head in En. now subst new.
Qed.

(** C6.  On a tick, the left target pose is rebuilt and handed to the left
    end-effector task exactly when [targets_updated] is true at the start
    of the tick: once, in the head of the tick, when the flag is set, and
    not at all in the whole tick when it is not.  The flag is false
    afterwards.  The solver is called on the tick in either case: the
    first call after the head of the tick is a solve, and a tick that
    completes has made [max_iters] of them. *)
Theorem retarget_iff_targets_updated
    (solve_ik : ik_solver) (L : locals) (st : state) (id_l id_r : nat) :
  target_site_id_l (self st) = Some id_l ->
  target_site_id_r (self st) = Some id_r ->
  let st1 := refresh_result id_l id_r st in
  refresh st = Normal tt st1 /\
  occurrences KSetTarget (refresh_calls id_l id_r st)
  = (if targets_updated (self st) then 1 else 0)%nat /\
  (targets_updated (self st) = true ->
   In (CallSetTarget (frame_name (l_ee_task st))
         (from_rotation_and_translation (rot_l (self st)) (target_l (self st))))
      (refresh_calls id_l id_r st) /\
   transform_target (l_ee_task st1)
   = Some (from_rotation_and_translation (rot_l (self st)) (target_l (self st)))) /\
  (targets_updated (self st) = false -> l_ee_task st1 = l_ee_task st) /\
  targets_updated (self st1) = false /\
  exists rest,
    trace_of (tick solve_ik L st) = trace st1 ++ CallSolveIK :: rest /\
    Forall (fun e => kind_of e <> KSetTarget) rest /\
    occurrences KSetTarget (new_calls st (tick solve_ik L st))
    = (if targets_updated (self st) then 1 else 0)%nat /\
    (raised (tick solve_ik L st) = None ->
     occurrences KSolve (new_calls st (tick solve_ik L st)) = max_iters).
Proof.
  intros Hl Hr st1.
  pose proof (refresh_returns st id_l id_r Hl Hr) as E. fold st1 in E.
  destruct (refresh_calls_occurrences id_l id_r st) as (Os & _ & _ & _ & O).
  split; [exact E|]. split; [exact O|].
  assert (Etr : trace st1 = trace st ++ refresh_calls id_l id_r st) by reflexivity.
  split; [|split; [|split]].
  - intros H. subst st1. unfold refresh_result, refresh_calls. simpl. rewrite H.
    split; [right; right; now left|reflexivity].
  - intros H. subst st1. unfold refresh_result. simpl. now rewrite H.
  - subst st1. unfold refresh_result. simpl.
    destruct (targets_updated (self st)) eqn:Eu; [reflexivity|exact Eu].
  - destruct (inner_loop_calls solve_ik L st1) as (rest & Et & Hn & Hc).
    assert (Etick : tick solve_ik L st = inner_loop solve_ik L st1).
    { unfold tick, bind. now rewrite E. }
    rewrite Etick. exists rest. split; [exact Et|]. split; [exact Hn|].
    assert (Enew : new_calls st (inner_loop solve_ik L st1)
                   = refresh_calls id_l id_r st ++ CallSolveIK :: rest).
    { unfold new_calls. rewrite Et, Etr, <- app_assoc. now rewrite drop_app_length. }
    rewrite Enew, !occurrences_app, O, Os. split.
    + change (CallSolveIK :: rest) with ([CallSolveIK] ++ rest).
      rewrite occurrences_app, (occurrences_none _ _ Hn). simpl. lia.
    + intros Hret. now rewrite (Hc Hret).
Qed.

Lemma retarget_iff_targets_updated_witness :
  occurrences KSetTarget (refresh_calls 0 1 demo_state_at_x_max) = 1%nat /\
  exists rest,
    trace_of (tick failing_solver demo_locals demo_state_at_x_max)
    = trace (refresh_result 0 1 demo_state_at_x_max) ++ CallSolveIK :: rest /\
    Forall (fun e => kind_of e <> KSetTarget) rest /\
    occurrences KSetTarget (new_calls demo_state_at_x_max
                              (tick failing_solver demo_locals demo_state_at_x_max))
    = (if targets_updated (self demo_state_at_x_max) then 1 else 0)%nat /\
    (raised (tick failing_solver demo_locals demo_state_at_x_max) = None ->
     occurrences KSolve (new_calls demo_state_at_x_max
                           (tick failing_solver demo_locals demo_state_at_x_max))
     = max_iters).
Proof.
  destruct (retarget_iff_targets_updated failing_solver demo_locals demo_state_at_x_max 0 1)
    as (_ & O & _ & _ & _ & T).
  - vm_compute. reflexivity.
  - vm_compute. reflexivity.
  - split; [exact O|exact T].
Defined.

(** ** Exceptions and the listener *)

Lemma not_stop_lenient : lenient (fun e => e <> ListenerStop).
Proof. intros e _ H ->. now apply H. Qed.

Lemma preserves_inner_iteration_not_stop solve_ik L :
  preserves (on_configurations (fun _ _ => True)) (fun e => e <> ListenerStop)
    (inner_iteration solve_ik L).
Proof.
  apply preserves_inner_iteration_of; [exact not_stop_lenient|].
  intros. repeat split; discriminate.
Qed.

Lemma Forall_not_In {A} (a : A) l : Forall (fun x => x <> a) l -> ~ In a l.
Proof.
  intros H Hin. rewrite Forall_forall in H. apply list_elem_of_In in Hin.
  exact (H _ Hin eq_refl).
Qed.

(** C7, as the code has it.  [run] stops the mouse listener exactly when
    the [while] loop ends because the viewer was closed: then the stop is
    the last call before the viewer block is left.  When [run] is left by
    an exception, raised before or during the loop, the listener is not
    stopped. *)
Theorem listener_stopped_only_on_normal_exit
    (solve_ik : ik_solver) (model : MjModel) (data : MjData)
    (sched : list (list input_event)) (s : AlohaMocapControl) (tr : list event) :
  match run solve_ik model data sched s tr with
  | Normal _ st' =>
      exists new, trace st' = tr ++ new ++ [ListenerStop; ViewerClose] /\
                  ~ In ListenerStop new
  | Raised _ _ tr' =>
      exists new, tr' = tr ++ new /\ ~ In ListenerStop new
  end.
Proof.
  unfold run. destruct (setup model data) as [e|[[[[L lc] rc] lt] rt]].
  - exists []. rewrite app_nil_r. split; [reflexivity|intros []].
  - set (st := mk_state s lc rc lt rt tr).
    pose proof (run_loop_outcome solve_ik model L sched st) as Ho.
    destruct (preserves_viewer_block (fun _ _ => True) _ not_stop_lenient solve_ik L
                (preserves_inner_iteration_not_stop solve_ik L) model sched
                (with_trace (trace st ++ [ViewerLaunch]) st) Logic.I)
      as [(new & Et & Hn) _].
    apply Forall_not_In in Hn.
    destruct (viewer_block solve_ik model L sched _) as [[] st1|e s1 tr1]; rewrite Ho;
      simpl in Et.
    + exists (ViewerLaunch :: new). simpl. rewrite Et, <- !app_assoc. simpl.
      split; [reflexivity|]. intros [H|H]; [discriminate|auto].
    + exists (ViewerLaunch :: new ++ [ViewerClose]). rewrite Et, <- !app_assoc. simpl.
      split; [reflexivity|]. intros [H|H]; [discriminate|].
      apply in_app_or in H. destruct H as [H|[H|[]]]; [auto|discriminate].
Qed.

(** The claim as stated fails: when the solver raises on the first tick,
    [run] is left without the listener having been stopped. *)
Lemma listener_not_stopped_on_exception :
  ~ listener_stopped_on_exit failing_solver demo_model demo_data [[]] demo_self
      [ListenerStart].
Proof.
  unfold listener_stopped_on_exit. vm_compute. intuition discriminate.
Qed.

(** A run in which nothing raises does return. *)
Lemma run_returns_in_demo :
  exists st', run resting_solver demo_model demo_data [[Scroll 0 0 1 0]; []] demo_self
                [ListenerStart] = Normal tt st'.
Proof. vm_compute. eauto. Qed.

Lemma for_range_add j k (body : M unit) st :
  for_range (j + k) body st = (for_range j body ;; for_range k body) st.
Proof.
  revert st. induction j as [|j IH]; intros st; simpl; [reflexivity|].
  unfold bind. destruct (body st) as [[] st1|e s tr]; [|reflexivity].
  rewrite IH. reflexivity.
Qed.

Lemma while_running_app solve_ik L done rest st :
  while_running solve_ik L (done ++ rest) st
  = (while_running solve_ik L done ;; while_running solve_ik L rest) st.
Proof.
  revert st. induction done as [|evs done IH]; intros st; simpl; [reflexivity|].
  unfold bind, modify. destruct (tick solve_ik L _) as [[] st1|e s tr]; [|reflexivity].
  rewrite IH. reflexivity.
Qed.

(** C1, as the code has it.  When the call to the solver raises, on
    whichever pass of the [for] loop of whichever tick, the pass ends there
    and then with that exception: no velocity, zero or other, is
    integrated or written, no physics step is made, and the exception
    leaves the [for] loop and the [while] loop, skipping the rest of both
    and the stop of the listener.  Here [k] passes of the tick have
    completed before the one that fails, and [done] lists the ticks
    completed before this one. *)
Theorem solver_fault_propagates
    (solve_ik : ik_solver) (L : locals) (st0 st : state) (k : nat) (e : exn)
    (rest : list (list input_event)) :
  (k < max_iters)%nat ->
  for_range k (inner_iteration solve_ik L) st0 = Normal tt st ->
  solve_ik (trace st) (left_configuration st) [l_ee_task st] rate_dt solver
    (limits L) damping = inl e ->
  inner_iteration solve_ik L st = Raised e (self st) (trace st ++ [CallSolveIK]) /\
  inner_loop solve_ik L st0 = Raised e (self st) (trace st ++ [CallSolveIK]) /\
  (inner_loop solve_ik L ;; while_running solve_ik L rest ;; call ListenerStop) st0
  = Raised e (self st) (trace st ++ [CallSolveIK]) /\
  forall (done : list (list input_event)) (evs : list input_event) (st_start st_done : state),
    while_running solve_ik L done st_start = Normal tt st_done ->
    refresh (with_self (dispatch_all (self st_done) evs) st_done) = Normal tt st0 ->
    tick solve_ik L (with_self (dispatch_all (self st_done) evs) st_done)
    = Raised e (self st) (trace st ++ [CallSolveIK]) /\
    while_running solve_ik L (done ++ evs :: rest) st_start
    = Raised e (self st) (trace st ++ [CallSolveIK]) /\
    (while_running solve_ik L (done ++ evs :: rest) ;; call ListenerStop) st_start
    = Raised e (self st) (trace st ++ [CallSolveIK]).
Proof.
  intros Hk Hpre Hs. pose proof (inner_iteration_raises solve_ik L st e Hs) as E.
  assert (inner_loop solve_ik L st0 = Raised e (self st) (trace st ++ [CallSolveIK])) as El.
  { unfold inner_loop. replace max_iters with (k + S (max_iters - S k))%nat by lia.
    rewrite for_range_add. unfold bind at 1. rewrite Hpre.
    cbn [for_range]. unfold bind at 1. now rewrite E. }
  split; [exact E|]. split; [exact El|]. split.
  { unfold bind at 1. now rewrite El. }
  intros done evs st_start st_done Hdone Hhead.
  assert (tick solve_ik L (with_self (dispatch_all (self st_done) evs) st_done)
          = Raised e (self st) (trace st ++ [CallSolveIK])) as Et.
  { unfold tick, bind. now rewrite Hhead. }
  assert (while_running solve_ik L (done ++ evs :: rest) st_start
          = Raised e (self st) (trace st ++ [CallSolveIK])) as Ew.
  { rewrite while_running_app. unfold bind at 1. rewrite Hdone.
    cbn [while_running]. unfold bind at 1. unfold modify.
    unfold bind at 1. now rewrite Et. }
  split; [exact Et|]. split; [exact Ew|]. unfold bind. now rewrite Ew.
Qed.

Lemma solver_fault_propagates_witness :
  inner_loop (fails_after 2) demo_locals demo_state
  = Raised NoSolutionFound (self demo_state_after_two)
      (trace demo_state_after_two ++ [CallSolveIK]).
Proof.
  refine (proj1 (proj2 (solver_fault_propagates (fails_after 2) demo_locals demo_state
                         demo_state_after_two 2 NoSolutionFound [] _ _ _))).
  - unfold max_iters. lia.
  - vm_compute. reflexivity.
  - vm_compute. reflexivity.
Defined.

(** The claim as stated fails: with a solver that reports no solution, the
    pass does not complete with a zero velocity. *)
Lemma no_zero_velocity_fallback :
  ~ zero_velocity_fallback failing_solver demo_locals demo_state.
Proof.
  intros H. destruct (H NoSolutionFound eq_refl) as (st' & E & _).
  rewrite (inner_iteration_raises failing_solver demo_locals demo_state
             NoSolutionFound eq_refl) in E.
  discriminate E.
Qed.

(** ** The listener thread against the head of a tick *)

Lemma exec_callback_body s ev : exec (callback_body ev) s = dispatch s ev.
Proof. destruct ev; reflexivity. Qed.

Lemma dispatch_site_ids s ev :
  target_site_id_l (dispatch s ev) = target_site_id_l s /\
  target_site_id_r (dispatch s ev) = target_site_id_r s.
Proof.
  destruct ev as [x y dx dy|x y button pressed];
    unfold dispatch, on_scroll, on_scroll_body, on_scroll_horizontal, on_scroll_vertical,
      on_click, on_click_body;
    callback_cases; split; reflexivity.
Qed.

Lemma new_calls_normal {A} st (a : A) st' new :
  trace st' = trace st ++ new -> new_calls st (Normal a st') = new.
Proof.
  intros E. unfold new_calls. simpl. rewrite E. now rewrite drop_app_length.
Qed.

Lemma poses_set_refresh_calls id_l id_r st :
  poses_set (refresh_calls id_l id_r st)
  = if targets_updated (self st) then [pose_of (self st)] else [].
Proof. unfold refresh_calls. destruct (targets_updated (self st)); reflexivity. Qed.

(** With the schedule used up at once, the callback runs first and the
    head of the tick after it. *)
Lemma interleave_callback_first body p st :
  interleave [] body p st = run_prog p (with_self (exec body (self st)) st).
Proof. reflexivity. Qed.

(** With five steps of the control thread first, the head of the tick runs
    before the callback. *)
Lemma interleave_control_first body st id_l id_r :
  target_site_id_l (self st) = Some id_l ->
  target_site_id_r (self st) = Some id_r ->
  interleave (repeat ControlThread 5) body refresh_prog st
  = Normal tt (with_self (exec body (self (refresh_result id_l id_r st)))
                 (refresh_result id_l id_r st)).
Proof.
  intros Hl Hr. unfold refresh_result, refresh_calls.
  cbn [repeat interleave refresh_prog].
  unfold control_gripper_call, control_gripper, retarget_left, update_target_sites_call,
    update_target_sites, clear_updated, bind, get, call, modify, ret.
  simpl. destruct (targets_updated (self st)) eqn:Eu.
  - simpl. rewrite Hl, Hr. simpl. unfold gripper_calls, site_calls, pose_of, with_self.
    simpl. rewrite <- !app_assoc. reflexivity.
  - simpl. unfold gripper_calls, with_self. simpl. rewrite <- !app_assoc. reflexivity.
Qed.

(** C9, as the code has it.  The attributes are read and written without
    a lock.  When the callback is not interleaved with the head of the tick
    -- it runs wholly before it, or wholly after it -- the pose the tick
    hands to the task is the target pose after the callback, or before
    it. *)
Theorem snapshot_consistent_without_interleaving
    (ev : input_event) (st : state) (id_l id_r : nat) :
  target_site_id_l (self st) = Some id_l ->
  target_site_id_r (self st) = Some id_r ->
  consistent_snapshot [] ev st /\
  consistent_snapshot (repeat ControlThread 5) ev st.
Proof.
  intros Hl Hr. split; intros pose Hin.
  - right. rewrite interleave_callback_first, exec_callback_body in Hin.
    destruct (dispatch_site_ids (self st) ev) as [Dl Dr].
    set (st1 := with_self (dispatch (self st) ev) st) in Hin.
    change (run_prog refresh_prog) with refresh in Hin.
    rewrite (refresh_returns st1 id_l id_r) in Hin
      by (subst st1; simpl; congruence).
    rewrite (new_calls_normal st tt _ (refresh_calls id_l id_r st1)) in Hin by reflexivity.
    rewrite poses_set_refresh_calls in Hin. subst st1. simpl in Hin.
    destruct (targets_updated (dispatch (self st) ev)); simpl in Hin; intuition.
  - left. rewrite (interleave_control_first _ st id_l id_r Hl Hr) in Hin.
    rewrite (new_calls_normal st tt _ (refresh_calls id_l id_r st)) in Hin by reflexivity.
    rewrite poses_set_refresh_calls in Hin.
    destruct (targets_updated (self st)); simpl in Hin; intuition.
Qed.

Lemma snapshot_consistent_without_interleaving_witness :
  consistent_snapshot [] (Scroll 0 0 1 0) demo_state_at_x_max /\
  consistent_snapshot (repeat ControlThread 5) (Scroll 0 0 1 0) demo_state_at_x_max.
Proof.
  apply (snapshot_consistent_without_interleaving (Scroll 0 0 1 0) demo_state_at_x_max 0 1).
  - vm_compute. reflexivity.
  - vm_compute. reflexivity.
Defined.

(** The claim as stated fails.  Start a tick with the target X at [x_max]
    and let a scroll to the right arrive: if the listener thread has made
    the first assignment of [on_scroll] (line 74) when the control thread
    runs lines 183-190, the tick hands the task a pose whose X is
    [x_max + 0.01], which is the target neither before nor after the
    callback, and lies outside the box. *)
Lemma torn_snapshot :
  ~ consistent_snapshot torn_schedule (Scroll 0 0 1 0) demo_state_at_x_max.
Proof.
  intros H. specialize (H pose_beyond_x_max).
  assert ((pose_x pose_beyond_x_max <=? 0.4) = false) as Hx by (vm_compute; reflexivity).
  destruct H as [H|H].
  - vm_compute. left. reflexivity.
  - rewrite H in Hx. vm_compute in Hx. discriminate Hx.
  - rewrite H in Hx. vm_compute in Hx. discriminate Hx.
Qed.

(** ** A run in which nothing raises *)

Lemma dispatch_all_site_ids evs :
  forall s,
    target_site_id_l (dispatch_all s evs) = target_site_id_l s /\
    target_site_id_r (dispatch_all s evs) = target_site_id_r s.
Proof.
  induction evs as [|ev evs IH]; intros s; simpl; [tauto|].
  destruct (IH (dispatch s ev)) as [-> ->]. apply dispatch_site_ids.
Qed.

Lemma passes_self L vs : forall st, self (passes L st vs) = self st.
Proof. induction vs as [|v vs IH]; intros st; simpl; [reflexivity|]. now rewrite IH. Qed.

Lemma refresh_result_site_ids id_l id_r st :
  target_site_id_l (self (refresh_result id_l id_r st)) = target_site_id_l (self st) /\
  target_site_id_r (self (refresh_result id_l id_r st)) = target_site_id_r (self st).
Proof. unfold refresh_result. simpl. destruct (targets_updated (self st)); split; reflexivity. Qed.

Section RunReturns.

Variable solve_ik : ik_solver.
Variable L : locals.
Hypothesis solver_succeeds : succeeds solve_ik L.

Lemma tick_returns id_l id_r st :
  ready id_l id_r st ->
  exists st', tick solve_ik L st = Normal tt st' /\ ready id_l id_r st'.
Proof.
  intros (Hl & Hr & Hidl & Hidr).
  destruct (for_range_inner_iteration_returns solve_ik L solver_succeeds max_iters
              (refresh_result id_l id_r st) Hl Hr) as (vs & _ & E & Hl' & Hr').
  exists (passes L (refresh_result id_l id_r st) vs). split.
  - unfold tick, bind. rewrite (refresh_returns st id_l id_r Hidl Hidr). exact E.
  - destruct (refresh_result_site_ids id_l id_r st) as [El Er].
    unfold ready. rewrite passes_self, El, Er. tauto.
Qed.

Lemma while_running_returns id_l id_r sched :
  forall st, ready id_l id_r st ->
             exists st', while_running solve_ik L sched st = Normal tt st'.
Proof.
  induction sched as [|evs rest IH]; intros st Hst; simpl.
  - exists st. reflexivity.
  - unfold bind at 1. unfold modify.
    destruct (tick_returns id_l id_r (with_self (dispatch_all (self st) evs) st))
      as (st1 & E & Hst1).
    { destruct Hst as (Hl & Hr & Hidl & Hidr).
      destruct (dispatch_all_site_ids evs (self st)) as [El Er].
      unfold ready. simpl. rewrite El, Er. tauto. }
    unfold bind at 1. rewrite E. apply IH, Hst1.
Qed.

Lemma viewer_block_returns model sched st id_l id_r :
  site model !! "aloha_scene/target" = Some id_l ->
  site model !! "aloha_scene/target2" = Some id_r ->
  consistent (left_configuration st) -> consistent (right_configuration st) ->
  exists st', viewer_block solve_ik model L sched st = Normal tt st'.
Proof.
  intros Hsl Hsr Hl Hr.
  unfold viewer_block, add_target_sites, update_target_sites_call, update_target_sites,
    retarget_left, retarget_right, resolve.
  rewrite Hsl, Hsr.
  unfold bind, call, modify, get, lift, ret, attribute. simpl.
  apply (while_running_returns id_l id_r). unfold ready. simpl. tauto.
Qed.

End RunReturns.

(** When the names resolve and the solver returns on every call, [run]
    runs until the viewer is closed and then returns. *)
Lemma run_returns solve_ik model data sched s tr L lc rc lt rt id_l id_r :
  setup model data = inr (L, lc, rc, lt, rt) ->
  site model !! "aloha_scene/target" = Some id_l ->
  site model !! "aloha_scene/target2" = Some id_r ->
  succeeds solve_ik L ->
  exists st', run solve_ik model data sched s tr = Normal tt st'.
Proof.
  intros Es Hsl Hsr Hs. unfold run. rewrite Es.
  destruct (setup_inr _ _ _ _ _ _ _ Es) as (_ & _ & _ & Hl & Hr).
  set (st := mk_state s lc rc lt rt tr).
  pose proof (run_loop_outcome solve_ik model L sched st) as Ho.
  destruct (viewer_block_returns solve_ik L Hs model sched
              (with_trace (trace st ++ [ViewerLaunch]) st) id_l id_r Hsl Hsr Hl Hr)
    as (st' & E).
  rewrite E in Ho. eauto.
Qed.

(** What [__init__] returns is [init_attributes] at the two actuator ids. *)
Lemma init_returns model s :
  __init__ model = inr s ->
  exists left_id right_id,
    actuator model !! "aloha_scene/aloha_gripper_left/gripper_actuator" = Some left_id /\
    actuator model !! "aloha_scene/aloha_gripper_right/gripper_actuator" = Some right_id /\
    s = init_attributes left_id right_id.
Proof.
  unfold __init__, resolve.
  destruct (actuator model !! _) as [l|]; [|discriminate].
  destruct (actuator model !! _) as [r|]; [|discriminate].
  intros H. injection H as <-. eauto.
Qed.

(** * Properties beyond the claims *)

(** ** What the callbacks read of an event *)

Lemma on_scroll_body_sign x y dx dy :
  on_scroll_body x y dx dy = on_scroll_body 0 0 (Z.sgn dx) (Z.sgn dy).
Proof.
  unfold on_scroll_body, on_scroll_horizontal, on_scroll_vertical.
  destruct dx, dy; reflexivity.
Qed.

Lemma dispatch_essential s ev :
  dispatch s ev = match essential ev with Some ev' => dispatch s ev' | None => s end.
Proof.
  destruct ev as [x y dx dy|x y button pressed]; simpl.
  - unfold on_scroll. now rewrite on_scroll_body_sign.
  - destruct pressed; [|reflexivity]. destruct button; reflexivity.
Qed.

(** X1.  The callbacks read only the signs of the scroll deltas and the
    button of a press: pointer positions, the size of a scroll delta,
    releases and the identity of a button other than left or right have no
    effect on the controller, whatever the sequence of events. *)
Theorem callbacks_read_signs_only (s : AlohaMocapControl) (evs : list input_event) :
  dispatch_all s evs = dispatch_all s (omap essential evs).
Proof.
  revert s. induction evs as [|ev evs IH]; intros s; simpl; [reflexivity|].
  rewrite dispatch_essential. destruct (essential ev) as [ev'|]; simpl; apply IH.
Qed.

(** X2.  A scroll callback and a click callback commute: they move
    different coordinates, and either order leaves the same controller. *)
Theorem scroll_and_click_commute
    (s : AlohaMocapControl) (x y dx dy x' y' : Z) (button : mouse.Button) (pressed : bool) :
  on_click (on_scroll s x y dx dy) x' y' button pressed
  = on_scroll (on_click s x' y' button pressed) x y dx dy.
Proof.
  destruct s.
  unfold on_scroll, on_scroll_body, on_scroll_horizontal, on_scroll_vertical,
    on_click, on_click_body.
  callback_cases; vm_compute; reflexivity.
Qed.

(** ** The clamp inside the box *)

Lemma SFcompare_Eq_finite a s m e :
  SFcompare a (S754_finite s m e) = Some Eq -> a = S754_finite s m e.
Proof.
  destruct a as [?|[]| |sa ma ea]; simpl; try destruct s; try discriminate.
  all: destruct sa; try discriminate.
  all: change (Pos.compare_cont Eq ma m) with (Pos.compare ma m).
  all: destruct (Z.compare_spec ea e) as [->|?|?]; try discriminate.
  all: destruct (Pos.compare_spec ma m) as [->|?|?]; try discriminate; reflexivity.
Qed.

(** Two values that compare equal are the same value when one of them is
    finite and not a zero. *)
Lemma leb_not_ltb_eq a b :
  nonzero_finite b = true -> (a <=? b) = true -> (a <? b) = false -> a = b.
Proof.
  unfold nonzero_finite. rewrite FloatAxioms.leb_spec, FloatAxioms.ltb_spec.
  unfold SFleb, SFltb. intros Hb Hle Hlt. apply Prim2SF_inj.
  destruct (Prim2SF b) as [?|?| |s m e] eqn:Eb; try discriminate.
  apply SFcompare_Eq_finite. destruct (SFcompare _ _) as [[]|]; congruence.
Qed.

Lemma SFcompare_finite_Eq a s m e :
  SFcompare (S754_finite s m e) a = Some Eq -> a = S754_finite s m e.
Proof.
  destruct a as [?|[]| |sa ma ea]; simpl; try destruct s; try discriminate.
  all: destruct sa; try discriminate.
  all: change (Pos.compare_cont Eq m ma) with (Pos.compare m ma).
  all: destruct (Z.compare_spec e ea) as [<-|?|?]; try discriminate.
  all: destruct (Pos.compare_spec m ma) as [<-|?|?]; try discriminate; reflexivity.
Qed.

Lemma leb_not_ltb_eq_l a b :
  nonzero_finite a = true -> (a <=? b) = true -> (a <? b) = false -> a = b.
Proof.
  unfold nonzero_finite. rewrite FloatAxioms.leb_spec, FloatAxioms.ltb_spec.
  unfold SFleb, SFltb. intros Ha Hle Hlt. apply Prim2SF_inj.
  destruct (Prim2SF a) as [?|?| |s m e] eqn:Ea; try discriminate.
  symmetry. apply SFcompare_finite_Eq. destruct (SFcompare _ _) as [[]|]; congruence.
Qed.

(** Between bounds that are finite and not zero, the clip is the identity. *)
Lemma np_clip_inside x lo hi :
  nonzero_finite lo = true -> nonzero_finite hi = true ->
  within lo hi x = true -> np_clip x lo hi = x.
Proof.
  intros Hlo Hhi Hx. pose proof (within_not_nan _ _ _ Hx) as Hn.
  unfold within in Hx. apply andb_true_iff in Hx. destruct Hx as [H1 H2].
  unfold np_clip, npy_max, npy_min. rewrite Hn.
  destruct (lo <? x) eqn:E1.
  - rewrite Hn. destruct (x <? hi) eqn:E2; [reflexivity|].
    symmetry. now apply leb_not_ltb_eq.
  - assert (lo = x) as <- by now apply leb_not_ltb_eq_l.
    rewrite Hn. destruct (lo <? hi) eqn:E2; [reflexivity|].
    symmetry. now apply leb_not_ltb_eq.
Qed.

Lemma reachable_inside (left_id right_id : nat) (evs : list input_event) (c : coordinate) :
  let s := dispatch_all (init_attributes left_id right_id) evs in
  np_clip (value c s) (lower c s) (upper c s) = value c s.
Proof.
  intros s.
  destruct (dispatch_all_invariant evs _ (init_configured left_id right_id)
              (init_in_box left_id right_id)) as [Hc Hb].
  fold s in Hc, Hb. clearbody s.
  destruct Hc as (Hx0 & Hx1 & Hy0 & Hy1 & Hz0 & Hz1 & _).
  unfold in_box in Hb. rewrite !andb_true_iff in Hb.
  destruct Hb as ((((Bx & By) & Bz) & Bl) & Br).
  destruct c; simpl; rewrite ?Hx0, ?Hx1, ?Hy0, ?Hy1, ?Hz0, ?Hz1;
    apply np_clip_inside; auto.
Qed.

(** X3.  In a state the callbacks can reach, an event changes only the
    coordinates it steps: every other coordinate among the target X, Y, Z
    and the two gripper positions keeps its value exactly, because the
    clamp every callback applies is the identity inside the box.  In
    particular an event that steps nothing (a scroll with both deltas
    zero, a press of the middle button) only sets the dirty flag. *)
Theorem event_changes_only_what_it_steps
    (left_id right_id : nat) (evs : list input_event) (ev : input_event) (c : coordinate) :
  steps ev c = false ->
  let s := dispatch_all (init_attributes left_id right_id) evs in
  value c (dispatch s ev) = value c s.
Proof.
  intros Hst s.
  pose proof (reachable_inside left_id right_id evs) as Hin. fold s in Hin.
  clearbody s.
  pose proof (Hin TargetX) as Ix. pose proof (Hin TargetY) as Iy.
  pose proof (Hin TargetZ) as Iz. pose proof (Hin LeftGripper) as Il.
  pose proof (Hin RightGripper) as Ir. clear Hin.
  destruct s as [[tx ty tz] tr rl rr u ? ? ? ? ? ? d lid rid gl gr sl sr].
  simpl in Ix, Iy, Iz, Il, Ir.
  destruct ev as [x y dx dy|x y button pressed].
  - unfold dispatch, on_scroll, on_scroll_body, on_scroll_horizontal, on_scroll_vertical.
    destruct c; simpl in Hst; apply negb_false_iff in Hst || idtac;
      try (apply Z.eqb_eq in Hst; subst); simpl;
      callback_cases; simpl; assumption || reflexivity.
  - unfold dispatch, on_click, on_click_body.
    destruct c, pressed, button; simpl in Hst; try discriminate; simpl;
      assumption || reflexivity.
Qed.

Lemma event_changes_only_what_it_steps_witness :
  value TargetY (dispatch (init_attributes 0 1) (Scroll 3 4 5 0))
  = value TargetY (init_attributes 0 1).
Proof.
  exact (event_changes_only_what_it_steps 0 1 [] (Scroll 3 4 5 0) TargetY eq_refl).
Defined.

(** ** The gripper adapter *)

Lemma np_clip_nan x lo hi : is_nan x = true -> np_clip x lo hi = x.
Proof. intros H. unfold np_clip, npy_max, npy_min. now rewrite H, H. Qed.

(** X4.  [control_gripper] makes exactly two writes, to the left and then
    the right gripper actuator, and changes nothing else.  Each value
    written lies in [0.002, 0.037] whenever the command is not a NaN, also
    for an infinite command; a NaN command is written as it is. *)
Theorem control_gripper_clamps (left_gripper_position right_gripper_position : float)
    (st : state) :
  exists l r,
    control_gripper left_gripper_position right_gripper_position st
    = Normal tt
        (with_trace (trace st ++ [SetCtrl [left_gripper_actuator_id (self st)] [l];
                                  SetCtrl [right_gripper_actuator_id (self st)] [r]]) st) /\
    (if is_nan left_gripper_position then l = left_gripper_position
     else within 0.002 0.037 l = true) /\
    (if is_nan right_gripper_position then r = right_gripper_position
     else within 0.002 0.037 r = true).
Proof.
  exists (np_clip left_gripper_position 0.002 0.037),
    (np_clip right_gripper_position 0.002 0.037).
  split.
  - unfold control_gripper, bind, get, call, modify, with_trace. simpl.
    rewrite <- app_assoc. reflexivity.
  - split.
    + destruct (is_nan left_gripper_position) eqn:E;
        [now apply np_clip_nan|now apply np_clip_within].
    + destruct (is_nan right_gripper_position) eqn:E;
        [now apply np_clip_nan|now apply np_clip_within].
Qed.

(** ** Names that do not resolve *)

Lemma comprehension_inl {A B} (f : A -> exn + B) l e :
  comprehension f l = inl e -> exists a, In a l /\ f a = inl e.
Proof.
  induction l as [|a l IH]; simpl; [discriminate|].
  destruct (f a) as [e'|b] eqn:Ea.
  - intros H. injection H as <-. eauto.
  - destruct (comprehension f l) as [e'|bs]; [|discriminate].
    intros H. injection H as <-. destruct IH as (a' & Hin & Ha'); eauto.
Qed.

Lemma comprehension_total {A B} (f : A -> exn + B) l :
  (forall a, In a l -> exists b, f a = inr b) -> exists bs, comprehension f l = inr bs.
Proof.
  induction l as [|a l IH]; simpl; intros H; [eauto|].
  destruct (H a (or_introl eq_refl)) as (b & ->).
  destruct IH as (bs & ->); eauto.
Qed.

Lemma resolve_inl table name e :
  resolve table name = inl e -> e = KeyError name /\ table !! name = None.
Proof. unfold resolve. destruct (table !! name); [discriminate|]. intros [= <-]. auto. Qed.

(** [setup] fails only with the [KeyError] of an arm joint name that the
    joint table or the actuator table lacks. *)
Lemma setup_inl model data e :
  setup model data = inl e ->
  exists name, In name arm_joint_names /\ e = KeyError name /\
               (joint model !! name = None \/ actuator model !! name = None).
Proof.
  unfold setup, arm_joint_names. destruct name_loop_value as (vl & -> & _).
  destruct (comprehension (resolve (joint model))
              (map (fun n => "aloha_scene/left_" +:+ n) _JOINT_NAMES))
    as [e1|l_dof] eqn:E1.
  { intros H. injection H as <-. apply comprehension_inl in E1.
    destruct E1 as (name & Hin & Hr). apply resolve_inl in Hr. destruct Hr as [-> Hn].
    exists name. rewrite in_app_iff. auto. }
  destruct (comprehension (resolve (actuator model))
              (map (fun n => "aloha_scene/left_" +:+ n) _JOINT_NAMES))
    as [e2|l_act] eqn:E2.
  { intros H. injection H as <-. apply comprehension_inl in E2.
    destruct E2 as (name & Hin & Hr). apply resolve_inl in Hr. destruct Hr as [-> Hn].
    exists name. rewrite in_app_iff. auto. }
  destruct (comprehension (resolve (joint model))
              (map (fun n => "aloha_scene/right_" +:+ n) _JOINT_NAMES))
    as [e3|r_dof] eqn:E3.
  { intros H. injection H as <-. apply comprehension_inl in E3.
    destruct E3 as (name & Hin & Hr). apply resolve_inl in Hr. destruct Hr as [-> Hn].
    exists name. rewrite in_app_iff. auto. }
  destruct (comprehension (resolve (actuator model))
              (map (fun n => "aloha_scene/right_" +:+ n) _JOINT_NAMES))
    as [e4|r_act] eqn:E4.
  { intros H. injection H as <-. apply comprehension_inl in E4.
    destruct E4 as (name & Hin & Hr). apply resolve_inl in Hr. destruct Hr as [-> Hn].
    exists name. rewrite in_app_iff. auto. }
  discriminate.
Qed.

(** [setup] succeeds when every arm joint name is in both tables. *)
Lemma setup_total model data :
  (forall name, In name arm_joint_names ->
                is_Some (joint model !! name) /\ is_Some (actuator model !! name)) ->
  exists r, setup model data = inr r.
Proof.
  intros H. unfold setup. destruct name_loop_value as (vl & -> & _).
  assert (forall table names,
             (forall name, In name names -> is_Some (table !! name)) ->
             exists ids, comprehension (resolve table) names = inr ids) as Hc.
  { intros table names Hn. apply comprehension_total. intros name Hin.
    destruct (Hn name Hin) as [id Hid]. exists id. unfold resolve. now rewrite Hid. }
  unfold arm_joint_names in H.
  destruct (Hc (joint model) (map (fun n => "aloha_scene/left_" +:+ n) _JOINT_NAMES))
    as (? & ->); [intros n Hn; apply H, in_app_iff; auto|].
  destruct (Hc (actuator model) (map (fun n => "aloha_scene/left_" +:+ n) _JOINT_NAMES))
    as (? & ->); [intros n Hn; apply H, in_app_iff; auto|].
  destruct (Hc (joint model) (map (fun n => "aloha_scene/right_" +:+ n) _JOINT_NAMES))
    as (? & ->); [intros n Hn; apply H, in_app_iff; auto|].
  destruct (Hc (actuator model) (map (fun n => "aloha_scene/right_" +:+ n) _JOINT_NAMES))
    as (? & ->); [intros n Hn; apply H, in_app_iff; auto|].
  eauto.
Qed.

Lemma comprehension_inr_all {A B} (f : A -> exn + B) l bs :
  comprehension f l = inr bs -> forall a, In a l -> exists b, f a = inr b.
Proof.
  revert bs. induction l as [|a l IH]; simpl; intros bs H a' Hin; [contradiction|].
  destruct (f a) as [e|b] eqn:Ea; [discriminate|].
  destruct (comprehension f l) as [e|bs'] eqn:El; [discriminate|].
  destruct Hin as [<-|Hin]; eauto.
Qed.

(** When [setup] succeeds, every arm joint name is in both tables. *)
Lemma setup_inr_resolves model data r :
  setup model data = inr r ->
  forall name, In name arm_joint_names ->
               is_Some (joint model !! name) /\ is_Some (actuator model !! name).
Proof.
  unfold setup, arm_joint_names. destruct name_loop_value as (vl & -> & _).
  destruct (comprehension (resolve (joint model))
              (map (fun n => "aloha_scene/left_" +:+ n) _JOINT_NAMES))
    as [?|l_dof] eqn:E1; [discriminate|].
  destruct (comprehension (resolve (actuator model))
              (map (fun n => "aloha_scene/left_" +:+ n) _JOINT_NAMES))
    as [?|l_act] eqn:E2; [discriminate|].
  destruct (comprehension (resolve (joint model))
              (map (fun n => "aloha_scene/right_" +:+ n) _JOINT_NAMES))
    as [?|r_dof] eqn:E3; [discriminate|].
  destruct (comprehension (resolve (actuator model))
              (map (fun n => "aloha_scene/right_" +:+ n) _JOINT_NAMES))
    as [?|r_act] eqn:E4; [discriminate|].
  intros _ name Hin. apply in_app_iff in Hin.
  assert (forall table names ids,
             comprehension (resolve table) names = inr ids ->
             In name names -> is_Some (table !! name)) as Hc.
  { intros table names ids Hcomp Hname.
    destruct (comprehension_inr_all _ _ _ Hcomp name Hname) as (id & Hid).
    apply resolve_inr in Hid. now exists id. }
  destruct Hin as [Hin|Hin]; split; eauto.
Qed.

(** X5.  [run] resolves the six joint names of each arm in the model's
    joint table and actuator table before it opens the viewer.  If one of
    these twelve names is missing from either table, [run] raises the
    [KeyError] of a missing name without having made any call: the viewer
    is never launched, and the listener started by [__init__] is not
    stopped. *)
Theorem run_aborts_on_missing_name
    (solve_ik : ik_solver) (model : MjModel) (data : MjData)
    (sched : list (list input_event)) (s : AlohaMocapControl) (tr : list event) :
  (exists name, In name arm_joint_names /\
                (joint model !! name = None \/ actuator model !! name = None)) ->
  exists name,
    In name arm_joint_names /\
    (joint model !! name = None \/ actuator model !! name = None) /\
    run solve_ik model data sched s tr = Raised (KeyError name) s tr.
Proof.
  intros (missing & Hin & Hmiss). unfold run.
  destruct (setup model data) as [e|r] eqn:Es.
  - destruct (setup_inl model data e Es) as (name & Hn & -> & Hm). eauto.
  - exfalso. destruct (setup_inr_resolves model data r Es missing Hin) as [[? Hj] [? Ha]].
    destruct Hmiss; congruence.
Qed.

Lemma run_aborts_on_missing_name_witness :
  exists name,
    In name arm_joint_names /\
    (joint empty_model !! name = None \/ actuator empty_model !! name = None) /\
    run failing_solver empty_model demo_data [[]] demo_self [ListenerStart]
    = Raised (KeyError name) demo_self [ListenerStart].
Proof.
  apply run_aborts_on_missing_name.
  exists "aloha_scene/left_waist". split; [now left|]. left. reflexivity.
Defined.

(** ** A rule for properties of every call of [run] *)

Section RunRule.

Variable solve_ik : ik_solver.
Variable L : locals.
Variable I : state -> Prop.
Variable P : event -> Prop.

Hypothesis I_trace : ignores_trace I.
Hypothesis I_site_id_l :
  forall st id, I st -> I (with_self (set_target_site_id_l id (self st)) st).
Hypothesis I_site_id_r :
  forall st id, I st -> I (with_self (set_target_site_id_r id (self st)) st).
Hypothesis I_clear :
  forall st, I st -> I (with_self (set_targets_updated false (self st)) st).
Hypothesis I_events :
  forall st evs, I st -> I (with_self (dispatch_all (self st) evs) st).
Hypothesis I_left :
  forall st, I st -> I (with_l_ee_task (set_target (l_ee_task st) (pose_of (self st))) st).
Hypothesis I_right :
  forall st, I st ->
    I (with_r_ee_task
         (set_target (r_ee_task st)
            (from_rotation_and_translation (rot_r (self st)) (target_r (self st)))) st).
Hypothesis P_gripper : forall st, I st -> Forall P (gripper_calls (self st)).
Hypothesis P_sites : forall st id_l id_r, I st -> Forall P (site_calls id_l id_r (self st)).
Hypothesis P_left :
  forall st, I st -> P (CallSetTarget (frame_name (l_ee_task st)) (pose_of (self st))).
Hypothesis P_right :
  forall st, I st ->
    P (CallSetTarget (frame_name (r_ee_task st))
         (from_rotation_and_translation (rot_r (self st)) (target_r (self st)))).
Hypothesis P_camera : P DefaultFreeCamera.
Hypothesis P_forward : P MjForward.
Hypothesis P_solve : P CallSolveIK.
Hypothesis pass :
  forall st v,
    I st ->
    solve_ik (trace st) (left_configuration st) [l_ee_task st] rate_dt solver
      (limits L) damping = inr v ->
    length v = length (q (left_configuration st)) ->
    length (dq (right_configuration st)) = length (q (right_configuration st)) ->
    I (iteration_result L st v) /\ Forall P (iteration_calls L st v).

Lemma rule_control_gripper_call : preserves I P control_gripper_call.
Proof.
  intros st Hi. unfold control_gripper_call, control_gripper, bind, get, call, modify.
  simpl. split.
  - exists (gripper_calls (self st)). rewrite <- app_assoc. split; [reflexivity|].
    now apply P_gripper.
  - intros a st' E. injection E as _ <-. exact (I_trace st _ Hi).
Qed.

Lemma rule_update_target_sites_call : preserves I P update_target_sites_call.
Proof.
  intros st Hi.
  unfold update_target_sites_call, update_target_sites, attribute, bind, get, call, modify,
    raise, ret.
  simpl. destruct (target_site_id_l (self st)) as [id_l|]; simpl.
  - pose proof (P_sites st id_l id_l Hi) as Hl. unfold site_calls in Hl.
    destruct (target_site_id_r (self st)) as [id_r|]; simpl.
    + split.
      * exists (site_calls id_l id_r (self st)). rewrite <- !app_assoc.
        split; [reflexivity|]. now apply P_sites.
      * intros a st' E. injection E as _ <-. exact (I_trace st _ Hi).
    + split; [|discriminate].
      exists [SetSiteXpos id_l (target_l (self st)); SetSitePos id_l (target_l (self st))].
      rewrite <- !app_assoc. split; [reflexivity|].
      inversion Hl as [|? ? H1 Hl1]. inversion Hl1 as [|? ? H2 _]. now repeat constructor.
  - split; [|discriminate]. exists []. now rewrite app_nil_r.
Qed.

Lemma rule_add_target_sites model : preserves I P (add_target_sites model).
Proof.
  unfold add_target_sites.
  apply preserves_bind; [apply preserves_lift|intros id_l].
  apply preserves_bind;
    [apply preserves_modify; [|reflexivity]; intros st Hi; now apply I_site_id_l|intros _].
  apply preserves_bind; [apply preserves_lift|intros id_r].
  apply preserves_bind; [|intros _; apply rule_update_target_sites_call].
  apply preserves_modify; [|reflexivity]. intros st Hi. now apply I_site_id_r.
Qed.

Lemma rule_retarget_left : preserves I P retarget_left.
Proof.
  intros st Hi. unfold retarget_left, bind, get, call, modify. simpl. split.
  - eexists [_]. split; [reflexivity|]. constructor; [|constructor]. now apply P_left.
  - intros a st' E. injection E as _ <-. exact (I_trace _ _ (I_left st Hi)).
Qed.

Lemma rule_retarget_right : preserves I P retarget_right.
Proof.
  intros st Hi. unfold retarget_right, bind, get, call, modify. simpl. split.
  - eexists [_]. split; [reflexivity|]. constructor; [|constructor]. now apply P_right.
  - intros a st' E. injection E as _ <-. exact (I_trace _ _ (I_right st Hi)).
Qed.

Lemma rule_refresh : preserves I P refresh.
Proof.
  apply preserves_run_prog. simpl.
  repeat match goal with |- _ /\ _ => split end;
    first [ apply rule_control_gripper_call | apply rule_retarget_left
          | apply rule_update_target_sites_call | exact Logic.I | idtac ].
  apply preserves_modify; [|reflexivity]. intros st Hi. now apply I_clear.
Qed.

Lemma rule_inner_iteration : preserves I P (inner_iteration solve_ik L).
Proof.
  intros st Hi.
  destruct (inner_iteration_cases solve_ik L st) as [[e E]|(v & Hs & Hv & Hr & E)];
    rewrite E.
  - split; [|discriminate]. exists [CallSolveIK]. split; [reflexivity|].
    now repeat constructor.
  - destruct (pass st v Hi Hs Hv Hr) as [Hi' Hp]. split.
    + exists (iteration_calls L st v). now split.
    + intros a st' E'. injection E' as _ <-. exact Hi'.
Qed.

Lemma rule_while_running sched : preserves I P (while_running solve_ik L sched).
Proof.
  induction sched as [|evs rest IH]; simpl.
  - apply preserves_ret.
  - apply preserves_bind; [|intros _].
    { apply preserves_modify; [|reflexivity]. intros st Hi. now apply I_events. }
    apply preserves_bind; [|intros _; exact IH].
    unfold tick, inner_loop. apply preserves_bind; [apply rule_refresh|intros _].
    apply preserves_for_range, rule_inner_iteration.
Qed.

Lemma rule_viewer_block model sched : preserves I P (viewer_block solve_ik model L sched).
Proof.
  unfold viewer_block.
  apply preserves_bind; [now apply preserves_call|intros _].
  apply preserves_bind; [apply rule_add_target_sites|intros _].
  apply preserves_bind; [now apply preserves_call|intros _].
  apply preserves_bind; [apply rule_retarget_left|intros _].
  apply preserves_bind; [apply rule_retarget_right|intros _].
  apply rule_while_running.
Qed.

(** The calls of [run_loop]: the launch of the viewer, calls that satisfy
    [P], then the stop of the listener if nothing was raised, and the close
    of the viewer. *)
Lemma rule_run_loop model sched st :
  I st ->
  exists mid,
    Forall P mid /\
    match run_loop solve_ik model L sched st with
    | Normal _ st' =>
        I st' /\ trace st' = trace st ++ ViewerLaunch :: mid ++ [ListenerStop; ViewerClose]
    | Raised _ _ tr' => tr' = trace st ++ ViewerLaunch :: mid ++ [ViewerClose]
    end.
Proof.
  intros Hi.
  pose proof (run_loop_outcome solve_ik model L sched st) as Ho.
  destruct (rule_viewer_block model sched (with_trace (trace st ++ [ViewerLaunch]) st)
              (I_trace _ _ Hi)) as [(mid & Et & Hp) Hn].
  exists mid. split; [exact Hp|].
  destruct (viewer_block solve_ik model L sched _) as [[] st1|e s tr]; rewrite Ho;
    simpl in Et.
  - split; [apply I_trace; now apply (Hn tt)|].
    simpl. rewrite Et, <- !app_assoc. reflexivity.
  - rewrite Et, <- !app_assoc. reflexivity.
Qed.

End RunRule.

(** ** The viewer is scoped *)

Lemma iteration_calls_inside_block L st v : Forall inside_block (iteration_calls L st v).
Proof. unfold iteration_calls. repeat constructor; discriminate. Qed.

Lemma demo_model_resolves :
  forall name, In name arm_joint_names ->
               is_Some (joint demo_model !! name) /\ is_Some (actuator demo_model !! name).
Proof.
  intros name Hin. unfold arm_joint_names in Hin. simpl in Hin.
  repeat (destruct Hin as [<-|Hin]; [split; vm_compute; eauto|]). contradiction.
Qed.

(** X6.  Once the arm joint names resolve, [run] launches the viewer
    exactly once, as its first call, and closes it exactly once, as its
    last call, on every exit path: when the loop ends (after the stop of
    the listener) and when an exception leaves the block.  In between it
    never starts or stops the listener. *)
Theorem viewer_launched_and_closed_once
    (solve_ik : ik_solver) (model : MjModel) (data : MjData)
    (sched : list (list input_event)) (s : AlohaMocapControl) (tr : list event) :
  (forall name, In name arm_joint_names ->
                is_Some (joint model !! name) /\ is_Some (actuator model !! name)) ->
  exists mid,
    Forall inside_block mid /\
    match run solve_ik model data sched s tr with
    | Normal _ st' => trace st' = tr ++ ViewerLaunch :: mid ++ [ListenerStop; ViewerClose]
    | Raised _ _ tr' => tr' = tr ++ ViewerLaunch :: mid ++ [ViewerClose]
    end.
Proof.
  intros Hres. destruct (setup_total model data Hres) as ([[[[L lc] rc] lt] rt] & Es).
  unfold run. rewrite Es.
  destruct (rule_run_loop solve_ik L (fun _ => True) inside_block) with
    (model := model) (sched := sched) (st := mk_state s lc rc lt rt tr)
    as (mid & Hmid & Hrun);
    try solve
      [ intros; exact Logic.I
      | intros; unfold gripper_calls, site_calls; repeat constructor; discriminate
      | intros; split; discriminate
      | intros; split; [exact Logic.I|apply iteration_calls_inside_block] ].
  exists mid. split; [exact Hmid|].
  destruct (run_loop solve_ik model L sched _) as [a st'|e s' tr']; [apply Hrun|exact Hrun].
Qed.

Lemma viewer_launched_and_closed_once_witness :
  exists mid,
    Forall inside_block mid /\
    match run failing_solver demo_model demo_data [[]] demo_self [ListenerStart] with
    | Normal _ st' =>
        trace st' = [ListenerStart] ++ ViewerLaunch :: mid ++ [ListenerStop; ViewerClose]
    | Raised _ _ tr' => tr' = [ListenerStart] ++ ViewerLaunch :: mid ++ [ViewerClose]
    end.
Proof.
  exact (viewer_launched_and_closed_once failing_solver demo_model demo_data [[]] demo_self
           [ListenerStart] demo_model_resolves).
Defined.


(** ** The exits of [run] *)

Lemma counts_app j k a b : counts j a -> counts k b -> counts (j + k) (a ++ b).
Proof.
  intros (A1 & A2 & A3 & A4) (B1 & B2 & B3 & B4). unfold counts.
  rewrite !occurrences_app. repeat split; congruence.
Qed.

Lemma aborted_app solve_ik e k a b :
  counts k a -> aborted solve_ik e b -> aborted solve_ik e (a ++ b).
Proof.
  intros (A1 & A2 & A3 & A4) (Hp & B1 & B2 & B3). unfold aborted.
  rewrite !occurrences_app, A1, A2, A3, A4, B1, B2, B3.
  repeat split; auto.
Qed.

Lemma aborted_close solve_ik e a :
  aborted solve_ik e a -> aborted solve_ik e (a ++ [ViewerClose]).
Proof.
  intros (Hp & B1 & B2 & B3). unfold aborted. rewrite !occurrences_app. simpl.
  rewrite !Nat.add_0_r. auto.
Qed.

Section Exits.

Variable solve_ik : ik_solver.
Variable L : locals.

Lemma exits_bind {A B} j k (c : M A) (f : A -> M B) :
  exits solve_ik j c -> (forall a, exits solve_ik k (f a)) -> exits solve_ik (j + k) (bind c f).
Proof.
  intros Hc Hf st Hi. unfold bind. specialize (Hc st Hi).
  destruct (c st) as [a st1|e s tr].
  - destruct Hc as (Hi1 & new1 & E1 & C1). specialize (Hf a st1 Hi1).
    destruct (f a st1) as [b st2|e s tr].
    + destruct Hf as (Hi2 & new2 & E2 & C2). split; [exact Hi2|].
      exists (new1 ++ new2). rewrite E2, E1, <- app_assoc. split; [reflexivity|].
      now apply counts_app.
    + destruct Hf as (new2 & E2 & C2). exists (new1 ++ new2).
      rewrite E2, E1, <- app_assoc. split; [reflexivity|]. now apply (aborted_app _ _ j).
  - exact Hc.
Qed.

Lemma exits_for_range k n body :
  exits solve_ik k body -> exits solve_ik (n * k) (for_range n body).
Proof.
  intros Hb. induction n as [|n IH]; simpl.
  - intros st Hi. split; [exact Hi|]. exists []. rewrite app_nil_r. now repeat split.
  - apply exits_bind; auto.
Qed.

Lemma exits_refresh : exits solve_ik 0 refresh.
Proof.
  intros st Hi. pose proof Hi as [[id_l Hl] [id_r Hr]].
  rewrite (refresh_returns st id_l id_r Hl Hr).
  destruct (refresh_result_site_ids id_l id_r st) as [El Er].
  split; [unfold sites_added; now rewrite El, Er|].
  exists (refresh_calls id_l id_r st). split; [reflexivity|].
  destruct (refresh_calls_occurrences id_l id_r st) as (O1 & O2 & O3 & O4 & _).
  now repeat split.
Qed.

(** What a pass of the [for] loop ends in. *)
Lemma inner_iteration_outcome st :
  match inner_iteration solve_ik L st with
  | Normal _ st' => exists v, st' = iteration_result L st v
  | Raised e _ tr => tr = trace st ++ [CallSolveIK] /\ in_pass solve_ik e
  end.
Proof.
  destruct (solve_ik (trace st) (left_configuration st) [l_ee_task st] rate_dt solver
              (limits L) damping) as [e|v] eqn:Hs.
  - rewrite (inner_iteration_raises solve_ik L st e Hs). split; [reflexivity|].
    right. unfold solver_raises. eauto 10.
  - destruct (integrate_inplace_cases (left_configuration st) v rate_dt)
      as [[Hv Hl]|[Hv Hl]].
    + destruct (integrate_inplace_cases (right_configuration st)
                  (zeros_like (dq (right_configuration st))) rate_dt)
        as [[Hz Hr]|[Hz Hr]].
      * rewrite length_zeros_like in Hz.
        rewrite (inner_iteration_returns solve_ik L st v Hs Hv Hz). eauto.
      * unfold inner_iteration, solve_left, bind. rewrite Hs.
        unfold get, lift. simpl. rewrite Hl. simpl. rewrite Hr.
        split; [reflexivity|now left].
    + unfold inner_iteration, solve_left, bind. rewrite Hs.
      unfold get, lift. simpl. rewrite Hl. split; [reflexivity|now left].
Qed.

Lemma exits_inner_iteration : exits solve_ik 1 (inner_iteration solve_ik L).
Proof.
  intros st Hi. pose proof (inner_iteration_outcome st) as Ho.
  destruct (inner_iteration solve_ik L st) as [[] st'|e s tr].
  - destruct Ho as (v & ->). split; [exact Hi|].
    exists (iteration_calls L st v). split; [reflexivity|]. now repeat split.
  - destruct Ho as (-> & Hp). exists [CallSolveIK]. split; [reflexivity|].
    unfold aborted. simpl. auto.
Qed.

Lemma exits_tick : exits solve_ik max_iters (tick solve_ik L).
Proof.
  unfold tick. change max_iters with (0 + max_iters * 1)%nat.
  apply exits_bind; [apply exits_refresh|intros _].
  apply exits_for_range, exits_inner_iteration.
Qed.

Lemma exits_while_running sched :
  exits solve_ik (max_iters * length sched) (while_running solve_ik L sched).
Proof.
  induction sched as [|evs rest IH]; simpl length.
  - intros st Hi. split; [exact Hi|]. exists []. rewrite app_nil_r. now repeat split.
  - replace (max_iters * S (length rest))%nat
      with (0 + (max_iters + max_iters * length rest))%nat by lia.
    cbn [while_running]. apply exits_bind; [|intros _; apply exits_bind; auto using exits_tick].
    intros st Hi. unfold modify. split.
    + destruct (dispatch_all_site_ids evs (self st)) as [El Er].
      unfold sites_added. simpl. now rewrite El, Er.
    + exists []. simpl. rewrite app_nil_r. now repeat split.
Qed.

Lemma viewer_block_exits model sched st :
  match viewer_block solve_ik model L sched st with
  | Normal _ st' =>
      exists new, trace st' = trace st ++ new /\ counts (max_iters * length sched) new
  | Raised e _ tr =>
      exists new, tr = trace st ++ new /\ (unresolved e new \/ aborted solve_ik e new)
  end.
Proof.
  unfold viewer_block, add_target_sites, resolve.
  destruct (site model !! "aloha_scene/target") as [id_l|] eqn:Hsl.
  2:{ exists [DefaultFreeCamera]. split; [reflexivity|]. left. split; [|now repeat split].
      eexists. split; [|reflexivity]. apply in_or_app. right. simpl. auto. }
  destruct (site model !! "aloha_scene/target2") as [id_r|] eqn:Hsr.
  2:{ exists [DefaultFreeCamera]. split; [reflexivity|]. left. split; [|now repeat split].
      eexists. split; [|reflexivity]. apply in_or_app. right. simpl. auto. }
  unfold update_target_sites_call, update_target_sites, retarget_left, retarget_right.
  unfold bind, call, modify, get, lift, ret, attribute. simpl.
  match goal with
  | |- match while_running _ _ _ ?s with _ => _ end =>
      pose proof (exits_while_running sched s) as H; set (st0 := s) in *
  end.
  assert (Hi : sites_added st0) by (split; simpl; eauto).
  specialize (H Hi). assert (Et : exists pre, trace st0 = trace st ++ pre /\ counts 0 pre).
  { eexists. subst st0. simpl. rewrite <- !app_assoc. split; [reflexivity|].
    now repeat split. }
  destruct Et as (pre & Et & Cp).
  destruct (while_running solve_ik L sched st0) as [[] st'|e s tr].
  - destruct H as (_ & new & E & C). exists (pre ++ new).
    rewrite E, Et, <- app_assoc. split; [reflexivity|]. now apply (counts_app 0).
  - destruct H as (new & E & C). exists (pre ++ new).
    rewrite E, Et, <- app_assoc. split; [reflexivity|]. right.
    now apply (aborted_app _ _ 0).
Qed.

End Exits.

(** [run] on each of its exits. *)
Lemma run_exits solve_ik model data sched s tr :
  match run solve_ik model data sched s tr with
  | Normal _ st' =>
      exists new, trace st' = tr ++ new /\ counts (max_iters * length sched) new
  | Raised e _ tr' =>
      exists new, tr' = tr ++ new /\ (unresolved e new \/ aborted solve_ik e new)
  end.
Proof.
  unfold run. destruct (setup model data) as [e|[[[[L lc] rc] lt] rt]] eqn:Es.
  - destruct (setup_inl model data e Es) as (name & Hin & -> & _).
    exists []. rewrite app_nil_r. split; [reflexivity|]. left. split; [|now repeat split].
    exists name. split; [|reflexivity]. apply in_or_app. now left.
  - set (st := mk_state s lc rc lt rt tr).
    pose proof (run_loop_outcome solve_ik model L sched st) as Ho.
    pose proof (viewer_block_exits solve_ik L model sched
                  (with_trace (trace st ++ [ViewerLaunch]) st)) as Hv.
    destruct (viewer_block solve_ik model L sched _) as [[] st1|e s1 tr1]; rewrite Ho.
    + destruct Hv as (new & E & C). simpl in E.
      exists ([ViewerLaunch] ++ new ++ [ListenerStop; ViewerClose]). simpl trace.
      rewrite E, <- !app_assoc. split; [reflexivity|].
      apply (counts_app 0); [now repeat split|].
      destruct C as (C1 & C2 & C3 & C4). unfold counts.
      rewrite !occurrences_app, C1, C2, C3, C4. simpl. rewrite !Nat.add_0_r. tauto.
    + destruct Hv as (new & E & C). simpl in E.
      exists ([ViewerLaunch] ++ (new ++ [ViewerClose])).
      rewrite E, <- !app_assoc. split; [reflexivity|].
      destruct C as [(Hn & C)|C]; [left|right].
      * split; [exact Hn|]. apply (counts_app 0 0); [now repeat split|].
        apply (counts_app 0 0); [exact C|now repeat split].
      * apply (aborted_app _ _ 0); [now repeat split|]. now apply aborted_close.
Qed.

(** X9.  On every exit of [run], physics has been stepped once for each
    answer of the solver, and each step was followed by its viewer sync
    and its sleep.  When [run] returns, the calls it made hold [max_iters]
    solves, steps, syncs and sleeps for each iteration of the [while]
    loop.  When a name does not resolve they hold none.  When an
    exception leaves a pass of the [for] loop they hold one solve more
    than steps, and as many syncs and sleeps as steps. *)
Theorem run_steps_once_per_solve
    (solve_ik : ik_solver) (model : MjModel) (data : MjData)
    (sched : list (list input_event)) (s : AlohaMocapControl) (tr : list event) :
  exists new,
    trace_of (run solve_ik model data sched s tr) = tr ++ new /\
    occurrences KSync new = occurrences KStep new /\
    occurrences KSleep new = occurrences KStep new /\
    match raised (run solve_ik model data sched s tr) with
    | None =>
        occurrences KSolve new = occurrences KStep new /\
        occurrences KStep new = (max_iters * length sched)%nat
    | Some e =>
        ((exists name, In name run_names /\ e = KeyError name) /\
         occurrences KSolve new = 0%nat /\ occurrences KStep new = 0%nat) \/
        (in_pass solve_ik e /\ occurrences KSolve new = S (occurrences KStep new))
    end.
Proof.
  pose proof (run_exits solve_ik model data sched s tr) as Hx.
  destruct (run solve_ik model data sched s tr) as [a st'|e s' tr']; simpl in *.
  - destruct Hx as (new & E & C1 & C2 & C3 & C4). exists new.
    repeat split; congruence.
  - destruct Hx as (new & E & [[Hn (C1 & C2 & C3 & C4)]|(Hp & C1 & C2 & C3)]).
    + exists new. repeat split; try congruence. left. auto.
    + exists new. repeat split; auto.
Qed.

(** * The loop of [mink_default.py] *)

Section DefaultLoop.

Import mink_default.

Context {Configuration Limits : Type}.
Variable lib : collaborators Configuration Limits.
Variable dof_ids actuator_ids : list nat.
Variable limits : Limits.

(** A pass makes one call to the solver and leaves the tasks alone; it
    ends in [break] exactly when the left task is within the thresholds
    at the configuration it reached. *)
Lemma pass_outcome (st : state Configuration) :
  match pass lib limits st with
  | Done b st' =>
      trace st' = trace st ++ [CallSolveIK] /\
      l_ee_task st' = l_ee_task st /\ r_ee_task st' = r_ee_task st /\
      left_achieved lib st' = b
  | Failed e tr => tr = trace st ++ [CallSolveIK]
  end.
Proof.
  unfold pass.
  destruct (solve_ik lib _ _ _ _ _ _ _) as [e|vel]; [reflexivity|].
  destruct (integrate_inplace lib _ _ _) as [e|c]; [reflexivity|].
  destruct (compute_error lib (l_ee_task st) c) as [e|err] eqn:Ee; [reflexivity|].
  repeat split. unfold left_achieved. simpl. rewrite Ee. unfold achieved.
  destruct (_ <=? pos_threshold), (_ <=? ori_threshold); reflexivity.
Qed.

Lemma for_range_outcome n :
  forall st : state Configuration,
    match for_range lib limits n st with
    | Done _ st' =>
        exists k,
          (k <= n)%nat /\ ((0 < n)%nat -> (0 < k)%nat) /\
          trace st' = trace st ++ repeat CallSolveIK k /\
          l_ee_task st' = l_ee_task st /\ r_ee_task st' = r_ee_task st /\
          ((k < n)%nat -> left_achieved lib st' = true)
    | Failed e tr => exists k, (k < n)%nat /\ tr = trace st ++ repeat CallSolveIK (S k)
    end.
Proof.
  induction n as [|n IH]; intros st; simpl.
  - exists 0%nat. rewrite app_nil_r. repeat split; lia.
  - pose proof (pass_outcome st) as Hp.
    destruct (pass lib limits st) as [[|] st1|e tr].
    + destruct Hp as (Et & El & Er & Ha). exists 1%nat. repeat split; auto; lia.
    + destruct Hp as (Et & El & Er & Ha). specialize (IH st1).
      destruct (for_range lib limits n st1) as [[] st2|e tr].
      * destruct IH as (k & Hk & _ & Et2 & El2 & Er2 & Ha2). exists (S k).
        rewrite Et2, Et, <- app_assoc. repeat split; try congruence; try lia.
        intros Hlt. apply Ha2. lia.
      * destruct IH as (k & Hk & ->). exists (S k). rewrite Et, <- app_assoc.
        split; [lia|reflexivity].
    + exists 0%nat. split; [lia|exact Hp].
Qed.

(** X10.  A tick of the loop of [mink_default.py] that completes hands
    the two mocap poses to the tasks, calls the solver between one and
    [max_iters] = 20 times, and then commands the arm actuators, steps
    physics, syncs the viewer and sleeps exactly once, whatever the number
    of solver calls.  The command it writes is the position vector of the
    configuration reached, read at the joint ids.  When it stopped before
    the twentieth call, the left task is within both thresholds there. *)
Theorem default_tick_steps_once (l_pose r_pose : SE3) (st st' : state Configuration) :
  tick lib dof_ids actuator_ids limits (inr l_pose) (inr r_pose) st = Done tt st' ->
  exists k,
    (1 <= k <= 20)%nat /\
    trace st'
    = trace st
      ++ [CallSetTarget (frame_name (l_ee_task st)) l_pose;
          CallSetTarget (frame_name (r_ee_task st)) r_pose]
      ++ repeat CallSolveIK k
      ++ [SetCtrl actuator_ids (map (q lib (configuration st')) dof_ids);
          MjStep; ViewerSync; RateSleep] /\
    l_ee_task st' = set_target (l_ee_task st) l_pose /\
    r_ee_task st' = set_target (r_ee_task st) r_pose /\
    ((k < 20)%nat -> left_achieved lib st' = true).
Proof.
  unfold tick.
  match goal with
  | |- context [for_range lib limits max_iters ?s] =>
      pose proof (for_range_outcome max_iters s) as Hf;
      destruct (for_range lib limits max_iters s) as [[] st1|e tr]
  end; [|discriminate].
  intros H. injection H as <-.
  destruct Hf as (k & Hk & Hpos & Et & El & Er & Ha). simpl in Et, El, Er.
  exists k. unfold max_iters in *. split; [lia|]. simpl.
  rewrite Et, <- !app_assoc. repeat split; auto.
Qed.

End DefaultLoop.

Lemma default_tick_steps_once_witness :
  exists k,
    (1 <= k <= 20)%nat /\
    mink_default.trace mink_default.demo_after
    = mink_default.trace mink_default.demo_state
      ++ [CallSetTarget (frame_name (mink_default.l_ee_task mink_default.demo_state))
            mink_default.demo_pose;
          CallSetTarget (frame_name (mink_default.r_ee_task mink_default.demo_state))
            mink_default.demo_pose]
      ++ repeat CallSolveIK k
      ++ [SetCtrl [7%nat]
            (map (mink_default.q mink_default.demo_lib
                    (mink_default.configuration mink_default.demo_after)) [0%nat]);
          MjStep; ViewerSync; RateSleep] /\
    mink_default.l_ee_task mink_default.demo_after
    = set_target (mink_default.l_ee_task mink_default.demo_state) mink_default.demo_pose /\
    mink_default.r_ee_task mink_default.demo_after
    = set_target (mink_default.r_ee_task mink_default.demo_state) mink_default.demo_pose /\
    ((k < 20)%nat ->
     mink_default.left_achieved mink_default.demo_lib mink_default.demo_after = true).
Proof.
  apply (default_tick_steps_once mink_default.demo_lib [0%nat] [7%nat] tt
           mink_default.demo_pose mink_default.demo_pose mink_default.demo_state).
  vm_compute. reflexivity.
Defined.

Section RightError.

Import mink_default.

Context {Configuration Limits : Type}.
Variable lib : collaborators Configuration Limits.
Variable f : FrameTask -> Configuration -> exn + list float.
Variable dof_ids actuator_ids : list nat.
Variable limits : Limits.
Variable name : string.
Hypothesis agree : forall t c, frame_name t = name -> f t c = compute_error lib t c.

Lemma pass_ignores_right_error (st : state Configuration) :
  frame_name (l_ee_task st) = name ->
  pass (with_compute_error f lib) limits st = pass lib limits st.
Proof.
  intros Hn. unfold pass, with_compute_error. simpl.
  destruct (solve_ik lib _ _ _ _ _ _ _) as [e|vel]; [reflexivity|].
  destruct (integrate_inplace lib _ _ _) as [e|c]; [reflexivity|].
  now rewrite (agree _ c Hn).
Qed.

Lemma for_range_ignores_right_error n :
  forall st : state Configuration,
    frame_name (l_ee_task st) = name ->
    for_range (with_compute_error f lib) limits n st = for_range lib limits n st.
Proof.
  induction n as [|n IH]; intros st Hn; simpl; [reflexivity|].
  rewrite (pass_ignores_right_error st Hn).
  pose proof (pass_outcome lib limits st) as Hp.
  destruct (pass lib limits st) as [[|] st1|e tr]; try reflexivity.
  apply IH. destruct Hp as (_ & -> & _). exact Hn.
Qed.

Lemma tick_ignores_right_error l_pose r_pose (st : state Configuration) :
  frame_name (l_ee_task st) = name ->
  tick (with_compute_error f lib) dof_ids actuator_ids limits l_pose r_pose st
  = tick lib dof_ids actuator_ids limits l_pose r_pose st.
Proof.
  intros Hn. unfold tick.
  destruct l_pose as [e|l_pose]; [reflexivity|].
  destruct r_pose as [e|r_pose]; [reflexivity|].
  now rewrite for_range_ignores_right_error.
Qed.

Lemma tick_frame_name l_pose r_pose (st st' : state Configuration) :
  tick lib dof_ids actuator_ids limits l_pose r_pose st = Done tt st' ->
  frame_name (l_ee_task st') = frame_name (l_ee_task st).
Proof.
  unfold tick.
  destruct l_pose as [e|l_pose]; [discriminate|].
  destruct r_pose as [e|r_pose]; [discriminate|].
  match goal with
  | |- context [for_range lib limits max_iters ?s] =>
      pose proof (for_range_outcome lib limits max_iters s) as Hf;
      destruct (for_range lib limits max_iters s) as [[] st1|e tr]
  end; [|discriminate].
  intros H. injection H as <-. destruct Hf as (k & _ & _ & _ & El & _).
  simpl in *. now rewrite El.
Qed.

Lemma while_running_ignores_right_error sched :
  forall st : state Configuration,
    frame_name (l_ee_task st) = name ->
    while_running (with_compute_error f lib) dof_ids actuator_ids limits sched st
    = while_running lib dof_ids actuator_ids limits sched st.
Proof.
  induction sched as [|[l_pose r_pose] rest IH]; intros st Hn; simpl; [reflexivity|].
  rewrite (tick_ignores_right_error l_pose r_pose st Hn).
  destruct (tick lib dof_ids actuator_ids limits l_pose r_pose st) as [[] st1|e tr] eqn:Et;
    [|reflexivity].
  apply IH. now rewrite (tick_frame_name l_pose r_pose st st1 Et).
Qed.

End RightError.

(** X11.  The loop of [mink_default.py] never reads the error of the
    right task: line 118 takes [r_err] from [l_ee_task], so the [break]
    is decided by the left task alone.  Whatever [compute_error] answers
    for the other frames, the loop makes the same calls, reaches the same
    state and raises the same exceptions. *)
Theorem default_loop_ignores_right_error {Configuration Limits : Type}
    (lib : mink_default.collaborators Configuration Limits)
    (f : FrameTask -> Configuration -> exn + list float)
    (dof_ids actuator_ids : list nat) (limits : Limits)
    (sched : list ((exn + SE3) * (exn + SE3))) (st : mink_default.state Configuration) :
  (forall t c, frame_name t = frame_name (mink_default.l_ee_task st) ->
               f t c = mink_default.compute_error lib t c) ->
  mink_default.while_running (mink_default.with_compute_error f lib) dof_ids actuator_ids
    limits sched st
  = mink_default.while_running lib dof_ids actuator_ids limits sched st.
Proof.
  intros H.
  now apply (while_running_ignores_right_error lib f dof_ids actuator_ids limits
               (frame_name (mink_default.l_ee_task st)) H).
Qed.

Lemma demo_other_error_agrees :
  forall t c, frame_name t = frame_name (mink_default.l_ee_task mink_default.demo_state) ->
              mink_default.demo_other_error t c
              = mink_default.compute_error mink_default.demo_lib t c.
Proof.
  intros t c H. unfold mink_default.demo_other_error. simpl in H. now rewrite H.
Qed.

Lemma default_loop_ignores_right_error_witness :
  mink_default.while_running
    (mink_default.with_compute_error mink_default.demo_other_error mink_default.demo_lib)
    [0%nat] [7%nat] tt [(inr mink_default.demo_pose, inr mink_default.demo_pose)]
    mink_default.demo_state
  = mink_default.while_running mink_default.demo_lib [0%nat] [7%nat] tt
      [(inr mink_default.demo_pose, inr mink_default.demo_pose)] mink_default.demo_state.
Proof.
  exact (default_loop_ignores_right_error mink_default.demo_lib
           mink_default.demo_other_error [0%nat] [7%nat] tt
           [(inr mink_default.demo_pose, inr mink_default.demo_pose)]
           mink_default.demo_state demo_other_error_agrees).
Defined.

(** X12.  Inside the box the clip of [control_gripper] is the identity:
    fed the gripper positions of a controller whose callbacks have kept
    them in range, as [run] feeds it, it writes those positions
    unchanged. *)
Theorem gripper_clip_redundant_in_box (st : state) :
  in_box (self st) = true ->
  control_gripper_call st
  = Normal tt
      (with_trace
         (trace st ++ [SetCtrl [left_gripper_actuator_id (self st)]
                         [left_gripper_pos (self st)];
                       SetCtrl [right_gripper_actuator_id (self st)]
                         [right_gripper_pos (self st)]]) st).
Proof.
  intros Hb. unfold in_box in Hb. rewrite !andb_true_iff in Hb.
  destruct Hb as ((_ & Bl) & Br).
  unfold control_gripper_call, control_gripper, bind, get, call, modify, with_trace.
  simpl. rewrite <- app_assoc.
  rewrite (np_clip_inside _ 0.002 0.037 eq_refl eq_refl Bl).
  rewrite (np_clip_inside _ 0.002 0.037 eq_refl eq_refl Br).
  reflexivity.
Qed.

Lemma gripper_clip_redundant_in_box_witness :
  control_gripper_call demo_state
  = Normal tt
      (with_trace
         (trace demo_state ++ [SetCtrl [left_gripper_actuator_id (self demo_state)]
                                 [left_gripper_pos (self demo_state)];
                               SetCtrl [right_gripper_actuator_id (self demo_state)]
                                 [right_gripper_pos (self demo_state)]]) demo_state).
Proof.
  apply (gripper_clip_redundant_in_box demo_state). vm_compute. reflexivity.
Defined.

(** ** Where [run] can fail *)

Section FailsAtSolver.

Variable solve_ik : ik_solver.
Variable L : locals.

Lemma fails_at_solver_bind {A B} (c : M A) (f : A -> M B) :
  fails_at_solver solve_ik c -> (forall a, fails_at_solver solve_ik (f a)) ->
  fails_at_solver solve_ik (bind c f).
Proof.
  intros Hc Hf st Hi. unfold bind. specialize (Hc st Hi).
  destruct (c st) as [a st1|e s tr]; [|exact Hc]. exact (Hf a st1 Hc).
Qed.

Lemma fails_at_solver_for_range n body :
  fails_at_solver solve_ik body -> fails_at_solver solve_ik (for_range n body).
Proof.
  intros Hb. induction n as [|n IH]; simpl.
  - intros st Hi. exact Hi.
  - apply fails_at_solver_bind; auto.
Qed.

(** The head of a tick does not fail once the site attributes exist. *)
Lemma fails_at_solver_refresh : fails_at_solver solve_ik refresh.
Proof.
  intros st (Hs & Hl & Hr). pose proof Hs as [[id_l El] [id_r Er]].
  rewrite (refresh_returns st id_l id_r El Er).
  destruct (refresh_result_site_ids id_l id_r st) as [El' Er'].
  unfold loop_ready, sites_added. rewrite El', Er', El, Er. simpl. eauto.
Qed.

(** A pass fails only at its call to the solver. *)
Lemma fails_at_solver_inner_iteration :
  fails_at_solver solve_ik (inner_iteration solve_ik L).
Proof.
  intros st (Hs & Hl & Hr).
  destruct (solve_ik (trace st) (left_configuration st) [l_ee_task st] rate_dt solver
              (limits L) damping) as [e|v] eqn:Es.
  - rewrite (inner_iteration_raises solve_ik L st e Es).
    exists (trace st), (left_configuration st), [l_ee_task st], (limits L). auto.
  - destruct (integrate_inplace_cases (left_configuration st) v rate_dt)
      as [[Hv El]|[Hv El]].
    + rewrite (inner_iteration_returns solve_ik L st v Es Hv (proj2 Hr)).
      split; [exact Hs|]. split; apply integrated_consistent; auto.
      rewrite length_zeros_like. exact (proj2 Hr).
    + unfold inner_iteration, solve_left, bind. rewrite Es.
      unfold get, lift. simpl. rewrite El.
      exists (trace st), (left_configuration st), [l_ee_task st], (limits L).
      split; [reflexivity|]. right. split; [reflexivity|]. eauto.
Qed.

Lemma fails_at_solver_tick : fails_at_solver solve_ik (tick solve_ik L).
Proof.
  unfold tick, inner_loop.
  apply fails_at_solver_bind; [apply fails_at_solver_refresh|intros _].
  apply fails_at_solver_for_range, fails_at_solver_inner_iteration.
Qed.

Lemma fails_at_solver_while_running sched :
  fails_at_solver solve_ik (while_running solve_ik L sched).
Proof.
  induction sched as [|evs rest IH]; simpl.
  - intros st Hi. exact Hi.
  - apply fails_at_solver_bind;
      [|intros _; apply fails_at_solver_bind; auto using fails_at_solver_tick].
    intros st (Hs & Hl & Hr). unfold modify.
    destruct (dispatch_all_site_ids evs (self st)) as [El Er].
    unfold loop_ready, sites_added. simpl. rewrite El, Er. auto.
Qed.

(** The viewer block fails at the lookup of a target site, right after
    the call for the camera, or at a call to the solver. *)
Lemma viewer_block_fails model sched st :
  consistent (left_configuration st) -> consistent (right_configuration st) ->
  match viewer_block solve_ik model L sched st with
  | Normal _ _ => True
  | Raised e _ tr =>
      (at_lookup model e /\ tr = trace st ++ [DefaultFreeCamera]) \/ at_solver solve_ik e tr
  end.
Proof.
  intros Hl Hr. unfold viewer_block, add_target_sites, resolve.
  destruct (site model !! "aloha_scene/target") as [id_l|] eqn:Hsl.
  2:{ left. split; [|reflexivity]. eexists. split; [reflexivity|]. right. simpl. auto. }
  destruct (site model !! "aloha_scene/target2") as [id_r|] eqn:Hsr.
  2:{ left. split; [|reflexivity]. eexists. split; [reflexivity|]. right. simpl. auto. }
  unfold update_target_sites_call, update_target_sites, retarget_left, retarget_right.
  unfold bind, call, modify, get, lift, ret, attribute. simpl.
  match goal with
  | |- match while_running _ _ _ ?s with _ => _ end =>
      pose proof (fails_at_solver_while_running sched s) as H; set (st0 := s) in *
  end.
  assert (Hi : loop_ready st0).
  { unfold loop_ready, sites_added. subst st0. simpl. eauto. }
  specialize (H Hi).
  destruct (while_running solve_ik L sched st0) as [[] st'|e s tr]; [exact Logic.I|].
  right. exact H.
Qed.

End FailsAtSolver.

(** X8.  [run] fails only at a lookup or at the solver.  An exception
    that leaves [run] is either the [KeyError] of a name the model lacks,
    raised before the loop (an arm joint, before any call; a target site,
    right after the call for the camera), or it arose at the last call
    made before the viewer was closed, a call to the solver: the solver
    raised it, or returned a velocity of the wrong length that
    [integrate_inplace] refused.  So no statement of the loop other than
    the pass after its solve fails; in particular [update_target_sites]
    never fails on a missing site attribute. *)
Theorem run_fails_at_lookup_or_solver
    (solve_ik : ik_solver) (model : MjModel) (data : MjData)
    (sched : list (list input_event)) (s : AlohaMocapControl) (tr : list event) (e : exn) :
  raised (run solve_ik model data sched s tr) = Some e ->
  (at_lookup model e /\
   (trace_of (run solve_ik model data sched s tr) = tr \/
    trace_of (run solve_ik model data sched s tr)
    = tr ++ [ViewerLaunch; DefaultFreeCamera; ViewerClose])) \/
  (exists h,
      trace_of (run solve_ik model data sched s tr) = h ++ [ViewerClose] /\
      at_solver solve_ik e h).
Proof.
  unfold run. destruct (setup model data) as [e'|[[[[L lc] rc] lt] rt]] eqn:Es.
  - simpl. intros [= <-].
    destruct (setup_inl model data e' Es) as (name & Hin & -> & Hm).
    left. split; [|now left]. exists name. split; [reflexivity|]. left. auto.
  - destruct (setup_inr _ _ _ _ _ _ _ Es) as (_ & _ & _ & Hl & Hr).
    set (st := mk_state s lc rc lt rt tr).
    pose proof (run_loop_outcome solve_ik model L sched st) as Ho.
    pose proof (viewer_block_fails solve_ik L model sched
                  (with_trace (trace st ++ [ViewerLaunch]) st) Hl Hr) as Hv.
    destruct (viewer_block solve_ik model L sched _) as [[] st1|e1 s1 tr1]; rewrite Ho;
      simpl; [discriminate|].
    intros [= <-]. destruct Hv as [[Hk ->]|Hv].
    + left. split; [exact Hk|]. right. simpl. now rewrite <- !app_assoc.
    + right. exists tr1. split; [reflexivity|exact Hv].
Qed.

Lemma run_fails_at_lookup_or_solver_witness :
  (at_lookup demo_model NoSolutionFound /\
   (trace_of (run failing_solver demo_model demo_data [[]] demo_self [ListenerStart])
    = [ListenerStart] \/
    trace_of (run failing_solver demo_model demo_data [[]] demo_self [ListenerStart])
    = [ListenerStart] ++ [ViewerLaunch; DefaultFreeCamera; ViewerClose])) \/
  (exists h,
      trace_of (run failing_solver demo_model demo_data [[]] demo_self [ListenerStart])
      = h ++ [ViewerClose] /\
      at_solver failing_solver NoSolutionFound h).
Proof.
  apply (run_fails_at_lookup_or_solver failing_solver demo_model demo_data [[]] demo_self
           [ListenerStart]).
  vm_compute. reflexivity.
Defined.

(** * The grippers under any interleaving *)

Lemma SFadd_not_nan_l p em x y :
  F64.sf_is_nan x = false -> F64.sf_finite y = true ->
  F64.sf_is_nan (SFadd p em x y) = false.
Proof.
  destruct x as [[]|[]| |sx mx ex], y as [[]|[]| |sy my ey]; simpl; try discriminate;
    intros _ _; try reflexivity.
  apply binary_normalize_not_nan.
Qed.

Lemma SFsub_not_nan_l p em x y :
  F64.sf_is_nan x = false -> F64.sf_finite y = true ->
  F64.sf_is_nan (SFsub p em x y) = false.
Proof.
  destruct x as [[]|[]| |sx mx ex], y as [[]|[]| |sy my ey]; simpl; try discriminate;
    intros _ _; try reflexivity.
  apply binary_normalize_not_nan.
Qed.

(** A finite step never turns a number into a NaN. *)
Lemma add_not_nan_l x y : is_nan x = false -> F64.finite y = true -> is_nan (x + y) = false.
Proof.
  intros Hx Hy. rewrite is_nan_spec in Hx. rewrite is_nan_spec, add_spec.
  now apply SFadd_not_nan_l.
Qed.

Lemma sub_not_nan_l x y : is_nan x = false -> F64.finite y = true -> is_nan (x - y) = false.
Proof.
  intros Hx Hy. rewrite is_nan_spec in Hx. rewrite is_nan_spec, sub_spec.
  now apply SFsub_not_nan_l.
Qed.

Lemma np_clip_not_nan x lo hi :
  is_nan x = false -> is_nan lo = false -> is_nan hi = false ->
  is_nan (np_clip x lo hi) = false.
Proof.
  intros Hx Hlo Hhi. unfold np_clip, npy_max, npy_min. rewrite Hx.
  destruct (lo <? x); [rewrite Hx|rewrite Hlo]; destruct (_ <? hi); assumption.
Qed.

(** Every statement of a callback keeps the step and leaves the gripper
    positions numbers. *)
Lemma callback_stmt_sane c s : callback_stmt c -> gripper_sane s -> gripper_sane (c s).
Proof.
  intros [ev Hin] (Hd & Hl & Hr). revert Hin.
  destruct s as [tl tr rl rr u ? ? ? ? ? ? d lid rid gl gr sl sr]. simpl in Hd, Hl, Hr.
  destruct ev as [x y dx dy|x y button pressed]; simpl;
    unfold on_scroll_body, on_scroll_horizontal, on_scroll_vertical, on_scroll_clamp,
      on_click_body;
    callback_cases; simpl; intros Hin;
    repeat (destruct Hin as [<-|Hin]);
    try contradiction;
    unfold gripper_sane; simpl;
    auto using add_not_nan_l, sub_not_nan_l, np_clip_not_nan.
Qed.

Lemma callback_bodies_stmts evs : Forall callback_stmt (concat (map callback_body evs)).
Proof.
  induction evs as [|ev evs IH]; simpl; [constructor|].
  apply Forall_app. split; [|exact IH].
  apply Forall_forall. intros c Hc. exists ev. now apply list_elem_of_In.
Qed.

(** ** A rule for the two threads *)

Section Interleave.

Variable I : state -> Prop.
Variable P : event -> Prop.
Hypothesis I_listener :
  forall c st, callback_stmt c -> I st -> I (with_self (c (self st)) st).

Lemma preserves_listener_step c :
  callback_stmt c -> preserves I P (modify (fun st => with_self (c (self st)) st)).
Proof. intros Hc. apply preserves_modify; [|reflexivity]. intros st. now apply I_listener. Qed.

Lemma preserves_listener_rest body :
  Forall callback_stmt body ->
  preserves I P (modify (fun st => with_self (exec body (self st)) st)).
Proof.
  intros Hb. apply preserves_modify; [|reflexivity].
  unfold exec. induction Hb as [|c body Hc _ IH]; intros st Hi; simpl.
  - destruct st. exact Hi.
  - specialize (IH _ (I_listener c st Hc Hi)). exact IH.
Qed.

(** Whatever the schedule, the interleaving keeps an invariant that every
    statement of either thread keeps, and makes only calls the control
    thread could make. *)
Lemma preserves_interleave sched :
  forall callback control,
    Forall callback_stmt callback -> prog_all (preserves I P) control ->
    preserves I P (interleave sched callback control).
Proof.
  induction sched as [|t sched IH]; intros callback control Hcb Hp.
  - simpl. apply preserves_bind; [now apply preserves_listener_rest|intros _].
    now apply preserves_run_prog.
  - destruct t; simpl.
    + destruct Hcb as [|c callback Hc Hcb]; [apply IH; auto|].
      apply preserves_bind; [now apply preserves_listener_step|intros _]. now apply IH.
    + destruct control as [|c k|b kt kf]; simpl in Hp.
      * apply IH; simpl; auto.
      * destruct Hp as [Hc Hk]. apply preserves_bind; [exact Hc|intros _]. now apply IH.
      * destruct Hp as [Ht Hf]. apply preserves_bind; [apply preserves_get|intros st].
        apply IH; [exact Hcb|]. destruct (b st); assumption.
Qed.

Lemma prog_all_app ok p q : prog_all ok p -> prog_all ok q -> prog_all ok (prog_app p q).
Proof.
  intros Hp Hq. induction p as [|c k IH|b kt IHt kf IHf]; simpl in *; tauto.
Qed.

End Interleave.

(** ** The loop as a program *)

Lemma run_prog_app p q st : run_prog (prog_app p q) st = (run_prog p ;; run_prog q) st.
Proof.
  revert st. induction p as [|c k IH|b kt IHt kf IHf]; intros st; simpl.
  - reflexivity.
  - unfold bind. destruct (c st) as [[] st1|e s tr]; [|reflexivity].
    rewrite IH. reflexivity.
  - unfold bind, get. destruct (b st); [rewrite IHt|rewrite IHf]; reflexivity.
Qed.

Lemma run_passes_prog solve_ik L n st :
  run_prog (passes_prog solve_ik L n) st = for_range n (inner_iteration solve_ik L) st.
Proof.
  revert st. induction n as [|n IH]; intros st; simpl; [reflexivity|].
  unfold bind. destruct (inner_iteration solve_ik L st) as [[] st1|e s tr]; [|reflexivity].
  apply IH.
Qed.

Lemma run_tick_prog solve_ik L st : run_prog (tick_prog solve_ik L) st = tick solve_ik L st.
Proof.
  unfold tick_prog, tick, inner_loop, refresh. rewrite run_prog_app. unfold bind.
  destruct (run_prog refresh_prog st) as [[] st1|e s tr]; [|reflexivity].
  apply run_passes_prog.
Qed.

Lemma exec_callback_bodies evs :
  forall s, exec (concat (map callback_body evs)) s = dispatch_all s evs.
Proof.
  induction evs as [|ev evs IH]; intros s; simpl; [reflexivity|].
  unfold exec. rewrite fold_left_app. fold (exec (callback_body ev) s).
  rewrite exec_callback_body. apply IH.
Qed.

Lemma run_loop_prog solve_ik L n :
  forall st,
    run_prog (loop_prog solve_ik L n) st = while_running solve_ik L (repeat [] n) st.
Proof.
  induction n as [|n IH]; intros st; [reflexivity|].
  cbn [loop_prog repeat while_running]. rewrite run_prog_app.
  unfold bind, modify. rewrite run_tick_prog. simpl dispatch_all.
  replace (with_self (self st) st) with st by (destruct st; reflexivity).
  destruct (tick solve_ik L st) as [[] st1|e s tr]; [apply IH|reflexivity].
Qed.

(** With an empty schedule the callbacks all run first: the threaded loop
    is then the loop in which they run before the first tick. *)
Lemma threads_listener_first solve_ik L evs n st :
  while_running_threads solve_ik L [] evs (S n) st
  = while_running solve_ik L (evs :: repeat [] n) st.
Proof.
  unfold while_running_threads. cbn [interleave loop_prog while_running].
  unfold bind, modify. rewrite exec_callback_bodies.
  rewrite run_prog_app. unfold bind. rewrite run_tick_prog.
  destruct (tick solve_ik L _) as [[] st1|e s tr]; [apply run_loop_prog|reflexivity].
Qed.

(** ** The gripper commands *)

Section Grippers.

Variable solve_ik : ik_solver.
Variable L : locals.
Hypothesis six : six_actuators L.

Lemma gripper_in_range_arm ids vals :
  length ids = length _JOINT_NAMES -> gripper_in_range (SetCtrl ids vals).
Proof.
  intros H. do 2 (destruct ids as [|? ids]; [discriminate|]). exact Logic.I.
Qed.

Lemma sane_gripper_calls s :
  gripper_sane s -> Forall gripper_in_range (gripper_calls s).
Proof.
  intros (_ & Hl & Hr). unfold gripper_calls.
  repeat constructor; simpl; repeat constructor; now apply np_clip_within.
Qed.

Lemma sane_control_gripper_call :
  preserves (fun st => gripper_sane (self st)) gripper_in_range control_gripper_call.
Proof.
  apply rule_control_gripper_call.
  - intros st tr H. exact H.
  - intros st H. now apply sane_gripper_calls.
Qed.

Lemma sane_retarget_left :
  preserves (fun st => gripper_sane (self st)) gripper_in_range retarget_left.
Proof.
  apply rule_retarget_left.
  - intros st tr H. exact H.
  - intros st H. exact H.
  - intros st H. exact Logic.I.
Qed.

Lemma sane_update_target_sites_call :
  preserves (fun st => gripper_sane (self st)) gripper_in_range update_target_sites_call.
Proof.
  apply rule_update_target_sites_call.
  - intros st tr H. exact H.
  - intros st id_l id_r H. unfold site_calls. repeat constructor.
Qed.

Lemma sane_clear_updated :
  preserves (fun st => gripper_sane (self st)) gripper_in_range clear_updated.
Proof.
  apply preserves_modify; [|reflexivity]. intros st H. destruct st as [[] ? ? ? ? ?].
  exact H.
Qed.

Lemma sane_inner_iteration :
  preserves (fun st => gripper_sane (self st)) gripper_in_range
    (inner_iteration solve_ik L).
Proof.
  apply rule_inner_iteration.
  - exact Logic.I.
  - intros st v Hi _ _ _. split; [exact Hi|].
    pose proof (sane_gripper_calls _ Hi) as Hg. unfold gripper_calls in Hg.
    inversion Hg as [|? ? G1 Hg1]. inversion Hg1 as [|? ? G2 _].
    destruct six as [Sl Sr]. unfold iteration_calls.
    repeat (constructor;
            [first [exact G1|exact G2|now apply gripper_in_range_arm|exact Logic.I]|]).
    constructor.
Qed.

Lemma sane_passes_prog m :
  prog_all (preserves (fun st => gripper_sane (self st)) gripper_in_range)
    (passes_prog solve_ik L m).
Proof.
  induction m as [|m IH]; [exact Logic.I|].
  split; [apply sane_inner_iteration|exact IH].
Qed.

Lemma sane_refresh_prog :
  prog_all (preserves (fun st => gripper_sane (self st)) gripper_in_range) refresh_prog.
Proof.
  unfold refresh_prog. cbn [prog_all].
  split; [apply sane_control_gripper_call|]. split; [|exact Logic.I].
  split; [apply sane_retarget_left|]. split; [apply sane_update_target_sites_call|].
  split; [apply sane_clear_updated|exact Logic.I].
Qed.

Lemma sane_loop_prog n :
  prog_all (preserves (fun st => gripper_sane (self st)) gripper_in_range)
    (loop_prog solve_ik L n).
Proof.
  induction n as [|n IH]; [exact Logic.I|].
  cbn [loop_prog]. apply prog_all_app; [|exact IH].
  unfold tick_prog. apply prog_all_app; [apply sane_refresh_prog|apply sane_passes_prog].
Qed.

End Grippers.

(** The locals that [run] binds send the arm commands to six actuators. *)
Lemma setup_six_actuators model data L lc rc lt rt :
  setup model data = inr (L, lc, rc, lt, rt) -> six_actuators L.
Proof.
  unfold setup. destruct name_loop_value as (vl & -> & _).
  destruct (comprehension (resolve (joint model))
              (map (fun n => "aloha_scene/left_" +:+ n) _JOINT_NAMES))
    as [?|l_dof]; [discriminate|].
  destruct (comprehension (resolve (actuator model))
              (map (fun n => "aloha_scene/left_" +:+ n) _JOINT_NAMES))
    as [?|l_act] eqn:E2; [discriminate|].
  destruct (comprehension (resolve (joint model))
              (map (fun n => "aloha_scene/right_" +:+ n) _JOINT_NAMES))
    as [?|r_dof]; [discriminate|].
  destruct (comprehension (resolve (actuator model))
              (map (fun n => "aloha_scene/right_" +:+ n) _JOINT_NAMES))
    as [?|r_act] eqn:E4; [discriminate|].
  intros H. injection H as <- _ _ _ _.
  apply comprehension_inr, Forall2_length in E2, E4.
  rewrite length_map in E2, E4. unfold six_actuators. simpl in *. split; congruence.
Qed.

(** X7.  Whatever the interleaving of the listener's callbacks with the
    control loop, for any solver, any events and any number of ticks,
    every command the loop writes to a gripper actuator lies in
    [0.002, 0.037]: each thread keeps the gripper positions numbers, and
    [control_gripper] clips what it reads, also a position it reads between
    the step of a callback and its clip.  (The target pose has no such
    guard: read between a step and its clip it is handed over one step
    outside the box.) *)
Theorem gripper_commands_in_range_under_threads
    (solve_ik : ik_solver) (L : locals) (sched : list thread) (evs : list input_event)
    (n : nat) (st : state) :
  six_actuators L ->
  gripper_sane (self st) ->
  exists new,
    trace_of (while_running_threads solve_ik L sched evs n st) = trace st ++ new /\
    Forall gripper_in_range new.
Proof.
  intros Hsix Hs.
  destruct (preserves_interleave (fun st => gripper_sane (self st)) gripper_in_range
              (fun c st Hc Hi => callback_stmt_sane c (self st) Hc Hi)
              sched (concat (map callback_body evs)) (loop_prog solve_ik L n)
              (callback_bodies_stmts evs) (sane_loop_prog solve_ik L Hsix n) st Hs)
    as [Hnew _].
  exact Hnew.
Qed.

Lemma gripper_commands_in_range_under_threads_witness :
  exists new,
    trace_of (while_running_threads resting_solver demo_locals torn_schedule
                [Scroll 0 0 1 0] 1 demo_state_at_x_max)
    = trace demo_state_at_x_max ++ new /\
    Forall gripper_in_range new.
Proof.
  apply (gripper_commands_in_range_under_threads resting_solver demo_locals torn_schedule
           [Scroll 0 0 1 0] 1 demo_state_at_x_max).
  - split; vm_compute; reflexivity.
  - repeat split; vm_compute; reflexivity.
Defined.
